(** * The Zodya i18n module ([js/i18n.js]) : model and verification

    The module keeps three variables (the active language code, the loaded
    translation dataset and an initialisation flag) and talks to the
    browser: the page's query string, [localStorage], [navigator],
    [fetch], the console and the document.  Every function of the module
    is embedded below under its own name.  The browser is modelled by

    - a [Host] record for what the JavaScript engine and the DOM
      implementation decide (inherited properties, string conversion of
      non-strings, the HTML fragment parser, attribute-name validity);
    - a [World] record for what the page was loaded with (query string,
      navigator fields, the network);
    - the [State] record for everything that changes while the module
      runs.

    How the browser is cut down:

    - [init] and [setLanguage] are embedded twice: as whole calls,
      which run from the call to its end with nothing in between
      ([init], [setLanguage]), and cut at each [await] ([callInit],
      [callSetLanguage], [resume]), for the schedules in which calls
      overlap ([run]); the two agree on a call that nothing disturbs;
    - the document is a tree of HTML elements with attribute maps (no
      element of another namespace, so that every [title] is one that
      [document.title] can use);
    - the fragment parser is a function of the context element's tag and
      of the markup;
    - of the console only [console.error] is recorded.

    The second script of the page (visual effects and the mobile menu)
    comes after the module; of it [toggleMobileMenu], [debounce] and
    [throttle] are embedded, in [Page].

    The file has three parts: the model, the vocabulary of the
    properties, and the properties with their proofs. *)

From Stdlib Require Import Floats ZArith Ascii String.
From stdpp Require Import base strings gmap list.
From Equations Require Import Equations.

#[local] Set Warnings "-register-all,-clear-no-such-hyp".

(** ** Strings

    A JavaScript string is a sequence of code units; the model keeps the
    8-bit ones (the Latin-1 range), which is where every constant of the
    module lives. *)

Module JsString.

(** [s.split(sep)] for a one-character separator: never empty, and
    [split sep ""] is [[""]]. *)
Fixpoint split (sep : ascii) (s : string) : list string :=
  match s with
  | EmptyString => [EmptyString]
  | String c rest =>
      if Ascii.eqb c sep then EmptyString :: split sep rest
      else match split sep rest with
           | [] => [String c EmptyString]
           | w :: ws => String c w :: ws
           end
  end.

Definition lowerChar (c : ascii) : ascii :=
  let n := nat_of_ascii c in
  if ((65 <=? n) && (n <=? 90))%nat
     || ((192 <=? n) && (n <=? 222) && negb (n =? 215))%nat
  then ascii_of_nat (n + 32) else c.

(** [s.toLowerCase()] *)
Fixpoint toLowerCase (s : string) : string :=
  match s with
  | EmptyString => EmptyString
  | String c rest => String (lowerChar c) (toLowerCase rest)
  end.

Definition asciiLowerChar (c : ascii) : ascii :=
  let n := nat_of_ascii c in
  if ((65 <=? n) && (n <=? 90))%nat then ascii_of_nat (n + 32) else c.

(** ASCII lower-casing, which the DOM applies to attribute names. *)
Fixpoint asciiLowerCase (s : string) : string :=
  match s with
  | EmptyString => EmptyString
  | String c rest => String (asciiLowerChar c) (asciiLowerCase rest)
  end.

(** White space as [String.prototype.trim] sees it (TAB, LF, VT, FF, CR,
    SP, NBSP). *)
Definition isWhiteSpace (c : ascii) : bool :=
  bool_decide (nat_of_ascii c ∈ [9; 10; 11; 12; 13; 32; 160]%nat).

Fixpoint trimStart (s : string) : string :=
  match s with
  | EmptyString => EmptyString
  | String c rest => if isWhiteSpace c then trimStart rest else s
  end.

Fixpoint trimEnd (s : string) : string :=
  match s with
  | EmptyString => EmptyString
  | String c rest =>
      match trimEnd rest with
      | EmptyString => if isWhiteSpace c then EmptyString else String c EmptyString
      | rest' => String c rest'
      end
  end.

(** [s.trim()] *)
Definition trim (s : string) : string := trimEnd (trimStart s).

(** [s.includes(c)] for a one-character needle. *)
Fixpoint includes (c : ascii) (s : string) : bool :=
  match s with
  | EmptyString => false
  | String c' rest => Ascii.eqb c' c || includes c rest
  end.

Definition isEmpty (s : string) : bool :=
  match s with EmptyString => true | _ => false end.

End JsString.

(** ** Values, exceptions and the host *)

(** A JavaScript value as the module can meet one: what [JSON.parse]
    builds, [undefined], and objects of the engine itself (built-in
    functions and prototype objects), which are reachable as inherited
    properties. *)
Inductive value : Type :=
| Undefined
| Null
| Bool (b : bool)
| Num (x : float)
| Str (s : string)
| Arr (elements : list value)
| Obj (fields : gmap string value)
| HostObject (h : nat).

Inductive Exn : Type :=
| TypeError
| InvalidCharacterError
| SecurityError
| QuotaExceededError
| NetworkError
| SyntaxError
| LoadError (file : string).

(** The outcome of evaluating a piece of code: a value, or an exception on
    its way to the nearest [catch]. *)
Inductive Completion (A : Type) : Type :=
| Normal (a : A)
| Throw (e : Exn).
Arguments Normal {A} a.
Arguments Throw {A} e.

#[export] Instance Completion_ret : MRet Completion := @Normal.
#[export] Instance Completion_bind : MBind Completion := λ A B f c,
  match c with Normal a => f a | Throw e => Throw e end.
#[export] Instance Completion_fmap : FMap Completion := λ A B f c,
  match c with Normal a => Normal (f a) | Throw e => Throw e end.

(** The document tree.  Attributes are a finite map from (lower-case)
    names to values; [Text] stands for any child that is not an element. *)
Inductive node : Type :=
| Text (data : string)
| Elem (tag : string) (attrs : gmap string string) (children : list node).

Inductive Kind := KObject | KArray | KString | KNumber | KBoolean.

(** What the engine and the DOM implementation decide. *)
Record Host : Type := {
  (** the property [k] as found on the prototype chain of a value of the
      given kind, [None] when the chain does not have it *)
  inherited : Kind → string → option value;
  (** [typeof] of an engine object is ["function"] (else ["object"]) *)
  hostIsFunction : nat → bool;
  (** property [k] of an engine object, own or inherited *)
  hostProperty : nat → string → option value;
  (** conversion to string of a value that is not a string (it throws
      for an object that cannot be converted to a primitive) *)
  toDisplayString : value → Completion string;
  (** the HTML fragment parser behind [innerHTML], given the tag of the
      context element *)
  parseFragment : string → string → list node;
  (** whether [setAttribute] accepts the name *)
  validAttributeName : string → bool
}.

Section values.
Context (H : Host).

Definition numberOfNat (n : nat) : float :=
  PrimFloat.of_uint63 (Uint63.of_Z (Z.of_nat n)).

(** Truthiness, as [if], [&&] and [||] test it. *)
Definition truthy (v : value) : bool :=
  match v with
  | Undefined | Null => false
  | Bool b => b
  | Num x => negb (PrimFloat.eqb x 0%float || PrimFloat.is_nan x)
  | Str s => negb (JsString.isEmpty s)
  | Arr _ | Obj _ | HostObject _ => true
  end.

(** [typeof v === 'object'] *)
Definition typeofObject (v : value) : bool :=
  match v with
  | Null | Arr _ | Obj _ => true
  | HostObject h => negb (hostIsFunction H h)
  | _ => false
  end.

(** Values that are objects in the language's sense (that [in] accepts). *)
Definition isObjectValue (v : value) : bool :=
  match v with
  | Arr _ | Obj _ | HostObject _ => true
  | _ => false
  end.

Definition digit (c : ascii) : option nat :=
  let n := nat_of_ascii c in
  if ((48 <=? n) && (n <=? 57))%nat then Some (n - 48)%nat else None.

Fixpoint digitsValue (acc : nat) (s : string) : option nat :=
  match s with
  | EmptyString => Some acc
  | String c rest => d ← digit c; digitsValue (10 * acc + d)%nat rest
  end.

(** A property name that is an array index: a decimal numeral without a
    leading zero. *)
Definition arrayIndex (k : string) : option nat :=
  match k with
  | EmptyString => None
  | String "0" EmptyString => Some 0%nat
  | String "0" _ => None
  | _ => digitsValue 0 k
  end.

Fixpoint charAt (s : string) (i : nat) : option ascii :=
  match s, i with
  | EmptyString, _ => None
  | String c _, O => Some c
  | String _ rest, S i' => charAt rest i'
  end.

Definition ownProperty (v : value) (k : string) : option value :=
  match v with
  | Obj fields => fields !! k
  | Arr elements =>
      if bool_decide (k = "length") then Some (Num (numberOfNat (length elements)))
      else i ← arrayIndex k; elements !! i
  | Str s =>
      if bool_decide (k = "length") then Some (Num (numberOfNat (String.length s)))
      else i ← arrayIndex k; c ← charAt s i; Some (Str (String c EmptyString))
  | _ => None
  end.

Definition kindOf (v : value) : option Kind :=
  match v with
  | Obj _ => Some KObject
  | Arr _ => Some KArray
  | Str _ => Some KString
  | Num _ => Some KNumber
  | Bool _ => Some KBoolean
  | _ => None
  end.

(** The property [k] of [v], own first and inherited next: [Some x] when
    the property exists and reads as [x]. *)
Definition lookupProperty (v : value) (k : string) : option value :=
  match v with
  | HostObject h => hostProperty H h k
  | _ =>
      match ownProperty v k with
      | Some x => Some x
      | None => kind ← kindOf v; inherited H kind k
      end
  end.

(** [k in v]: a [TypeError] unless [v] is an object. *)
Definition hasProperty (k : string) (v : value) : Completion bool :=
  if isObjectValue v then Normal (bool_decide (is_Some (lookupProperty v k)))
  else Throw TypeError.

(** [v[k]] and [v.k]: a [TypeError] on [undefined] and [null], and
    [undefined] for a property that is not there. *)
Definition getMember (v : value) (k : string) : Completion value :=
  match v with
  | Undefined | Null => Throw TypeError
  | _ => Normal (default Undefined (lookupProperty v k))
  end.

(** *** Key lookup *)

(** The loop of [t], one iteration per call; [keyPath] is kept for the
    early [return keyPath]. *)
Fixpoint t_loop (keyPath : string) (keys : list string) (current : value)
  : Completion value :=
  match keys with
  | [] => Normal current
  | key :: rest =>
      present ←
        (if truthy current && typeofObject current then hasProperty key current
         else Normal false);
      if (present : bool) then next ← getMember current key; t_loop keyPath rest next
      else Normal (Str keyPath)
  end.

(** [t(keyPath)] on the dataset [translations] *)
Definition t (translations : value) (keyPath : string) : Completion value :=
  t_loop keyPath (JsString.split "." keyPath) translations.

(** *** Key paths

    A keyed container is a value that passes the guard of the loop.  A
    path resolves when every segment is found in turn by the [in] test
    of the loop, which finds own and inherited properties alike, and is
    blocked at the first segment that meets a value that is not a keyed
    container or a container on which [in] is false. *)
Definition isContainer (v : value) : bool := truthy v && typeofObject v.

Inductive resolves : value → list string → value → Prop :=
| resolves_nil v : resolves v [] v
| resolves_cons v k ks v' r :
    isContainer v = true →
    lookupProperty v k = Some v' →
    resolves v' ks r →
    resolves v (k :: ks) r.

(** The test of the loop fails: [v] is not a keyed container, or
    [k in v] is false ([v] has no property [k], own or inherited). *)
Definition missing (v : value) (k : string) : Prop :=
  isContainer v = false ∨ lookupProperty v k = None.

Definition blocked (v : value) (ks : list string) : Prop :=
  ∃ pre k post cur, ks = pre ++ k :: post ∧ resolves v pre cur ∧ missing cur k.

(** *** What the specification says of a key path

    The specification, like the comment above [t] ("Translated text or
    key if not found"), looks for a segment among the entries of the
    container: the walk goes on while the current value is a keyed
    container that has the segment, and the key path is returned when
    the container lacks it. *)
Fixpoint t_specified_loop (keyPath : string) (keys : list string) (current : value)
  : value :=
  match keys with
  | [] => current
  | key :: rest =>
      if isContainer current then
        match ownProperty current key with
        | Some next => t_specified_loop keyPath rest next
        | None => Str keyPath
        end
      else Str keyPath
  end.

Definition t_specified (translations : value) (keyPath : string) : value :=
  t_specified_loop keyPath (JsString.split "." keyPath) translations.

End values.

(** ** The document *)

(** The document, with the node that holds its document element. *)
Record Document : Type := {
  docRoot : node
}.

Module Dom.

(** ASCII white space, which separates the tokens of a [class] attribute. *)
Definition isAsciiSpace (c : ascii) : bool :=
  bool_decide (nat_of_ascii c ∈ [9; 10; 12; 13; 32]%nat).

(** The pieces of [s] between white-space characters, empty ones included. *)
Fixpoint pieces (s : string) : list string :=
  match s with
  | EmptyString => [EmptyString]
  | String c rest =>
      if isAsciiSpace c then EmptyString :: pieces rest
      else match pieces rest with
           | [] => [String c EmptyString]
           | w :: ws => String c w :: ws
           end
  end.

(** An ordered set: the first occurrence of each token is kept. *)
Fixpoint orderedSet (l : list string) : list string :=
  match l with
  | [] => []
  | x :: rest => x :: filter (λ y, y ≠ x) (orderedSet rest)
  end.

(** The token set of a [class] attribute value. *)
Definition parseTokens (s : string) : list string :=
  orderedSet (filter (λ w, w ≠ EmptyString) (pieces s)).

Fixpoint serializeTokens (l : list string) : string :=
  match l with
  | [] => EmptyString
  | [x] => x
  | x :: rest => x +:+ " " +:+ serializeTokens rest
  end.

(** [element.classList] *)
Definition classList (attrs : gmap string string) : list string :=
  parseTokens (default EmptyString (attrs !! "class")).

(** [element.classList.contains(token)] *)
Definition hasClass (token : string) (attrs : gmap string string) : bool :=
  bool_decide (token ∈ classList attrs).

(** [element.classList.toggle(token, force)]: the attribute is rewritten
    only when the token set changes. *)
Definition toggleClass (token : string) (force : bool)
    (attrs : gmap string string) : gmap string string :=
  let tokens := classList attrs in
  if bool_decide (token ∈ tokens) then
    if force then attrs
    else <["class" := serializeTokens (filter (λ y, y ≠ token) tokens)]> attrs
  else
    if force then <["class" := serializeTokens (tokens ++ [token])]> attrs
    else attrs.

(** [element.classList.add(token)]: the attribute is rewritten with the
    serialised token set, whether the token was there or not. *)
Definition addClass (token : string) (attrs : gmap string string)
  : gmap string string :=
  let tokens := classList attrs in
  <["class" := serializeTokens
                 (if bool_decide (token ∈ tokens) then tokens
                  else tokens ++ [token])]> attrs.

(** [element.setAttribute(name, value)] in an HTML document: the name is
    checked, then lower-cased. *)
Definition setAttribute (H : Host) (name value : string)
    (attrs : gmap string string) : Completion (gmap string string) :=
  if validAttributeName H name
  then Normal (<[JsString.asciiLowerCase name := value]> attrs)
  else Throw InvalidCharacterError.

(** [element.textContent = s] *)
Definition textContent (s : string) : list node :=
  if JsString.isEmpty s then [] else [Text s].

(** A callback run over a list of nodes in order; an exception stops the
    run and leaves the nodes after it as they were. *)
Definition forEachNode (f : node → node * Completion ())
  : list node → list node * Completion () :=
  fix go (l : list node) :=
    match l with
    | [] => ([], Normal ())
    | n :: rest =>
        match f n with
        | (n', Normal _) => let '(rest', r) := go rest in (n' :: rest', r)
        | (n', Throw e) => (n' :: rest, Throw e)
        end
    end.

(** The first node of a list that a partial update accepts is replaced. *)
Definition updateFirstOf (f : node → option node)
  : list node → option (list node) :=
  fix go (l : list node) :=
    match l with
    | [] => None
    | n :: rest =>
        match f n with
        | Some n' => Some (n' :: rest)
        | None => cons n <$> go rest
        end
    end.

(** The first element, in document order, that satisfies [p] gets its
    attributes rewritten by [f]: [document.querySelector] followed by a
    write to the element found. *)
Fixpoint updateFirstElement (p : string → gmap string string → bool)
    (f : gmap string string → gmap string string) (n : node) : option node :=
  match n with
  | Text _ => None
  | Elem tag attrs children =>
      if p tag attrs then Some (Elem tag (f attrs) children)
      else Elem tag attrs <$> updateFirstOf (updateFirstElement p f) children
  end.

Definition isBody (n : node) : bool :=
  match n with
  | Elem tag _ _ => bool_decide (tag = "body") || bool_decide (tag = "frameset")
  | Text _ => false
  end.

(** A write to the attributes of [document.body], the first [body] or
    [frameset] child of the [html] root; [None] when [document.body] is
    [null]. *)
Definition updateBody (f : gmap string string → gmap string string)
    (rootNode : node) : option node :=
  match rootNode with
  | Elem tag attrs children =>
      if bool_decide (tag = "html") then
        Elem tag attrs <$>
          updateFirstOf (λ n, match n with
                              | Elem tag' attrs' children' =>
                                  if isBody n then Some (Elem tag' (f attrs') children')
                                  else None
                              | Text _ => None
                              end) children
      else None
  | Text _ => None
  end.

(** The attributes of [document.body]. *)
Definition bodyAttributes (rootNode : node) : option (gmap string string) :=
  match rootNode with
  | Elem tag _ children =>
      if bool_decide (tag = "html") then
        n ← find isBody children;
        match n with Elem _ attrs' _ => Some attrs' | Text _ => None end
      else None
  | Text _ => None
  end.

(** The first element, in document order, that satisfies [p] gets its
    children rewritten by [g]. *)
Fixpoint updateFirstContent (p : string → gmap string string → bool)
    (g : list node → list node) (n : node) : option node :=
  match n with
  | Text _ => None
  | Elem tag attrs children =>
      if p tag attrs then Some (Elem tag attrs (g children))
      else Elem tag attrs <$> updateFirstOf (updateFirstContent p g) children
  end.

Definition isTitle (tag : string) (attrs : gmap string string) : bool :=
  bool_decide (tag = "title").

Definition isHead (n : node) : bool :=
  match n with
  | Elem tag _ _ => bool_decide (tag = "head")
  | Text _ => false
  end.

(** The [title] element that the setter of [document.title] makes. *)
Definition titleElement (s : string) : node := Elem "title" ∅ (textContent s).

(** A [title] element is made and appended to [n], when [n] is a [head]
    element. *)
Definition appendToHead (s : string) (n : node) : option node :=
  match n with
  | Elem tag attrs children =>
      if isHead n then Some (Elem tag attrs (children ++ [titleElement s])) else None
  | Text _ => None
  end.

(** A [title] element is made and appended to the head element, the first
    [head] child of the [html] root; nothing happens without one. *)
Definition appendTitle (s : string) (rootNode : node) : node :=
  match rootNode with
  | Elem tag attrs children =>
      if bool_decide (tag = "html") then
        match updateFirstOf (appendToHead s) children with
        | Some children' => Elem tag attrs children'
        | None => rootNode
        end
      else rootNode
  | Text _ => rootNode
  end.

(** [document.title = s]: the content of the title element, the first
    [title] of the document in tree order, becomes the text [s]; when
    the document has no [title], one is made with that text and appended
    to the head element; and when it has no head element either, nothing
    happens. *)
Definition setTitle (s : string) (rootNode : node) : node :=
  match updateFirstContent isTitle (λ _, textContent s) rootNode with
  | Some root' => root'
  | None => appendTitle s rootNode
  end.

(** The attributes of [document.documentElement]. *)
Definition rootAttributes (rootNode : node) : option (gmap string string) :=
  match rootNode with
  | Elem _ attrs _ => Some attrs
  | Text _ => None
  end.

End Dom.

(** ** Rendering: the body of [applyTranslations] on a document *)

Section rendering.
Context (H : Host) (translations : value).

(** [t(key)] for a string key.  The call never throws ([t_never_throws]
    below), so the second branch is dead. *)
Definition translation (key : string) : value :=
  match t H translations key with
  | Normal v => v
  | Throw _ => Undefined
  end.

(** What the first callback writes into an element: markup when the
    translation contains ["<"], text otherwise, nothing when the
    translation is not a string. *)
Definition translatedContent (tag : string) (v : value) : option (list node) :=
  match v with
  | Str s =>
      Some (if JsString.includes "<" s then parseFragment H tag s
            else Dom.textContent s)
  | _ => None
  end.

(** [document.querySelectorAll('[data-i18n]').forEach(...)].  The node
    list is fixed before the loop and is in document order, so an element
    is visited after its ancestors; once the content of an ancestor has
    been replaced the element is no longer in the document, and what the
    callback writes to it is not seen there.  The callback does not touch
    attributes, so the key it reads is the one the document has. *)
Fixpoint translateElement (n : node) : node :=
  match n with
  | Text _ => n
  | Elem tag attrs children =>
      match attrs !! "data-i18n" with
      | Some key =>
          match translatedContent tag (translation key) with
          | Some content => Elem tag attrs content
          | None => Elem tag attrs (map translateElement children)
          end
      | None => Elem tag attrs (map translateElement children)
      end
  end.

(** One ["attr:key"] pair of a [data-i18n-attr] value.  A pair without
    [":"] leaves [key] undefined, and [t(undefined)] throws. *)
Definition translateAttribute (entry : string) (attrs : gmap string string)
  : Completion (gmap string string) :=
  let parts := JsString.trim <$> JsString.split ":" entry in
  let attr := default EmptyString (head parts) in
  match parts !! 1%nat with
  | None => Throw TypeError
  | Some key =>
      match translation key with
      | Str s => Dom.setAttribute H attr s attrs
      | _ => Normal attrs
      end
  end.

(** The pairs of one element, in order; an exception keeps what the pairs
    before it wrote. *)
Fixpoint translatePairs (pairs : list string) (attrs : gmap string string)
  : gmap string string * Completion () :=
  match pairs with
  | [] => (attrs, Normal ())
  | entry :: rest =>
      match translateAttribute entry attrs with
      | Normal attrs' => translatePairs rest attrs'
      | Throw e => (attrs, Throw e)
      end
  end.

(** [document.querySelectorAll('[data-i18n-attr]').forEach(...)], in
    document order.  Only attributes are written, and the value of
    [data-i18n-attr] is read before the pairs of the element run. *)
Fixpoint translateAttributes (n : node) : node * Completion () :=
  match n with
  | Text _ => (n, Normal ())
  | Elem tag attrs children =>
      let '(attrs', r) :=
        match attrs !! "data-i18n-attr" with
        | Some attrData => translatePairs (JsString.split "," attrData) attrs
        | None => (attrs, Normal ())
        end in
      match r with
      | Throw e => (Elem tag attrs' children, Throw e)
      | Normal _ =>
          let '(children', r') := Dom.forEachNode translateAttributes children in
          (Elem tag attrs' children', r')
      end
  end.

(** String conversion at a DOM boundary. *)
Definition toStringValue (v : value) : Completion string :=
  match v with
  | Str s => Normal s
  | _ => toDisplayString H v
  end.

(** [translations.meta && translations.meta.<field>]: the value when it
    is truthy. *)
Definition metaField (field : string) : Completion (option value) :=
  m ← getMember H translations "meta";
  if truthy m then
    v ← getMember H m field;
    mret (if truthy v then Some v else None)
  else mret None.

Definition isMetaDescription (tag : string) (attrs : gmap string string) : bool :=
  bool_decide (tag = "meta") && bool_decide (attrs !! "name" = Some "description").

(** [document.querySelector('meta[name="description"]')] is not [null]. *)
Definition hasMetaDescription (n : node) : bool :=
  bool_decide (is_Some (Dom.updateFirstElement isMetaDescription id n)).

(** [translations.meta && translations.meta.title], as the string that
    the setter of [document.title] gets; [None] when the test fails. *)
Definition titleToWrite : Completion (option string) :=
  match metaField "title" with
  | Throw e => Throw e
  | Normal (Some v) => Some <$> toStringValue v
  | Normal None => Normal None
  end.

(** [translations.meta && translations.meta.description], as the string
    that [setAttribute] gets; [None] when the test fails. *)
Definition descriptionToWrite : Completion (option string) :=
  match metaField "description" with
  | Throw e => Throw e
  | Normal (Some v) => Some <$> toStringValue v
  | Normal None => Normal None
  end.

(** The whole of [applyTranslations]: the document it leaves, and how it
    completes.  The meta description is looked for after the title has
    been set. *)
Definition render (d : Document) : Document * Completion () :=
  let root1 := translateElement (docRoot d) in
  let '(root2, r) := translateAttributes root1 in
  match r with
  | Throw e => ({| docRoot := root2 |}, Throw e)
  | Normal _ =>
      match titleToWrite with
      | Throw e => ({| docRoot := root2 |}, Throw e)
      | Normal title =>
          let root3 :=
            match title with
            | Some s => Dom.setTitle s root2
            | None => root2
            end in
          if hasMetaDescription root3 then
            match descriptionToWrite with
            | Throw e => ({| docRoot := root3 |}, Throw e)
            | Normal (Some content) =>
                ({| docRoot :=
                      default root3
                        (Dom.updateFirstElement isMetaDescription
                           (insert "content" content) root3) |},
                 Normal ())
            | Normal None => ({| docRoot := root3 |}, Normal ())
            end
          else ({| docRoot := root3 |}, Normal ())
      end
  end.

End rendering.

(** ** The module *)

(** [CONFIG] *)
Module CONFIG.
Definition defaultLanguage : string := "en".
Definition supportedLanguages : list string := ["en"; "ar"].
Definition localStorageKey : string := "zodya-language".
Definition translationsPath : string := "./locales/".
Definition rtlLanguages : list string := ["ar"].
End CONFIG.

(** [CONFIG.supportedLanguages.includes(code)] *)
Definition isSupported (code : string) : bool :=
  bool_decide (code ∈ CONFIG.supportedLanguages).

(** What a [fetch] of a URL leads to: a rejected promise, or a response
    with its [ok] flag and the JSON value of its body ([None] when the
    body does not parse). *)
Inductive FetchOutcome : Type :=
| FetchRejected
| FetchResponse (ok : bool) (json : option value).

(** What the page was loaded with.  The network answers the [n]-th
    request of the page as it pleases. *)
Record World : Type := {
  host : Host;
  (** [new URLSearchParams(window.location.search).get('lang')] *)
  queryLang : option string;
  navigatorLanguage : option string;
  navigatorUserLanguage : option string;
  navigatorLanguages : option (list string);
  network : nat → string → FetchOutcome
}.

(** [localStorage]: unusable (every access throws), or a key-value store
    that may have run out of quota. *)
Inductive Storage : Type :=
| StorageUnavailable
| StorageAvailable (full : bool) (items : gmap string string).

(** Events dispatched on [document]. *)
Inductive Event : Type :=
| I18nReady (language : string)
| I18nLanguageChanged (language : string).

(** The three variables of the module, and the parts of the browser it
    changes.  Of the console only the error channel is kept
    ([console.error]); warnings and plain log lines leave no trace. *)
Record State : Type := {
  currentLanguage : string;
  translations : value;
  isInitialized : bool;
  storage : Storage;
  document : Document;
  dispatched : list Event;
  requests : list string;
  consoleErrors : list (string * option Exn)
}.

Definition setCurrentLanguage (lang : string) (st : State) : State :=
  {| currentLanguage := lang; translations := translations st;
     isInitialized := isInitialized st; storage := storage st;
     document := document st; dispatched := dispatched st;
     requests := requests st; consoleErrors := consoleErrors st |}.

Definition setTranslations (v : value) (st : State) : State :=
  {| currentLanguage := currentLanguage st; translations := v;
     isInitialized := isInitialized st; storage := storage st;
     document := document st; dispatched := dispatched st;
     requests := requests st; consoleErrors := consoleErrors st |}.

Definition setIsInitialized (b : bool) (st : State) : State :=
  {| currentLanguage := currentLanguage st; translations := translations st;
     isInitialized := b; storage := storage st;
     document := document st; dispatched := dispatched st;
     requests := requests st; consoleErrors := consoleErrors st |}.

Definition setStorage (s : Storage) (st : State) : State :=
  {| currentLanguage := currentLanguage st; translations := translations st;
     isInitialized := isInitialized st; storage := s;
     document := document st; dispatched := dispatched st;
     requests := requests st; consoleErrors := consoleErrors st |}.

Definition setDocument (d : Document) (st : State) : State :=
  {| currentLanguage := currentLanguage st; translations := translations st;
     isInitialized := isInitialized st; storage := storage st;
     document := d; dispatched := dispatched st;
     requests := requests st; consoleErrors := consoleErrors st |}.

Definition setRoot (n : node) (st : State) : State :=
  setDocument {| docRoot := n |} st.

Definition addEvent (e : Event) (st : State) : State :=
  {| currentLanguage := currentLanguage st; translations := translations st;
     isInitialized := isInitialized st; storage := storage st;
     document := document st; dispatched := dispatched st ++ [e];
     requests := requests st; consoleErrors := consoleErrors st |}.

Definition addRequest (url : string) (st : State) : State :=
  {| currentLanguage := currentLanguage st; translations := translations st;
     isInitialized := isInitialized st; storage := storage st;
     document := document st; dispatched := dispatched st;
     requests := requests st ++ [url]; consoleErrors := consoleErrors st |}.

Definition addConsoleError (msg : string) (detail : option Exn) (st : State)
  : State :=
  {| currentLanguage := currentLanguage st; translations := translations st;
     isInitialized := isInitialized st; storage := storage st;
     document := document st; dispatched := dispatched st;
     requests := requests st;
     consoleErrors := consoleErrors st ++ [(msg, detail)] |}.

(** The state when the script has been evaluated and nothing has run. *)
Definition initialState (d : Document) (s : Storage) : State :=
  {| currentLanguage := CONFIG.defaultLanguage; translations := Obj ∅;
     isInitialized := false; storage := s; document := d;
     dispatched := []; requests := []; consoleErrors := [] |}.

(** *** Code that changes the state and may throw *)

Definition M (A : Type) : Type := State → Completion A * State.

#[export] Instance M_ret : MRet M := λ A a st, (Normal a, st).
#[export] Instance M_bind : MBind M := λ A B f m st,
  match m st with
  | (Normal a, st') => f a st'
  | (Throw e, st') => (Throw e, st')
  end.

(** [try { body } catch (e) { handler }] *)
Definition tryCatch {A} (body : M A) (handler : Exn → M A) : M A := λ st,
  match body st with
  | (Normal a, st') => (Normal a, st')
  | (Throw e, st') => handler e st'
  end.

Definition throw {A} (e : Exn) : M A := λ st, (Throw e, st).
Definition get {A} (f : State → A) : M A := λ st, (Normal (f st), st).
Definition modify (f : State → State) : M () := λ st, (Normal (), f st).

Section module.
Context (W : World).

(** [localStorage.getItem(key)]; [None] is [null]. *)
Definition getItem (key : string) : M (option string) := λ st,
  match storage st with
  | StorageUnavailable => (Throw SecurityError, st)
  | StorageAvailable _ items => (Normal (items !! key), st)
  end.

(** [localStorage.setItem(key, value)] *)
Definition setItem (key value : string) : M () := λ st,
  match storage st with
  | StorageUnavailable => (Throw SecurityError, st)
  | StorageAvailable true _ => (Throw QuotaExceededError, st)
  | StorageAvailable false items =>
      (Normal (), setStorage (StorageAvailable false (<[key := value]> items)) st)
  end.

(** [await fetch(url)]: the request is issued, and the promise settles as
    the network decides. *)
Definition fetch (url : string) : M (bool * option value) := λ st,
  match network W (length (requests st)) url with
  | FetchRejected => (Throw NetworkError, addRequest url st)
  | FetchResponse ok json => (Normal (ok, json), addRequest url st)
  end.

(** [await response.json()] *)
Definition responseJson (response : bool * option value) : M value :=
  match response.2 with
  | Some v => mret v
  | None => throw SyntaxError
  end.

(** A string-or-null that is truthy and a supported code. *)
Definition supportedOrNull (lang : option string) : option string :=
  match lang with
  | Some code => if negb (JsString.isEmpty code) && isSupported code then Some code else None
  | None => None
  end.

(** [getUrlLanguage()] *)
Definition getUrlLanguage : M (option string) :=
  let lang := queryLang W in
  mret (supportedOrNull lang).

(** [getStoredLanguage()] *)
Definition getStoredLanguage : M (option string) :=
  tryCatch
    (stored ← getItem CONFIG.localStorageKey;
     mret (supportedOrNull stored))
    (λ _, mret None).

(** [a || b] on strings that may be [undefined] *)
Definition orString (a b : option string) : option string :=
  match a with
  | Some s => if JsString.isEmpty s then b else a
  | None => b
  end.

(** [lang.split('-')[0].toLowerCase()] *)
Definition languageSubtag (lang : string) : string :=
  JsString.toLowerCase (default EmptyString (head (JsString.split "-" lang))).

(** [detectBrowserLanguage()] *)
Definition detectBrowserLanguage : M (option string) :=
  let browserLang := orString (navigatorLanguage W) (navigatorUserLanguage W) in
  let exact :=
    match browserLang with
    | Some lang =>
        if JsString.isEmpty lang then None
        else
          let langCode := languageSubtag lang in
          if isSupported langCode then Some langCode else None
    | None => None
    end in
  match exact with
  | Some langCode => mret (Some langCode)
  | None =>
      match navigatorLanguages W with
      | Some languages => mret (find isSupported (languageSubtag <$> languages))
      | None => mret None
      end
  end.

(** [a || b] on calls that return a string or [null]: [b] runs only when
    [a] returned a falsy value. *)
Definition orElse (a b : M (option string)) : M (option string) :=
  x ← a;
  match x with
  | Some s => if JsString.isEmpty s then b else mret (Some s)
  | None => b
  end.

(** The expression that [init] assigns to [currentLanguage]:
    [getUrlLanguage() || getStoredLanguage() || detectBrowserLanguage()
     || CONFIG.defaultLanguage]. *)
Definition resolveLanguage : M string :=
  x ← orElse (orElse getUrlLanguage getStoredLanguage) detectBrowserLanguage;
  mret (match x with
        | Some s => if JsString.isEmpty s then CONFIG.defaultLanguage else s
        | None => CONFIG.defaultLanguage
        end).

(** The path of the dataset of a language. *)
Definition localePath (lang : string) : string :=
  "./locales/" +:+ lang +:+ ".json".

(** The [try] block of [loadTranslations]. *)
Definition fetchTranslations (lang : string) : M () :=
  response ← fetch (localePath lang);
  if negb response.1 then throw (LoadError (lang +:+ ".json"))
  else
    v ← responseJson response;
    modify (setTranslations v).

(** [loadTranslations(lang)].  The call in the [catch] block is for the
    default language, for which the block makes no further call. *)
Equations? loadTranslations (lang : string) (st : State) : Completion () * State
  by wf (if bool_decide (lang = CONFIG.defaultLanguage) then 0 else 1)%nat lt :=
loadTranslations lang st with fetchTranslations lang st := {
  | (Normal _, st1) => (Normal (), st1)
  | (Throw error, st1) with decide (lang = CONFIG.defaultLanguage) := {
      | left _ =>
          (Normal (), addConsoleError "Failed to load translations:" (Some error) st1)
      | right _ =>
          loadTranslations CONFIG.defaultLanguage
            (addConsoleError "Failed to load translations:" (Some error) st1) } }.
Proof.
  rewrite (bool_decide_eq_false_2 (lang = CONFIG.defaultLanguage)) by assumption.
  lia.
Defined.

(** [applyTranslations()] *)
Definition applyTranslations : M () := λ st,
  let '(d, r) := render (host W) (translations st) (document st) in
  (r, setDocument d st).

(** [CONFIG.rtlLanguages.includes(code)] *)
Definition isRtlLanguage (code : string) : bool :=
  bool_decide (code ∈ CONFIG.rtlLanguages).

(** [updateDocumentAttributes()] *)
Definition updateDocumentAttributes : M () := λ st,
  let isRTL := isRtlLanguage (currentLanguage st) in
  match docRoot (document st) with
  | Text _ => (Throw TypeError, st)
  | Elem tag attrs children =>
      let root1 :=
        Elem tag
          (<["dir" := if isRTL then "rtl" else "ltr"]>
             (<["lang" := currentLanguage st]> attrs))
          children in
      match Dom.updateBody
              (λ a, Dom.toggleClass "ltr" (negb isRTL) (Dom.toggleClass "rtl" isRTL a))
              root1 with
      | Some root2 => (Normal (), setRoot root2 st)
      | None => (Throw TypeError, setRoot root1 st)
      end
  end.

(** The callback of [updateLanguageSelectorUI] on one element. *)
Definition markButton (current : string) (attrs : gmap string string)
  : gmap string string :=
  match attrs !! "data-lang" with
  | Some lang =>
      let isActive := bool_decide (lang = current) in
      <["aria-current" := if isActive then "true" else "false"]>
        (Dom.toggleClass "active" isActive attrs)
  | None => attrs
  end.

(** [selector.querySelectorAll('[data-lang]').forEach(...)] on a
    descendant of the selector. *)
Fixpoint markButtons (current : string) (n : node) : node :=
  match n with
  | Text _ => n
  | Elem tag attrs children =>
      Elem tag (markButton current attrs) (map (markButtons current) children)
  end.

(** [document.getElementById('language-selector')], and the loop on the
    element found; [None] when there is no such element. *)
Fixpoint updateSelector (current : string) (n : node) : option node :=
  match n with
  | Text _ => None
  | Elem tag attrs children =>
      if bool_decide (attrs !! "id" = Some "language-selector")
      then Some (Elem tag attrs (map (markButtons current) children))
      else Elem tag attrs <$> Dom.updateFirstOf (updateSelector current) children
  end.

(** [updateLanguageSelectorUI()] *)
Definition updateLanguageSelectorUI : M () := λ st,
  match updateSelector (currentLanguage st) (docRoot (document st)) with
  | Some root' => (Normal (), setRoot root' st)
  | None => (Normal (), st)
  end.

(** [setupLanguageSelector()].  The click listeners it installs call
    [setLanguage] with the button's [data-lang]; in the model a click is
    a call of [setLanguage]. *)
Definition setupLanguageSelector : M () := updateLanguageSelectorUI.

(** [document.body.classList.add(token)] *)
Definition bodyClassListAdd (token : string) : M () := λ st,
  match Dom.updateBody (Dom.addClass token) (docRoot (document st)) with
  | Some root' => (Normal (), setRoot root' st)
  | None => (Throw TypeError, st)
  end.

(** [init()], as a whole call: from the call to its end, with nothing
    run at the [await].  The call cut at its [await]s is [callInit] and
    [resume], below. *)
Definition init : M () :=
  initialized ← get isInitialized;
  if (initialized : bool) then mret ()
  else
    lang ← resolveLanguage;
    modify (setCurrentLanguage lang);;
    current ← get currentLanguage;
    loadTranslations current;;
    applyTranslations;;
    updateDocumentAttributes;;
    setupLanguageSelector;;
    modify (setIsInitialized true);;
    bodyClassListAdd "i18n-ready";;
    current' ← get currentLanguage;
    modify (addEvent (I18nReady current')).

(** [setLanguage(lang)], as a whole call: from the call to its end,
    with nothing run at the [await].  The call cut at its [await]s is
    [callSetLanguage] and [resume], below. *)
Definition setLanguage (lang : string) : M () :=
  if negb (isSupported lang)
  then modify (addConsoleError ("Unsupported language: " +:+ lang) None)
  else
    current ← get currentLanguage;
    if bool_decide (lang = current) then mret ()
    else
      modify (setCurrentLanguage lang);;
      tryCatch (setItem CONFIG.localStorageKey lang) (λ _, mret ());;
      loadTranslations lang;;
      applyTranslations;;
      updateDocumentAttributes;;
      updateLanguageSelectorUI;;
      modify (addEvent (I18nLanguageChanged lang)).

(** [getCurrentLanguage()] *)
Definition getCurrentLanguage : M string := get currentLanguage.

(** [isRTL()] *)
Definition isRTL : M bool :=
  current ← get currentLanguage;
  mret (isRtlLanguage current).

(** *** Reachable states

    What the page can bring the module to by whole calls: it starts with
    the variables at their initial values, [init] and [setLanguage] run
    (the latter with any string, from a button or from another script),
    each from the call to its end, and between calls the rest of the
    page may change the document and the storage.  The states of calls
    that overlap are those of [run], below. *)
Inductive reachable : State → Prop :=
| reachable_start d s : reachable (initialState d s)
| reachable_init st : reachable st → reachable (init st).2
| reachable_setLanguage lang st :
    reachable st → reachable (setLanguage lang st).2
| reachable_page d s st :
    reachable st → reachable (setStorage s (setDocument d st)).

(** The dataset [v] is one that the network serves for the language. *)
Definition servedFor (lang : string) (v : value) : Prop :=
  ∃ n, network W n (localePath lang) = FetchResponse true (Some v).

End module.

(** ** The page script

    The second script of the page drives the visual effects.  Three of
    its functions are embedded here: [toggleMobileMenu], which works on
    the document, and the two rate limiters [debounce] and [throttle],
    which work with timers.  A limiter is modelled by the variables its
    closure holds, together with the timers it has set and the calls of
    the wrapped function [func] it has made.  Time is not measured: a
    pending timer fires at some later moment, and what holds of every
    sequence of calls and expiries holds of the timed ones.  [func] is
    taken not to call the limited function itself. *)

Module Page.

(** [element.classList.toggle(token)] without a [force] argument: the
    token is removed when it is there, and added when it is not. *)
Definition toggle (token : string) (attrs : gmap string string)
  : gmap string string :=
  let tokens := Dom.classList attrs in
  if bool_decide (token ∈ tokens)
  then <["class" := Dom.serializeTokens (filter (λ y, y ≠ token) tokens)]> attrs
  else <["class" := Dom.serializeTokens (tokens ++ [token])]> attrs.

(** The selector [.nav-menu], in a document that is not in quirks mode
    (class names are compared as they are written). *)
Definition isNavMenu (tag : string) (attrs : gmap string string) : bool :=
  Dom.hasClass "nav-menu" attrs.

(** [toggleMobileMenu()] *)
Definition toggleMobileMenu (rootNode : node) : node :=
  match Dom.updateFirstElement isNavMenu (toggle "active") rootNode with
  | Some root' => root'
  | None => rootNode
  end.

Section limiters.
Context {Args : Type}.

(** [clearTimeout(id)] on the pending timers; [None] is an [undefined]
    identifier, which clears nothing, as does the identifier of a timer
    that has fired. *)
Definition clearTimeout {T} (id : option nat) (timers : gmap nat T) : gmap nat T :=
  match id with
  | Some i => delete i timers
  | None => timers
  end.

(** What [debounce(func, wait)] returns, as the state it closes over:
    the variable [timeout], the pending timers it has set, each with the
    [args] its callback [later] holds, the identifier the next
    [setTimeout] hands out, and the argument lists [func] has been
    called with. *)
Record Debounced : Type := {
  timeout : option nat;
  debounceTimers : gmap nat Args;
  debounceNext : nat;
  debounceCalls : list Args
}.

(** The state when [debounce] returns. *)
Definition debounce : Debounced :=
  {| timeout := None; debounceTimers := ∅; debounceNext := 0; debounceCalls := [] |}.

(** [executedFunction(...args)] *)
Definition executedFunction (args : Args) (s : Debounced) : Debounced :=
  let timers := clearTimeout (timeout s) (debounceTimers s) in
  {| timeout := Some (debounceNext s);
     debounceTimers := <[debounceNext s := args]> timers;
     debounceNext := S (debounceNext s);
     debounceCalls := debounceCalls s |}.

(** The timer [id] fires and its callback [later] runs; nothing happens
    when no such timer is pending. *)
Definition later (id : nat) (s : Debounced) : Debounced :=
  match debounceTimers s !! id with
  | None => s
  | Some args =>
      {| timeout := timeout s;
         debounceTimers := clearTimeout (timeout s) (delete id (debounceTimers s));
         debounceNext := debounceNext s;
         debounceCalls := debounceCalls s ++ [args] |}
  end.

(** What [throttle(func, limit)] returns, as the state it closes over:
    the variable [inThrottle] ([undefined] counts as [false]), the
    pending timers, the next timer identifier, and the calls of [func]
    with the way each completed. *)
Record Throttled : Type := {
  inThrottle : bool;
  throttleTimers : gset nat;
  throttleNext : nat;
  throttleCalls : list (Args * Completion ())
}.

(** The state when [throttle] returns. *)
Definition throttle : Throttled :=
  {| inThrottle := false; throttleTimers := ∅; throttleNext := 0;
     throttleCalls := [] |}.

(** A call of the throttled function; [outcome] is how [func] completes
    when it is called now.  An exception of [func] leaves the function
    before [inThrottle] is set. *)
Definition throttled (args : Args) (outcome : Completion ()) (s : Throttled)
  : Completion () * Throttled :=
  if inThrottle s then (Normal (), s)
  else
    match outcome with
    | Throw e =>
        (Throw e,
         {| inThrottle := inThrottle s; throttleTimers := throttleTimers s;
            throttleNext := throttleNext s;
            throttleCalls := throttleCalls s ++ [(args, outcome)] |})
    | Normal _ =>
        (Normal (),
         {| inThrottle := true;
            throttleTimers := {[throttleNext s]} ∪ throttleTimers s;
            throttleNext := S (throttleNext s);
            throttleCalls := throttleCalls s ++ [(args, outcome)] |})
    end.

(** The timer [id] fires: [inThrottle = false]. *)
Definition release (id : nat) (s : Throttled) : Throttled :=
  if bool_decide (id ∈ throttleTimers s) then
    {| inThrottle := false; throttleTimers := throttleTimers s ∖ {[id]};
       throttleNext := throttleNext s; throttleCalls := throttleCalls s |}
  else s.

(** What happens to a limited function: it is called, or a timer fires. *)
Inductive Activity : Type :=
| Called (args : Args) (outcome : Completion ())
| Expired (id : nat).

Definition debounceStep (s : Debounced) (a : Activity) : Debounced :=
  match a with
  | Called args _ => executedFunction args s
  | Expired id => later id s
  end.

Definition throttleStep (s : Throttled) (a : Activity) : Throttled :=
  match a with
  | Called args outcome => (throttled args outcome s).2
  | Expired id => release id s
  end.

(** The state of a limiter after a history, oldest activity first. *)
Definition debounceRun (history : list Activity) : Debounced :=
  foldl debounceStep debounce history.

Definition throttleRun (history : list Activity) : Throttled :=
  foldl throttleStep throttle history.

End limiters.

Arguments Debounced : clear implicits.
Arguments Throttled : clear implicits.
Arguments Activity : clear implicits.

End Page.

(** ** A host, datasets, pages and worlds for the examples *)

Module Example.

Definition objectPrototypeNames : list string :=
  ["constructor"; "hasOwnProperty"; "isPrototypeOf"; "propertyIsEnumerable";
   "toLocaleString"; "toString"; "valueOf"].

(** A host where every value inherits the methods of [Object.prototype]
    (one function object stands for all of them), with a fragment parser
    that knows no tag. *)
Definition engine : Host :=
  {| inherited := λ _ k,
       if bool_decide (k ∈ objectPrototypeNames) then Some (HostObject 0) else None;
     hostIsFunction := λ _, true;
     hostProperty := λ _ _, None;
     toDisplayString := λ _, Normal "[object Object]";
     parseFragment := λ _ s, [Text s];
     validAttributeName := λ s, negb (JsString.isEmpty s) |}.

Definition english : value :=
  Obj {[ "meta" := Obj {[ "title" := Str "Zodya";
                          "description" := Str "Tarot readings" ]};
         "nav" := Obj {[ "home" := Str "Home" ]} ]}.

Definition arabic : value :=
  Obj {[ "meta" := Obj {[ "title" := Str "Zodya (ar)";
                          "description" := Str "Tarot (ar)" ]};
         "nav" := Obj {[ "home" := Str "Home (ar)" ]} ]}.

(** A world with a query parameter and a set of files on the server;
    any other URL is answered with an error status. *)
Definition world (query : option string) (files : gmap string value) : World :=
  {| host := engine;
     queryLang := query;
     navigatorLanguage := Some "en-US";
     navigatorUserLanguage := None;
     navigatorLanguages := Some ["en-US"; "ar"];
     network := λ _ url,
       match files !! url with
       | Some v => FetchResponse true (Some v)
       | None => FetchResponse false None
       end |}.

Definition bothFiles : gmap string value :=
  {[ "./locales/en.json" := english; "./locales/ar.json" := arabic ]}.

Definition arabicFile : gmap string value := {[ "./locales/ar.json" := arabic ]}.

Definition englishFile : gmap string value := {[ "./locales/en.json" := english ]}.

Definition page : Document :=
  {| docRoot :=
       Elem "html" {[ "lang" := "en" ]}
         [Elem "head" ∅
            [Elem "title" ∅ [Text "Zodya Tarot"];
             Elem "meta" {[ "name" := "description"; "content" := "" ]} []];
          Elem "body" ∅
            [Elem "div" {[ "id" := "language-selector" ]}
               [Elem "button" {[ "data-lang" := "en" ]} [Text "EN"];
                Elem "button" {[ "data-lang" := "ar" ]} [Text "AR"]];
             Elem "h1" {[ "data-i18n" := "nav.home" ]} [Text "..."];
             Elem "a" {[ "data-i18n-attr" := "title:nav.home" ]} [Text "#"]]] |}.

(** A page with an attribute map that writes the key marker itself. *)
Definition rewritingPage : Document :=
  {| docRoot :=
       Elem "html" ∅
         [Elem "head" ∅ [Elem "title" ∅ [Text "Zodya Tarot"]];
          Elem "body" ∅
            [Elem "p" {[ "data-i18n-attr" := "data-i18n:nav.home" ]}
               [Text "Welcome"]]] |}.

Definition emptyStorage : Storage := StorageAvailable false ∅.

(** The module as the script leaves it on [page]. *)
Definition start : State := initialState page emptyStorage.

(** Both datasets are on the server, and the query string names none. *)
Definition online : World := world None bothFiles.

(** The query string asks for Arabic, and only the Arabic dataset can be
    fetched. *)
Definition arabicOnly : World := world (Some "ar") arabicFile.

(** Only the English dataset can be fetched. *)
Definition englishOnly : World := world None englishFile.

(** A browser that says nothing about languages. *)
Definition silent : World :=
  {| host := engine;
     queryLang := None;
     navigatorLanguage := None;
     navigatorUserLanguage := None;
     navigatorLanguages := None;
     network := λ _ _, FetchRejected |}.

(** [rewritingPage] with the English dataset in memory. *)
Definition rewritingState : State :=
  setTranslations english (initialState rewritingPage emptyStorage).

(** Arabic was loaded at start-up, then English was asked for and could
    not be fetched. *)
Definition afterFailedSwitch : State :=
  (setLanguage arabicOnly "en" (init arabicOnly start).2).2.

(** A page without a body. *)
Definition bodyless : Document :=
  {| docRoot := Elem "html" ∅ [Elem "head" ∅ []] |}.

(** A page that rendering has nothing to do on. *)
Definition plainPage : Document :=
  {| docRoot :=
       Elem "html" ∅
         [Elem "head" ∅ [];
          Elem "body" ∅
            [Elem "nav" {[ "class" := "nav-menu" ]} [Text "Menu"];
             Elem "p" ∅ [Text "Welcome"]]] |}.

(** The Arabic file holds the JSON value [null]. *)
Definition nullFile : gmap string value :=
  {[ "./locales/en.json" := english; "./locales/ar.json" := Null ]}.

Definition nullArabic : World := world None nullFile.

(** The module on [page] in a browser that refuses access to the storage. *)
Definition withoutStorage : State := initialState page StorageUnavailable.

End Example.

(** * The vocabulary of the properties

    What the statements below speak of, beside the functions of the
    module: the sources of language resolution, the outcome of a load,
    frames, class tokens, and the attribute maps that rendering reads. *)

(** ** Language resolution *)

(** A source that yields no supported code. *)
Definition noSupported (c : option string) : Prop :=
  ∀ q, c = Some q → q ∉ CONFIG.supportedLanguages.

(** The stored preference, when the storage can be read and has one. *)
Definition storedPreference (s : Storage) : option string :=
  match s with
  | StorageAvailable _ items => items !! CONFIG.localStorageKey
  | StorageUnavailable => None
  end.

(** The primary locale of the browser. *)
Definition primaryLocale (W : World) : option string :=
  orString (navigatorLanguage W) (navigatorUserLanguage W).

Section resolution_vocabulary.
Context (W : World).

(** What [detectBrowserLanguage] returns, as a function of the navigator. *)
Definition detected : option string :=
  match supportedOrNull (languageSubtag <$> primaryLocale W) with
  | Some c => Some c
  | None =>
      match navigatorLanguages W with
      | Some languages => find isSupported (languageSubtag <$> languages)
      | None => None
      end
  end.

(** The code the [||] chain of [init] yields. *)
Definition resolved (st : State) : string :=
  match supportedOrNull (queryLang W) with
  | Some c => c
  | None =>
      match supportedOrNull (storedPreference (storage st)) with
      | Some c => c
      | None => default CONFIG.defaultLanguage detected
      end
  end.

End resolution_vocabulary.

(** ** Loads, frames and reachable states *)

(** A fetch that fails: the promise is rejected, the status is not a
    success, or the body does not parse. *)
Definition loadFailure (o : FetchOutcome) : Prop :=
  match o with
  | FetchRejected => True
  | FetchResponse ok json => ok = false ∨ json = None
  end.

(** The state after the [console.error] of the [catch] block. *)
Definition reportLoadFailure (error : Exn) (st : State) : State :=
  addConsoleError "Failed to load translations:" (Some error) st.

(** A computation keeps a relation between the state it starts from and
    the state it leaves, however it completes. *)
Definition keeps {A} (R : relation State) (m : M A) : Prop :=
  ∀ st, R st (m st).2.

(** The active language, the dataset and the request log are the same. *)
Definition sameModule : relation State := λ st st',
  currentLanguage st' = currentLanguage st ∧
  translations st' = translations st ∧
  requests st' = requests st.

Section module_vocabulary.
Context (W : World).

(** Everything [setLanguage] does after the load. *)
Definition afterLoad (lang : string) : M () :=
  applyTranslations W;;
  updateDocumentAttributes;;
  updateLanguageSelectorUI;;
  modify (addEvent (I18nLanguageChanged lang)).

(** Everything [init] does after the load. *)
Definition afterLoadInit : M () :=
  applyTranslations W;;
  updateDocumentAttributes;;
  setupLanguageSelector;;
  modify (setIsInitialized true);;
  bodyClassListAdd "i18n-ready";;
  current' ← get currentLanguage;
  modify (addEvent (I18nReady current')).

(** What the state is after [loadTranslations], by the answers of the
    network to the request for the code and to the one for the default. *)
Inductive loaded (lang : string) (st : State) : State → Prop :=
| loaded_requested v :
    network W (length (requests st)) (localePath lang) = FetchResponse true (Some v) →
    loaded lang st (setTranslations v (addRequest (localePath lang) st))
| loaded_nothing error :
    loadFailure (network W (length (requests st)) (localePath lang)) →
    lang = CONFIG.defaultLanguage →
    loaded lang st (reportLoadFailure error (addRequest (localePath lang) st))
| loaded_fallback error v :
    loadFailure (network W (length (requests st)) (localePath lang)) →
    lang ≠ CONFIG.defaultLanguage →
    network W (S (length (requests st))) (localePath CONFIG.defaultLanguage)
    = FetchResponse true (Some v) →
    loaded lang st
      (setTranslations v
         (addRequest (localePath CONFIG.defaultLanguage)
            (reportLoadFailure error (addRequest (localePath lang) st))))
| loaded_nothing_twice error error' :
    loadFailure (network W (length (requests st)) (localePath lang)) →
    lang ≠ CONFIG.defaultLanguage →
    loadFailure (network W (S (length (requests st)))
                   (localePath CONFIG.defaultLanguage)) →
    loaded lang st
      (reportLoadFailure error'
         (addRequest (localePath CONFIG.defaultLanguage)
            (reportLoadFailure error (addRequest (localePath lang) st)))).

(** The dataset in memory is the empty one the module starts with, or
    one that the network serves for a supported language. *)
Definition knownDataset (v : value) : Prop :=
  v = Obj ∅ ∨ ∃ lang, lang ∈ CONFIG.supportedLanguages ∧ servedFor W lang v.

(** What holds of the two variables in every reachable state. *)
Definition moduleInvariant (st : State) : Prop :=
  currentLanguage st ∈ CONFIG.supportedLanguages ∧
  knownDataset (translations st).

End module_vocabulary.

(** The dataset after a load that started with [before] in memory and
    with [n] requests issued: the dataset of the requested code when its
    fetch succeeded; the dataset of the default code when the requested
    code is another one, its fetch failed and the fetch for the default
    succeeded; and [before] when no fetch succeeded. *)
Definition datasetAfterLoad (W : World) (lang : string) (n : nat)
    (before after : value) : Prop :=
  (∀ v, network W n (localePath lang) = FetchResponse true (Some v) → after = v) ∧
  (loadFailure (network W n (localePath lang)) →
   lang ≠ CONFIG.defaultLanguage →
   ∀ v, network W (S n) (localePath CONFIG.defaultLanguage)
        = FetchResponse true (Some v) → after = v) ∧
  (loadFailure (network W n (localePath lang)) →
   lang = CONFIG.defaultLanguage ∨
   loadFailure (network W (S n) (localePath CONFIG.defaultLanguage)) →
   after = before).

(** The dataset in memory belongs to the active language or to the
    default one (the empty dataset of a module that has loaded nothing is
    let through). *)
Definition datasetOfActiveOrDefault (W : World) (st : State) : Prop :=
  translations st = Obj ∅ ∨
  servedFor W (currentLanguage st) (translations st) ∨
  servedFor W CONFIG.defaultLanguage (translations st).

(** ** Calls that overlap

    [init], [setLanguage] and [loadTranslations] are [async] functions:
    a call runs to its first [await] and is suspended there, and what
    follows the [await] runs later, when the promise has settled.  In
    between the browser runs whatever else is ready: another call of
    [init] or [setLanguage] (a click on a language button calls
    [setLanguage] and does not wait for it), what follows an [await] of
    another call, and the rest of the page. *)

(** The function that awaits [loadTranslations]. *)
Inductive Caller : Type :=
| CallerInit
| CallerSetLanguage (lang : string).

(** A suspended call, by the [await] it is at: [await fetch(...)] in
    [loadTranslations(lang)], for the [n]-th request of the page;
    [await response.json()] in [loadTranslations(lang)], on a response
    with that body; [await loadTranslations(...)] in the caller. *)
Inductive Pending : Type :=
| AwaitFetch (caller : Caller) (lang : string) (n : nat)
| AwaitJson (caller : Caller) (lang : string) (json : option value)
| AwaitLoad (caller : Caller).

(** How a call goes on: it is suspended again, or it has come to its
    end. *)
Inductive Resumed : Type :=
| Suspended (p : Pending)
| Settled (r : Completion ()).

Section overlap.
Context (W : World).

(** [fetch(...)] in [loadTranslations(lang)]: the request is issued and
    the call is suspended. *)
Definition issueFetch (caller : Caller) (lang : string) (st : State)
  : State * Resumed :=
  (addRequest (localePath lang) st,
   Suspended (AwaitFetch caller lang (length (requests st)))).

(** The [catch] block of [loadTranslations(lang)]. *)
Definition catchLoad (caller : Caller) (lang : string) (error : Exn) (st : State)
  : State * Resumed :=
  let st1 := reportLoadFailure error st in
  if decide (lang = CONFIG.defaultLanguage) then (st1, Suspended (AwaitLoad caller))
  else issueFetch caller CONFIG.defaultLanguage st1.

(** What follows an [await], up to the next one. *)
Definition resume (p : Pending) (st : State) : State * Resumed :=
  match p with
  | AwaitFetch caller lang n =>
      match network W n (localePath lang) with
      | FetchRejected => catchLoad caller lang NetworkError st
      | FetchResponse ok json =>
          if negb ok then catchLoad caller lang (LoadError (lang +:+ ".json")) st
          else (st, Suspended (AwaitJson caller lang json))
      end
  | AwaitJson caller lang json =>
      match json with
      | Some v => (setTranslations v st, Suspended (AwaitLoad caller))
      | None => catchLoad caller lang SyntaxError st
      end
  | AwaitLoad CallerInit =>
      let '(r, st') := afterLoadInit W st in (st', Settled r)
  | AwaitLoad (CallerSetLanguage lang) =>
      let '(r, st') := afterLoad W lang st in (st', Settled r)
  end.

(** [init()], up to its [await]. *)
Definition callInit (st : State) : State * Resumed :=
  if isInitialized st then (st, Settled (Normal ()))
  else
    match resolveLanguage W st with
    | (Normal lang, st1) =>
        let st2 := setCurrentLanguage lang st1 in
        issueFetch CallerInit (currentLanguage st2) st2
    | (Throw e, st1) => (st1, Settled (Throw e))
    end.

(** [setLanguage(lang)], up to its [await]. *)
Definition callSetLanguage (lang : string) (st : State) : State * Resumed :=
  if negb (isSupported lang)
  then (addConsoleError ("Unsupported language: " +:+ lang) None st,
        Settled (Normal ()))
  else if bool_decide (lang = currentLanguage st) then (st, Settled (Normal ()))
  else
    match tryCatch (setItem CONFIG.localStorageKey lang) (λ _, mret ())
            (setCurrentLanguage lang st) with
    | (Normal _, st2) => issueFetch (CallerSetLanguage lang) lang st2
    | (Throw e, st2) => (st2, Settled (Throw e))
    end.

(** A call that nothing else runs in between: it is resumed until it
    has come to its end. *)
Fixpoint undisturbed (fuel : nat) (st : State) (r : Resumed) : State * Resumed :=
  match fuel, r with
  | S k, Suspended p => let '(st', r') := resume p st in undisturbed k st' r'
  | _, _ => (st, r)
  end.

(** The page at some moment: the state, and the calls that are
    suspended. *)
Record Running : Type := { now : State; suspended : list Pending }.

(** What the browser runs next: a call of [init], a call of
    [setLanguage], what follows the [await] of the [i]-th suspended call,
    or some other code of the page, which may change the document and
    the storage. *)
Inductive Turn : Type :=
| TurnInit
| TurnSetLanguage (lang : string)
| TurnResume (i : nat)
| TurnPage (d : Document) (s : Storage).

Definition called (x : State * Resumed) (others : list Pending) : Running :=
  match x.2 with
  | Suspended p => {| now := x.1; suspended := others ++ [p] |}
  | Settled _ => {| now := x.1; suspended := others |}
  end.

Definition resumed (i : nat) (x : State * Resumed) (all : list Pending) : Running :=
  match x.2 with
  | Suspended p => {| now := x.1; suspended := <[i := p]> all |}
  | Settled _ => {| now := x.1; suspended := delete i all |}
  end.

Definition turn (c : Running) (t : Turn) : Running :=
  match t with
  | TurnInit => called (callInit (now c)) (suspended c)
  | TurnSetLanguage lang => called (callSetLanguage lang (now c)) (suspended c)
  | TurnResume i =>
      match suspended c !! i with
      | Some p => resumed i (resume p (now c)) (suspended c)
      | None => c
      end
  | TurnPage d s =>
      {| now := setStorage s (setDocument d (now c)); suspended := suspended c |}
  end.

(** The page after a list of turns, from the state in which the script
    has been evaluated and nothing has run. *)
Definition run (d : Document) (s : Storage) (turns : list Turn) : Running :=
  foldl turn {| now := initialState d s; suspended := [] |} turns.

(** A suspended call that loads the dataset of a supported language, with
    a body that the network serves for it. *)
Definition pendingSupported (p : Pending) : Prop :=
  match p with
  | AwaitFetch _ lang _ => lang ∈ CONFIG.supportedLanguages
  | AwaitJson _ lang json =>
      lang ∈ CONFIG.supportedLanguages ∧
      ∃ n, network W n (localePath lang) = FetchResponse true json
  | AwaitLoad _ => True
  end.

Definition isInitCall (p : Pending) : bool :=
  match p with
  | AwaitFetch CallerInit _ _ | AwaitJson CallerInit _ _ | AwaitLoad CallerInit => true
  | _ => false
  end.

Definition isTurnInit (t : Turn) : bool :=
  match t with TurnInit => true | _ => false end.

End overlap.

(** A state that some schedule leads to. *)
Definition scheduled (W : World) (st : State) : Prop :=
  ∃ d s turns, st = now (run W d s turns).

(** *** Two clicks on the page of the examples

    Initialisation, then a click on the Arabic button and a click on
    the English button before the Arabic dataset has arrived, then the
    Arabic dataset, and what follows in the call for Arabic. *)
Definition twoClicks : list Turn :=
  [TurnInit; TurnResume 0; TurnResume 0; TurnResume 0;
   TurnSetLanguage "ar"; TurnSetLanguage "en";
   TurnResume 0; TurnResume 0; TurnResume 0].

Definition afterTwoClicks : Running :=
  run Example.online Example.page Example.emptyStorage twoClicks.

(** The same clicks, with the English dataset arriving before the Arabic
    one, and both calls resumed to their end. *)
Definition twoClicksCrossed : list Turn :=
  [TurnInit; TurnResume 0; TurnResume 0; TurnResume 0;
   TurnSetLanguage "ar"; TurnSetLanguage "en";
   TurnResume 1; TurnResume 1; TurnResume 1;
   TurnResume 0; TurnResume 0; TurnResume 0].

Definition afterTwoClicksCrossed : Running :=
  run Example.online Example.page Example.emptyStorage twoClicksCrossed.

(** Two calls of [init] in a row, and then what follows their
    [await]s. *)
Definition twoInits : list Turn :=
  [TurnInit; TurnInit;
   TurnResume 0; TurnResume 0; TurnResume 0;
   TurnResume 0; TurnResume 0; TurnResume 0].

(** The direction of the document is set for the code: the attributes
    [lang] and [dir] of the root element, and of the two direction
    classes of the body exactly one, the one that goes with [dir]. *)
Definition directionSet (code : string) (st : State) : Prop :=
  ∃ attrs body,
    Dom.rootAttributes (docRoot (document st)) = Some attrs ∧
    Dom.bodyAttributes (docRoot (document st)) = Some body ∧
    attrs !! "lang" = Some code ∧
    (attrs !! "dir" = Some "rtl" ↔ code ∈ CONFIG.rtlLanguages) ∧
    (attrs !! "dir" = Some "ltr" ↔ code ∉ CONFIG.rtlLanguages) ∧
    (Dom.hasClass "rtl" body = true ↔ code ∈ CONFIG.rtlLanguages) ∧
    (Dom.hasClass "ltr" body = true ↔ code ∉ CONFIG.rtlLanguages) ∧
    xorb (Dom.hasClass "rtl" body) (Dom.hasClass "ltr" body) = true.

(** ** The document *)

(** A string without white space. *)
Fixpoint noSpace (s : string) : bool :=
  match s with
  | EmptyString => true
  | String c rest => negb (Dom.isAsciiSpace c) && noSpace rest
  end.

(** A token that [classList] accepts: not empty, and without white space. *)
Definition validToken (s : string) : bool := negb (JsString.isEmpty s) && noSpace s.

(** Two nodes with the same tag whose attributes are the same, or differ
    by what [updateLanguageSelectorUI] writes on a button. *)
Definition sameElement (current : string) (n n' : node) : Prop :=
  match n, n' with
  | Elem tag attrs _, Elem tag' attrs' _ =>
      tag' = tag ∧ (attrs' = attrs ∨ attrs' = markButton current attrs)
  | Text _, Text _ => True
  | _, _ => False
  end.

(** The attribute an ["attr:key"] entry writes to. *)
Definition entryTarget (entry : string) : string :=
  JsString.asciiLowerCase
    (default EmptyString (head (JsString.trim <$> JsString.split ":" entry))).

(** The two attributes that rendering reads its instructions from. *)
Definition markerAttributes : list string := ["data-i18n"; "data-i18n-attr"].

(** No entry of the element's attribute map writes to a marker attribute. *)
Definition plainMap (attrs : gmap string string) : bool :=
  match attrs !! "data-i18n-attr" with
  | Some attrData =>
      forallb (λ entry, bool_decide (entryTarget entry ∉ markerAttributes))
        (JsString.split "," attrData)
  | None => true
  end.

(** The same, for every element of a tree. *)
Fixpoint plainMaps (n : node) : bool :=
  match n with
  | Text _ => true
  | Elem _ attrs children => plainMap attrs && forallb plainMaps children
  end.

Section rendering_vocabulary.
Context (H : Host) (translations : value).

(** What an entry does, whatever the attributes are: it throws, it
    writes nothing, or it writes one attribute. *)
Definition entryEffect (entry : string) : Completion (option (string * string)) :=
  let parts := JsString.trim <$> JsString.split ":" entry in
  match parts !! 1%nat with
  | None => Throw TypeError
  | Some key =>
      match translation H translations key with
      | Str s =>
          if validAttributeName H (default EmptyString (head parts))
          then Normal (Some (entryTarget entry, s))
          else Throw InvalidCharacterError
      | _ => Normal None
      end
  end.

(** The writes of a list of entries, up to the first that throws. *)
Fixpoint writesOf (pairs : list string) : list (string * string) * Completion () :=
  match pairs with
  | [] => ([], Normal ())
  | entry :: rest =>
      match entryEffect entry with
      | Normal None => writesOf rest
      | Normal (Some w) => let '(ws, r) := writesOf rest in (w :: ws, r)
      | Throw e => ([], Throw e)
      end
  end.

Definition applyWrites (ws : list (string * string)) (attrs : gmap string string)
  : gmap string string :=
  foldl (λ a w, <[w.1 := w.2]> a) attrs ws.

(** The value the last write to [k] gives it. *)
Fixpoint lastWrite (k : string) (ws : list (string * string)) : option string :=
  match ws with
  | [] => None
  | w :: rest =>
      match lastWrite k rest with
      | Some x => Some x
      | None => if decide (w.1 = k) then Some w.2 else None
      end
  end.

(** The content the first loop gives an element, when it gives one. *)
Definition replacement (tag : string) (attrs : gmap string string)
  : option (list node) :=
  key ← attrs !! "data-i18n";
  translatedContent H tag (translation H translations key).

(** The pairs of an element, run on its attributes. *)
Definition attributeStep (attrs : gmap string string)
  : gmap string string * Completion () :=
  match attrs !! "data-i18n-attr" with
  | Some attrData => translatePairs H translations (JsString.split "," attrData) attrs
  | None => (attrs, Normal ())
  end.

(** Both loops of rendering on a tree, and on a list of trees. *)
Definition loops (n : node) : node * Completion () :=
  translateAttributes H translations (translateElement H translations n).

Definition loopsList (l : list node) : list node * Completion () :=
  Dom.forEachNode (translateAttributes H translations)
    (map (translateElement H translations) l).

(** A tree that both loops leave as it is. *)
Definition settled (n : node) : Prop := loops n = (n, Normal ()).

(** The nodes that the second loop finds below an element: what the
    first loop has put there, or has left there. *)
Definition contentAfter (tag : string) (attrs : gmap string string)
    (children : list node) : list node :=
  default (map (translateElement H translations) children) (replacement tag attrs).

(** What rendering writes after its loops: the title, then the
    description. *)
Definition lateWrites (root2 : node)
  : Document * Completion () :=
  match titleToWrite H translations with
  | Throw e => ({| docRoot := root2 |}, Throw e)
  | Normal title =>
      let root3 := match title with Some s => Dom.setTitle s root2 | None => root2 end in
      if hasMetaDescription root3 then
        match descriptionToWrite H translations with
        | Throw e => ({| docRoot := root3 |}, Throw e)
        | Normal (Some content) =>
            ({| docRoot := default root3
                   (Dom.updateFirstElement isMetaDescription
                      (insert "content" content) root3) |}, Normal ())
        | Normal None => ({| docRoot := root3 |}, Normal ())
        end
      else ({| docRoot := root3 |}, Normal ())
  end.

End rendering_vocabulary.

(** Two nodes of the same kind, and with the same tag when they are
    elements. *)
Definition sameTag (n n' : node) : Prop :=
  match n, n' with
  | Elem tag _ _, Elem tag' _ _ => tag = tag'
  | Text _, Text _ => True
  | _, _ => False
  end.

Section late_vocabulary.
Context (H : Host) (translations : value) (s content : string).

#[local] Abbreviation L := (loops H translations).
#[local] Abbreviation updT :=
  (Dom.updateFirstContent Dom.isTitle (λ _, Dom.textContent s)).
#[local] Abbreviation updM :=
  (Dom.updateFirstElement isMetaDescription (insert "content" content)).

(** What holds of a tree that both loops leave as it is, when the title
    or the description is written into it, or both: both loops run on
    the result, and the same writes after them, give the result again. *)
Definition titleAgain (y : node) : Prop :=
  ∀ y3, updT y = Some y3 → ∃ y5, L y3 = (y5, Normal ()) ∧ updT y5 = Some y3.

Definition descriptionAgain (y : node) : Prop :=
  ∀ y4, updM y = Some y4 →
        ∃ y5, L y4 = (y5, Normal ()) ∧ updM y5 = Some y4 ∧
              (updT y = None → updT y5 = None).

Definition bothAgain (y : node) : Prop :=
  ∀ y3 y4, updT y = Some y3 → updM y3 = Some y4 →
           ∃ y5 y6, L y4 = (y5, Normal ()) ∧ updT y5 = Some y6 ∧ updM y6 = Some y4.

(** The children of the [html] root after [document.title = s]. *)
Definition titleAmong (l : list node) : list node :=
  match Dom.updateFirstOf updT l with
  | Some l' => l'
  | None => default l (Dom.updateFirstOf (Dom.appendToHead s) l)
  end.

End late_vocabulary.

(** ** Calls, events and the storage *)

(** A computation that changes nothing but the document, however it
    completes. *)
Definition documentOnly {A} (m : M A) : Prop :=
  ∀ st, ∃ d, (m st).2 = setDocument d st.

(** The language an event carries in its [detail]. *)
Definition eventLanguage (e : Event) : string :=
  match e with
  | I18nReady language => language
  | I18nLanguageChanged language => language
  end.

Definition isReady (e : Event) : bool :=
  match e with
  | I18nReady _ => true
  | I18nLanguageChanged _ => false
  end.

(** How many [i18n:ready] events have been dispatched. *)
Definition readyCount (st : State) : nat :=
  length (filter (λ e, isReady e = true) (dispatched st)).

(** A request for the dataset of a supported language. *)
Definition localeRequest (url : string) : Prop :=
  ∃ code, code ∈ CONFIG.supportedLanguages ∧ url = localePath code.

(** The state after the [try] block around [localStorage.setItem]: the
    code is stored when the storage takes it, and nothing changes when it
    throws. *)
Definition persisted (lang : string) (st : State) : State :=
  match storage st with
  | StorageAvailable false items =>
      setStorage (StorageAvailable false (<[CONFIG.localStorageKey := lang]> items)) st
  | _ => st
  end.

(** The three steps of [init] and of [setLanguage] that work on the
    document. *)
Definition redraw (W : World) : M () :=
  applyTranslations W;; updateDocumentAttributes;; updateLanguageSelectorUI.

(** ** Queries on the document *)

(** The first result that a function gives on the items of a list. *)
Definition firstSome {A B} (f : A → option B) : list A → option B :=
  fix go (l : list A) :=
    match l with
    | [] => None
    | x :: rest => match f x with Some y => Some y | None => go rest end
    end.

(** The attributes of [document.querySelector(p)]. *)
Fixpoint firstElement (p : string → gmap string string → bool) (n : node)
  : option (gmap string string) :=
  match n with
  | Text _ => None
  | Elem tag attrs children =>
      if p tag attrs then Some attrs else firstSome (firstElement p) children
  end.

(** The children of [document.getElementById('language-selector')]. *)
Fixpoint selectorContent (n : node) : option (list node) :=
  match n with
  | Text _ => None
  | Elem _ attrs children =>
      if bool_decide (attrs !! "id" = Some "language-selector") then Some children
      else firstSome selectorContent children
  end.

(** An element with a [data-lang] shows whether its language is the
    active one: it has the class [active] and [aria-current="true"] when
    it is, and no class [active] and [aria-current="false"] when it is
    not. *)
Definition buttonMarked (current : string) (attrs : gmap string string) : bool :=
  match attrs !! "data-lang" with
  | Some lang =>
      bool_decide (Dom.hasClass "active" attrs = bool_decide (lang = current)) &&
      bool_decide (attrs !! "aria-current"
                   = Some (if bool_decide (lang = current) then "true" else "false"))
  | None => true
  end.

(** The same, for an element and everything below it. *)
Fixpoint buttonsMarked (current : string) (n : node) : bool :=
  match n with
  | Text _ => true
  | Elem _ attrs children =>
      buttonMarked current attrs && forallb (buttonsMarked current) children
  end.

(** A tree without the two markers of rendering. *)
Fixpoint unmarked (n : node) : bool :=
  match n with
  | Text _ => true
  | Elem _ attrs children =>
      bool_decide (attrs !! "data-i18n" = None) &&
      bool_decide (attrs !! "data-i18n-attr" = None) &&
      forallb unmarked children
  end.

(** ** Histories of a rate limiter *)

Section limiter_vocabulary.
Context {Args : Type}.

(** The arguments of the last call in a history. *)
Fixpoint lastCalled (history : list (Page.Activity Args)) : option Args :=
  match history with
  | [] => None
  | a :: rest =>
      match lastCalled rest with
      | Some args => Some args
      | None =>
          match a with
          | Page.Called args _ => Some args
          | Page.Expired _ => None
          end
      end
  end.

Definition isCalled (a : Page.Activity Args) : bool :=
  match a with Page.Called _ _ => true | Page.Expired _ => false end.

Definition isExpired (a : Page.Activity Args) : bool :=
  match a with Page.Called _ _ => false | Page.Expired _ => true end.

(** A call of [func] that returned. *)
Definition returned (c : Args * Completion ()) : bool :=
  match c.2 with Normal _ => true | Throw _ => false end.

End limiter_vocabulary.

(** * Properties *)

(** ** Strings *)

Lemma split_cons sep s : ∃ w ws, JsString.split sep s = w :: ws.
Proof.
  destruct s as [|c rest]; simpl; [by eauto|].
  destruct (Ascii.eqb c sep); [by eauto|].
  destruct (JsString.split sep rest); eauto.
Qed.

(** ** Key lookup *)

Section lookup_facts.
Context (H : Host).

Lemma isContainer_object v : isContainer H v = true → isObjectValue v = true.
Proof.
  unfold isContainer. destruct v; simpl; rewrite ?andb_false_r; done.
Qed.

Lemma isContainer_getMember v k x :
  isContainer H v = true → lookupProperty H v k = Some x →
  getMember H v k = Normal x.
Proof.
  unfold isContainer. destruct v; simpl; rewrite ?andb_false_r; try done;
    by intros _ ->.
Qed.

(** One iteration of the loop on a container that has the segment. *)
Lemma t_loop_step p k ks v x :
  isContainer H v = true → lookupProperty H v k = Some x →
  t_loop H p (k :: ks) v = t_loop H p ks x.
Proof.
  intros Hc Hl. simpl. unfold isContainer in Hc. rewrite Hc.
  unfold hasProperty. rewrite (isContainer_object v Hc), Hl. simpl.
  by rewrite (isContainer_getMember v k x Hc Hl).
Qed.

(** One iteration of the loop on a value that misses the segment. *)
Lemma t_loop_missing p k ks v :
  missing H v k → t_loop H p (k :: ks) v = Normal (Str p).
Proof.
  intros [Hc|Hl]; simpl.
  - unfold isContainer in Hc. by rewrite Hc.
  - destruct (truthy v && typeofObject H v) eqn:Hc; [|done].
    unfold hasProperty. by rewrite (isContainer_object v Hc), Hl.
Qed.

Lemma t_loop_resolves p ks v r :
  resolves H v ks r → t_loop H p ks v = Normal r.
Proof.
  induction 1 as [|v k ks v' r Hc Hl _ IH]; [done|].
  by rewrite (t_loop_step p k ks v v' Hc Hl).
Qed.

Lemma t_loop_blocked p ks v :
  blocked H v ks → t_loop H p ks v = Normal (Str p).
Proof.
  intros (pre & k & post & cur & -> & Hres & Hmiss).
  induction Hres as [|v k' ks v' r Hc Hl _ IH]; simpl app.
  - by apply t_loop_missing.
  - rewrite (t_loop_step p k' _ v v' Hc Hl). by apply IH.
Qed.

(** A path either resolves or is blocked. *)
Lemma resolves_or_blocked ks : ∀ v, (∃ r, resolves H v ks r) ∨ blocked H v ks.
Proof.
  induction ks as [|k ks IH]; intros v.
  - left. exists v. constructor.
  - destruct (isContainer H v) eqn:Hc.
    + destruct (lookupProperty H v k) as [x|] eqn:Hl.
      * destruct (IH x) as [[r Hr]|(pre & k' & post & cur & -> & Hres & Hmiss)].
        -- left. exists r. by econstructor.
        -- right. exists (k :: pre), k', post, cur.
           split; [done|]. split; [by econstructor|done].
      * right. exists [], k, ks, v. repeat split; [constructor|by right].
    + right. exists [], k, ks, v. repeat split; [constructor|by left].
Qed.

Lemma resolves_functional ks : ∀ v r r',
  resolves H v ks r → resolves H v ks r' → r = r'.
Proof.
  induction ks as [|k ks IH]; intros v r r' H1 H2; inversion H1; inversion H2; subst.
  - done.
  - match goal with
    | A : lookupProperty H v k = Some ?x, B : lookupProperty H v k = Some ?y |- _ =>
        rewrite A in B; injection B as <-
    end. eauto.
Qed.

(** [t] completes normally on every dataset and every string. *)
Lemma t_never_throws ds p : ∃ v, t H ds p = Normal v.
Proof.
  unfold t. destruct (resolves_or_blocked (JsString.split "." p) ds) as [[r Hr]|Hb].
  - exists r. by apply t_loop_resolves.
  - exists (Str p). by apply t_loop_blocked.
Qed.

Lemma translation_t ds p : t H ds p = Normal (translation H ds p).
Proof. unfold translation. by destruct (t_never_throws ds p) as [v ->]. Qed.

End lookup_facts.

(** How [t] follows a key path.  [t] splits the key path on dots and
    walks the dataset segment by segment.  When every segment is found
    in turn (the current value is a keyed container on which [in] finds
    the segment, as an own or an inherited property) the value reached
    is returned as it is, whatever its type.  When some segment meets a
    value that is not a keyed container, or a container on which [in]
    is false, the key path itself is returned.  On [{a:{b:{c:"X"}}}] the
    path ["a.b.c"] gives ["X"], and on [{a:{b:{}}}] it gives ["a.b.c"]
    (no object inherits a property named ["c"]). *)
Theorem t_follows_key_path (H : Host) (dataset : value) (keyPath : string) :
  (∀ v, resolves H dataset (JsString.split "." keyPath) v →
        t H dataset keyPath = Normal v) ∧
  (blocked H dataset (JsString.split "." keyPath) →
   t H dataset keyPath = Normal (Str keyPath)) ∧
  JsString.split "." "a.b.c" = ["a"; "b"; "c"] ∧
  t H (Obj {[ "a" := Obj {[ "b" := Obj {[ "c" := Str "X" ]} ]} ]}) "a.b.c"
    = Normal (Str "X") ∧
  (inherited H KObject "c" = None →
   t H (Obj {[ "a" := Obj {[ "b" := Obj ∅ ]} ]}) "a.b.c" = Normal (Str "a.b.c")).
Proof.
  split; [|split; [|split; [|split]]].
  - intros v Hv. by apply t_loop_resolves.
  - apply t_loop_blocked.
  - reflexivity.
  - apply t_loop_resolves. change (JsString.split "." "a.b.c") with ["a"; "b"; "c"].
    repeat (econstructor; [reflexivity|reflexivity|]). constructor.
  - intros Hc. apply t_loop_blocked.
    exists ["a"; "b"], "c", [], (Obj ∅). split; [reflexivity|]. split.
    + repeat (econstructor; [reflexivity|reflexivity|]). constructor.
    + right. simpl. by rewrite lookup_empty.
Qed.

(** C2.  The claim, and the comment above [t] ("Translated text or key
    if not found"), fail on a key that names an inherited property.
    The dataset [{}] lacks the segment ["toString"], so that the key
    path is to be returned; but [in] finds [toString] on the prototype
    chain, and [t] returns what it finds there, the function that every
    object inherits, and not a string. *)
Theorem t_inherited_key (H : Host) (f : value) :
  inherited H KObject "toString" = Some f →
  ownProperty (Obj ∅) "toString" = None ∧
  t_specified H (Obj ∅) "toString" = Str "toString" ∧
  t H (Obj ∅) "toString" = Normal f.
Proof.
  intros Hf. split; [done|]. split; [done|].
  unfold t. change (JsString.split "." "toString") with ["toString"].
  cbn [t_loop truthy typeofObject andb]. unfold hasProperty.
  cbn [isObjectValue lookupProperty ownProperty kindOf].
  rewrite lookup_empty. cbn [mbind option_bind]. rewrite Hf.
  rewrite bool_decide_eq_true_2 by by eexists.
  cbn [mbind Completion_bind getMember lookupProperty ownProperty kindOf].
  rewrite lookup_empty. cbn [mbind option_bind]. by rewrite Hf.
Qed.

(** C10.  [t] is total: on every dataset value (objects, arrays, [null],
    numbers, strings, engine objects, at the top or in the middle of a
    path) and every string, the empty one and those with empty segments
    included, the call completes without an exception; what it returns
    is the value the path leads to or, when the path is blocked, the key
    path itself.  On a dataset that is not a keyed container ([null], a
    number, a string) every key path is returned as it is. *)
Theorem t_total (H : Host) (dataset : value) (keyPath : string) :
  (∃ v, t H dataset keyPath = Normal v ∧
        (resolves H dataset (JsString.split "." keyPath) v ∨
         (blocked H dataset (JsString.split "." keyPath) ∧ v = Str keyPath))) ∧
  (isContainer H dataset = false → t H dataset keyPath = Normal (Str keyPath)) ∧
  t H Null keyPath = Normal (Str keyPath).
Proof.
  assert (∀ ds, isContainer H ds = false → t H ds keyPath = Normal (Str keyPath))
    as Hleaf.
  { intros ds Hc. unfold t.
    destruct (split_cons "." keyPath) as (k & ks & ->).
    apply t_loop_missing. by left. }
  split; [|split; [apply Hleaf|by apply Hleaf]].
  destruct (resolves_or_blocked H (JsString.split "." keyPath) dataset) as [[r Hr]|Hb].
  - exists r. split; [by apply t_loop_resolves|by left].
  - exists (Str keyPath). split; [by apply t_loop_blocked|by right].
Qed.

(** ** Language resolution *)

Section resolution_facts.
Context (W : World).

Lemma isSupported_true c : isSupported c = true ↔ c ∈ CONFIG.supportedLanguages.
Proof. unfold isSupported. apply bool_decide_eq_true. Qed.

Lemma isSupported_false c : isSupported c = false ↔ c ∉ CONFIG.supportedLanguages.
Proof. unfold isSupported. apply bool_decide_eq_false. Qed.

Lemma isSupported_nonempty c : isSupported c = true → JsString.isEmpty c = false.
Proof.
  rewrite isSupported_true. unfold CONFIG.supportedLanguages.
  rewrite !elem_of_cons, elem_of_nil. by intros [->|[->|[]]].
Qed.

Lemma supportedOrNull_Some c x :
  supportedOrNull c = Some x ↔ c = Some x ∧ x ∈ CONFIG.supportedLanguages.
Proof.
  unfold supportedOrNull. destruct c as [code|]; [|naive_solver].
  destruct (isSupported code) eqn:Hs.
  - rewrite (isSupported_nonempty _ Hs). simpl. apply isSupported_true in Hs.
    naive_solver.
  - rewrite andb_false_r. apply isSupported_false in Hs. naive_solver.
Qed.

Lemma supportedOrNull_None c : supportedOrNull c = None ↔ noSupported c.
Proof.
  unfold noSupported. split.
  - intros Hn q -> Hq.
    assert (supportedOrNull (Some q) = Some q) as E by by apply supportedOrNull_Some.
    congruence.
  - intros Hn. destruct (supportedOrNull c) as [x|] eqn:E; [|done].
    apply supportedOrNull_Some in E as [-> Hx]. by destruct (Hn x).
Qed.

Lemma getUrlLanguage_eq st :
  getUrlLanguage W st = (Normal (supportedOrNull (queryLang W)), st).
Proof. reflexivity. Qed.

(** A storage that throws counts as one without a stored preference. *)
Lemma getStoredLanguage_eq st :
  getStoredLanguage st
  = (Normal (supportedOrNull (storedPreference (storage st))), st).
Proof.
  unfold getStoredLanguage, tryCatch, mbind, M_bind, getItem.
  by destruct (storage st).
Qed.

Lemma detectBrowserLanguage_eq st :
  detectBrowserLanguage W st = (Normal (detected W), st).
Proof.
  unfold detectBrowserLanguage, detected, primaryLocale.
  destruct (orString _ _) as [lang|]; simpl.
  - destruct (JsString.isEmpty lang) eqn:He.
    + destruct lang; [|done]. simpl.
      by destruct (navigatorLanguages W).
    + destruct (isSupported (languageSubtag lang)) eqn:Hs.
      * by rewrite (isSupported_nonempty _ Hs).
      * rewrite andb_false_r. by destruct (navigatorLanguages W).
  - by destruct (navigatorLanguages W).
Qed.

Lemma detected_supported c : detected W = Some c → c ∈ CONFIG.supportedLanguages.
Proof.
  unfold detected. destruct (supportedOrNull _) as [x|] eqn:E.
  - intros [= <-]. by apply supportedOrNull_Some in E as [_ ?].
  - destruct (navigatorLanguages W) as [languages|]; [|done].
    intros Hf. apply find_some in Hf as [_ Hs]. by apply isSupported_true.
Qed.

Lemma supported_nonempty c :
  c ∈ CONFIG.supportedLanguages → JsString.isEmpty c = false.
Proof. intros Hc. by apply isSupported_nonempty, isSupported_true. Qed.

Lemma resolveLanguage_eq st : resolveLanguage W st = (Normal (resolved W st), st).
Proof.
  unfold resolveLanguage, orElse, resolved, mbind, M_bind, mret, M_ret.
  rewrite getUrlLanguage_eq.
  destruct (supportedOrNull (queryLang W)) as [c|] eqn:Eq.
  { apply supportedOrNull_Some in Eq as [_ Hc].
    by rewrite !(supported_nonempty _ Hc). }
  rewrite getStoredLanguage_eq.
  destruct (supportedOrNull (storedPreference (storage st))) as [c|] eqn:Es.
  { apply supportedOrNull_Some in Es as [_ Hc].
    by rewrite !(supported_nonempty _ Hc). }
  rewrite detectBrowserLanguage_eq.
  destruct (detected W) as [c|] eqn:Ed; [|done].
  by rewrite !(supported_nonempty _ (detected_supported _ Ed)).
Qed.

Lemma resolved_supported st : resolved W st ∈ CONFIG.supportedLanguages.
Proof.
  unfold resolved.
  destruct (supportedOrNull (queryLang W)) as [c|] eqn:Eq.
  { by apply supportedOrNull_Some in Eq as [_ ?]. }
  destruct (supportedOrNull (storedPreference _)) as [c|] eqn:Es.
  { by apply supportedOrNull_Some in Es as [_ ?]. }
  destruct (detected W) as [c|] eqn:Ed; [by apply detected_supported|].
  simpl. unfold CONFIG.supportedLanguages, CONFIG.defaultLanguage. set_solver.
Qed.

Lemma find_first {A} (p : A → bool) pre x post :
  Forall (λ y, p y = false) pre → p x = true →
  find p (pre ++ x :: post) = Some x.
Proof.
  induction 1 as [|y pre Hy _ IH]; simpl; intros Hx.
  - by rewrite Hx.
  - rewrite Hy. by apply IH.
Qed.

Lemma find_none {A} (p : A → bool) l :
  Forall (λ y, p y = false) l → find p l = None.
Proof. induction 1 as [|y l Hy _ IH]; simpl; [done|]. by rewrite Hy. Qed.

End resolution_facts.

(** C1.  Language resolution returns exactly one code, without changing
    anything, and the code is a supported one, so an unsupported code
    from whatever source is never selected.  The sources are taken by
    strict priority: a supported query-parameter code; failing that a
    supported stored code; failing that the supported language subtag of
    the primary locale; failing that the first supported language subtag
    in the ordered preference list; failing that the default.  A source
    that yields no code, or an unsupported one, is skipped. *)
Theorem resolveLanguage_priority (W : World) (st : State) :
  ∃ code,
    resolveLanguage W st = (Normal code, st) ∧
    code ∈ CONFIG.supportedLanguages ∧
    (∀ c, c ∉ CONFIG.supportedLanguages → code ≠ c) ∧
    (∀ q, queryLang W = Some q → q ∈ CONFIG.supportedLanguages → code = q) ∧
    (noSupported (queryLang W) →
     ∀ s, storedPreference (storage st) = Some s →
          s ∈ CONFIG.supportedLanguages → code = s) ∧
    (noSupported (queryLang W) →
     noSupported (storedPreference (storage st)) →
     ∀ b, primaryLocale W = Some b →
          languageSubtag b ∈ CONFIG.supportedLanguages →
          code = languageSubtag b) ∧
    (noSupported (queryLang W) →
     noSupported (storedPreference (storage st)) →
     noSupported (languageSubtag <$> primaryLocale W) →
     ∀ pre l post,
       navigatorLanguages W = Some (pre ++ l :: post) →
       Forall (λ x, languageSubtag x ∉ CONFIG.supportedLanguages) pre →
       languageSubtag l ∈ CONFIG.supportedLanguages →
       code = languageSubtag l) ∧
    (noSupported (queryLang W) →
     noSupported (storedPreference (storage st)) →
     noSupported (languageSubtag <$> primaryLocale W) →
     (∀ languages, navigatorLanguages W = Some languages →
        Forall (λ x, languageSubtag x ∉ CONFIG.supportedLanguages) languages) →
     code = CONFIG.defaultLanguage).
Proof.
  exists (resolved W st). split; [apply resolveLanguage_eq|].
  split; [apply resolved_supported|].
  split; [intros c Hc E; apply Hc; rewrite <- E; apply resolved_supported|].
  unfold resolved. repeat split.
  - intros q Hq Hs.
    by rewrite (proj2 (supportedOrNull_Some (queryLang W) q) (conj Hq Hs)).
  - intros Hq s Hst Hs. apply supportedOrNull_None in Hq. rewrite Hq.
    by rewrite (proj2 (supportedOrNull_Some _ s) (conj Hst Hs)).
  - intros Hq Hst b Hb Hs. apply supportedOrNull_None in Hq, Hst.
    rewrite Hq, Hst. unfold detected. rewrite Hb.
    change (languageSubtag <$> Some b) with (Some (languageSubtag b)).
    by rewrite (proj2 (supportedOrNull_Some (Some (languageSubtag b)) _)
                  (conj eq_refl Hs)).
  - intros Hq Hst Hp pre l post Hl Hpre Hs.
    apply supportedOrNull_None in Hq, Hst, Hp.
    rewrite Hq, Hst. unfold detected. rewrite Hp, Hl, fmap_app, fmap_cons.
    rewrite (find_first isSupported); [done| |by apply isSupported_true].
    apply Forall_fmap. eapply Forall_impl; [exact Hpre|].
    intros x Hx. by apply isSupported_false.
  - intros Hq Hst Hp Hl. apply supportedOrNull_None in Hq, Hst, Hp.
    rewrite Hq, Hst. unfold detected. rewrite Hp.
    destruct (navigatorLanguages W) as [languages|]; [|done].
    rewrite find_none; [done|]. apply Forall_fmap.
    eapply Forall_impl; [exact (Hl _ eq_refl)|].
    intros x Hx. by apply isSupported_false.
Qed.

(** C4.  Language resolution never fails: it completes normally with a
    supported code and leaves the state as it was.  A storage that throws
    gives what a readable storage without a stored preference gives, and
    when no source yields anything (no query parameter, no readable
    stored preference, no navigator field) the result is the default
    code. *)
Theorem resolveLanguage_never_fails (W : World) (st : State) :
  ∃ code,
    resolveLanguage W st = (Normal code, st) ∧
    code ∈ CONFIG.supportedLanguages ∧
    (∀ full,
       (resolveLanguage W (setStorage StorageUnavailable st)).1
       = (resolveLanguage W (setStorage (StorageAvailable full ∅) st)).1) ∧
    (getStoredLanguage (setStorage StorageUnavailable st)
     = (Normal None, setStorage StorageUnavailable st)) ∧
    (queryLang W = None →
     storedPreference (storage st) = None →
     navigatorLanguage W = None →
     navigatorUserLanguage W = None →
     navigatorLanguages W = None →
     code = CONFIG.defaultLanguage).
Proof.
  exists (resolved W st). split; [apply resolveLanguage_eq|].
  split; [apply resolved_supported|]. repeat split.
  - intros full. by rewrite !resolveLanguage_eq.
  - intros Hq Hs Hl Hu Hls. unfold resolved, detected, primaryLocale.
    by rewrite Hq, Hs, Hl, Hu, Hls.
Qed.

(** ** Dataset loading *)

Section loading_facts.
Context (W : World).

(** The body of [loadTranslations], with its [try] and [catch]. *)
Lemma loadTranslations_body lang st :
  loadTranslations W lang st =
  match fetchTranslations W lang st with
  | (Normal _, st1) => (Normal (), st1)
  | (Throw error, st1) =>
      if decide (lang = CONFIG.defaultLanguage)
      then (Normal (), reportLoadFailure error st1)
      else loadTranslations W CONFIG.defaultLanguage (reportLoadFailure error st1)
  end.
Proof.
  rewrite loadTranslations_equation_1.
  destruct (fetchTranslations W lang st) as [[[]|error] st1]; simpl; [done|].
  by destruct (decide (lang = CONFIG.defaultLanguage)).
Qed.

Lemma fetchTranslations_success lang st v :
  network W (length (requests st)) (localePath lang) = FetchResponse true (Some v) →
  fetchTranslations W lang st
  = (Normal (), setTranslations v (addRequest (localePath lang) st)).
Proof.
  intros Hn. unfold fetchTranslations, mbind, M_bind, fetch. by rewrite Hn.
Qed.

Lemma fetchTranslations_failure lang st :
  loadFailure (network W (length (requests st)) (localePath lang)) →
  ∃ error, fetchTranslations W lang st
           = (Throw error, addRequest (localePath lang) st).
Proof.
  unfold fetchTranslations, mbind, M_bind, fetch.
  destruct (network W _ _) as [|ok json]; simpl; [by eauto|].
  intros [->| ->]; simpl; [by eauto|].
  destruct ok; simpl; by eauto.
Qed.

Lemma loadFailure_dec o :
  loadFailure o ∨ ∃ v, o = FetchResponse true (Some v).
Proof.
  destruct o as [|[] [v|]]; simpl; eauto.
Qed.

(** The load of the default language does not call itself again. *)
Lemma loadTranslations_default_failure st :
  loadFailure (network W (length (requests st)) (localePath CONFIG.defaultLanguage)) →
  ∃ error,
    loadTranslations W CONFIG.defaultLanguage st
    = (Normal (),
       reportLoadFailure error (addRequest (localePath CONFIG.defaultLanguage) st)).
Proof.
  intros Hf. rewrite loadTranslations_body.
  destruct (fetchTranslations_failure _ _ Hf) as [error ->].
  exists error. by destruct (decide _).
Qed.

Lemma loadTranslations_success lang st v :
  network W (length (requests st)) (localePath lang) = FetchResponse true (Some v) →
  loadTranslations W lang st
  = (Normal (), setTranslations v (addRequest (localePath lang) st)).
Proof.
  intros Hn. rewrite loadTranslations_body.
  by rewrite (fetchTranslations_success _ _ _ Hn).
Qed.

(** No exception leaves [loadTranslations]. *)
Lemma loadTranslations_normal lang st : (loadTranslations W lang st).1 = Normal ().
Proof.
  rewrite loadTranslations_body.
  destruct (fetchTranslations W lang st) as [[[]|error] st1] eqn:E; [done|].
  destruct (decide (lang = CONFIG.defaultLanguage)); [done|].
  rewrite loadTranslations_body.
  destruct (fetchTranslations W CONFIG.defaultLanguage _) as [[[]|error'] st2];
    [done|].
  by destruct (decide _).
Qed.

End loading_facts.

(** C3.  No exception leaves [loadTranslations], whatever the code and
    the network.  When the fetch for the requested code fails (rejected
    promise, non-success status or unparsable body) and the code is not
    the default, the dataset of the default code is fetched, once: the
    call issues exactly two requests, the second for the default.  When
    that one succeeds its dataset is loaded; when it fails too the
    dataset in memory is the one that was there before.  A failed fetch
    for the default code itself is not retried. *)
Theorem loadTranslations_fallback (W : World) (lang : string) (st : State) :
  (loadTranslations W lang st).1 = Normal () ∧
  (lang ≠ CONFIG.defaultLanguage →
   loadFailure (network W (length (requests st)) (localePath lang)) →
   requests (loadTranslations W lang st).2
   = requests st ++ [localePath lang; localePath CONFIG.defaultLanguage] ∧
   (loadFailure (network W (S (length (requests st)))
                   (localePath CONFIG.defaultLanguage)) →
    translations (loadTranslations W lang st).2 = translations st) ∧
   (∀ v, network W (S (length (requests st))) (localePath CONFIG.defaultLanguage)
         = FetchResponse true (Some v) →
         translations (loadTranslations W lang st).2 = v)) ∧
  (lang = CONFIG.defaultLanguage →
   loadFailure (network W (length (requests st)) (localePath lang)) →
   requests (loadTranslations W lang st).2 = requests st ++ [localePath lang] ∧
   translations (loadTranslations W lang st).2 = translations st).
Proof.
  split; [apply loadTranslations_normal|]. split.
  - intros Hne Hf. rewrite loadTranslations_body.
    destruct (fetchTranslations_failure W _ _ Hf) as [error ->].
    destruct (decide (lang = CONFIG.defaultLanguage)); [done|].
    set (st1 := reportLoadFailure error (addRequest (localePath lang) st)).
    assert (length (requests st1) = S (length (requests st))) as Hlen.
    { simpl. rewrite length_app. simpl. lia. }
    destruct (loadFailure_dec
                (network W (length (requests st1)) (localePath CONFIG.defaultLanguage)))
      as [Hf2|[v Hv]].
    + destruct (loadTranslations_default_failure W st1 Hf2) as [error' ->].
      simpl. rewrite <- app_assoc. split; [done|]. split; [done|].
      intros v Hv. rewrite <- Hlen in Hv. rewrite Hv in Hf2. by destruct Hf2.
    + rewrite (loadTranslations_success W _ _ _ Hv).
      simpl. rewrite <- app_assoc. split; [done|]. split.
      * intros Hf2. rewrite <- Hlen in Hf2. rewrite Hv in Hf2. by destruct Hf2.
      * intros v' Hv'. rewrite <- Hlen in Hv'. congruence.
  - intros -> Hf.
    by destruct (loadTranslations_default_failure W st Hf) as [error ->].
Qed.

(** ** Sequencing *)

Lemma bind_normal {A B} (m : M A) (f : A → M B) st a st1 :
  m st = (Normal a, st1) → (m ≫= f) st = f a st1.
Proof. intros E. unfold mbind, M_bind. by rewrite E. Qed.

Lemma bind_throw {A B} (m : M A) (f : A → M B) st e st1 :
  m st = (Throw e, st1) → (m ≫= f) st = (Throw e, st1).
Proof. intros E. unfold mbind, M_bind. by rewrite E. Qed.

Lemma bind_inv_normal {A B} (m : M A) (f : A → M B) st b st' :
  (m ≫= f) st = (Normal b, st') →
  ∃ a st1, m st = (Normal a, st1) ∧ f a st1 = (Normal b, st').
Proof.
  unfold mbind, M_bind. destruct (m st) as [[a|e] st1]; [by eauto|done].
Qed.

Lemma keeps_bind {A B} (R : relation State) `{!Transitive R}
    (m : M A) (f : A → M B) :
  keeps R m → (∀ a, keeps R (f a)) → keeps R (m ≫= f).
Proof.
  intros Hm Hf st. unfold mbind, M_bind.
  specialize (Hm st). destruct (m st) as [[a|e] st1]; simpl in *; [|done].
  etrans; [exact Hm|apply Hf].
Qed.

Lemma keeps_ret {A} (R : relation State) `{!Reflexive R} (a : A) :
  keeps R (mret a).
Proof. by intros st. Qed.

Lemma keeps_get {A} (R : relation State) `{!Reflexive R} (f : State → A) :
  keeps R (get f).
Proof. by intros st. Qed.

Lemma keeps_tryCatch {A} (R : relation State) `{!Transitive R}
    (m : M A) (h : Exn → M A) :
  keeps R m → (∀ e, keeps R (h e)) → keeps R (tryCatch m h).
Proof.
  intros Hm Hh st. unfold tryCatch.
  specialize (Hm st). destruct (m st) as [[a|e] st1]; simpl in *; [done|].
  etrans; [exact Hm|apply Hh].
Qed.

(** ** What each function leaves alone *)

#[export] Instance sameModule_refl : Reflexive sameModule.
Proof. by intros st. Qed.

#[export] Instance sameModule_trans : Transitive sameModule.
Proof. intros a b c (?&?&?) (?&?&?). repeat split; congruence. Qed.

Section frame_facts.
Context (W : World).

Lemma applyTranslations_keeps : keeps sameModule (applyTranslations W).
Proof.
  intros st. unfold applyTranslations.
  by destruct (render _ _ _) as [d r].
Qed.

Lemma updateDocumentAttributes_keeps : keeps sameModule updateDocumentAttributes.
Proof.
  intros st. unfold updateDocumentAttributes.
  destruct (docRoot (document st)) as [|tag attrs children]; [done|].
  by destruct (Dom.updateBody _ _).
Qed.

Lemma updateLanguageSelectorUI_keeps : keeps sameModule updateLanguageSelectorUI.
Proof.
  intros st. unfold updateLanguageSelectorUI. by destruct (updateSelector _ _).
Qed.

Lemma bodyClassListAdd_keeps token : keeps sameModule (bodyClassListAdd token).
Proof.
  intros st. unfold bodyClassListAdd. by destruct (Dom.updateBody _ _).
Qed.

Lemma persist_keeps lang :
  keeps sameModule (tryCatch (setItem CONFIG.localStorageKey lang) (λ _, mret ())).
Proof.
  intros st. unfold tryCatch, setItem. by destruct (storage st) as [|[] items].
Qed.

Lemma addEvent_keeps e : keeps sameModule (modify (addEvent e)).
Proof. by intros st. Qed.

Lemma afterLoad_keeps lang : keeps sameModule (afterLoad W lang).
Proof.
  unfold afterLoad.
  apply keeps_bind; [apply _|apply applyTranslations_keeps|intros _].
  apply keeps_bind; [apply _|apply updateDocumentAttributes_keeps|intros _].
  apply keeps_bind; [apply _|apply updateLanguageSelectorUI_keeps|intros _].
  apply addEvent_keeps.
Qed.

(** [setLanguage] on a supported code other than the active one. *)
Lemma setLanguage_switch lang st :
  isSupported lang = true → lang ≠ currentLanguage st →
  setLanguage W lang st =
  ((tryCatch (setItem CONFIG.localStorageKey lang) (λ _, mret ());;
    loadTranslations W lang;;
    afterLoad W lang) (setCurrentLanguage lang st)).
Proof.
  intros Hs Hne. unfold setLanguage. rewrite Hs. simpl.
  unfold mbind at 1, M_bind at 1. simpl.
  by rewrite bool_decide_eq_false_2.
Qed.

Lemma setLanguage_same st :
  isSupported (currentLanguage st) = true →
  setLanguage W (currentLanguage st) st = (Normal (), st).
Proof.
  intros Hs. unfold setLanguage. rewrite Hs. simpl.
  unfold mbind, M_bind. simpl. by rewrite bool_decide_eq_true_2.
Qed.

Lemma setLanguage_reject lang st :
  isSupported lang = false →
  setLanguage W lang st
  = (Normal (), addConsoleError ("Unsupported language: " +:+ lang) None st).
Proof. intros Hs. unfold setLanguage. by rewrite Hs. Qed.

End frame_facts.

(** ** The state after a load *)

Section load_outcome.
Context (W : World).

Lemma loadTranslations_loaded lang st :
  ∃ st', loadTranslations W lang st = (Normal (), st') ∧ loaded W lang st st'.
Proof.
  destruct (loadFailure_dec (network W (length (requests st)) (localePath lang)))
    as [Hf|[v Hv]].
  2:{ eexists. split; [by apply loadTranslations_success|by constructor]. }
  destruct (decide (lang = CONFIG.defaultLanguage)) as [->|Hne].
  { destruct (loadTranslations_default_failure W st Hf) as [error ->].
    eexists. split; [done|by constructor]. }
  rewrite loadTranslations_body.
  destruct (fetchTranslations_failure W _ _ Hf) as [error ->].
  destruct (decide (lang = CONFIG.defaultLanguage)); [done|].
  set (st1 := reportLoadFailure error (addRequest (localePath lang) st)).
  assert (length (requests st1) = S (length (requests st))) as Hlen.
  { simpl. rewrite length_app. simpl. lia. }
  destruct (loadFailure_dec
              (network W (length (requests st1)) (localePath CONFIG.defaultLanguage)))
    as [Hf2|[v Hv]].
  - destruct (loadTranslations_default_failure W st1 Hf2) as [error' ->].
    eexists. split; [done|]. rewrite Hlen in Hf2. by constructor.
  - rewrite (loadTranslations_success W _ _ _ Hv).
    eexists. split; [done|]. rewrite Hlen in Hv. by constructor.
Qed.

Lemma loaded_currentLanguage lang st st' :
  loaded W lang st st' → currentLanguage st' = currentLanguage st.
Proof. by destruct 1. Qed.

Lemma loadFailure_not_success o v :
  loadFailure o → o = FetchResponse true (Some v) → False.
Proof. intros Hf ->. by destruct Hf. Qed.

(** The dataset after a load: that of the requested code when its fetch
    succeeded, that of the default when only the second fetch succeeded,
    and the one that was there when no fetch succeeded. *)
Lemma loaded_translations lang st st' :
  loaded W lang st st' →
  (∀ v, network W (length (requests st)) (localePath lang)
        = FetchResponse true (Some v) → translations st' = v) ∧
  (loadFailure (network W (length (requests st)) (localePath lang)) →
   lang ≠ CONFIG.defaultLanguage →
   ∀ v, network W (S (length (requests st))) (localePath CONFIG.defaultLanguage)
        = FetchResponse true (Some v) → translations st' = v) ∧
  (loadFailure (network W (length (requests st)) (localePath lang)) →
   lang = CONFIG.defaultLanguage ∨
   loadFailure (network W (S (length (requests st)))
                  (localePath CONFIG.defaultLanguage)) →
   translations st' = translations st).
Proof.
  destruct 1 as [v Hv|error Hf He|error v Hf Hne Hv|error error' Hf Hne Hf2];
    simpl; (split; [|split]).
  - intros w Hw. congruence.
  - intros Hf. destruct (loadFailure_not_success _ _ Hf Hv).
  - intros Hf. destruct (loadFailure_not_success _ _ Hf Hv).
  - intros w Hw. destruct (loadFailure_not_success _ _ Hf Hw).
  - done.
  - done.
  - intros w Hw. destruct (loadFailure_not_success _ _ Hf Hw).
  - intros _ _ w Hw. congruence.
  - intros _ [?|Hf2]; [done|]. destruct (loadFailure_not_success _ _ Hf2 Hv).
  - intros w Hw. destruct (loadFailure_not_success _ _ Hf Hw).
  - intros _ _ w Hw. destruct (loadFailure_not_success _ _ Hf2 Hw).
  - done.
Qed.

Lemma default_supported : CONFIG.defaultLanguage ∈ CONFIG.supportedLanguages.
Proof. unfold CONFIG.supportedLanguages, CONFIG.defaultLanguage. set_solver. Qed.

Lemma loaded_knownDataset lang st st' :
  lang ∈ CONFIG.supportedLanguages →
  loaded W lang st st' →
  knownDataset W (translations st) → knownDataset W (translations st').
Proof.
  intros Hs Hl Hk.
  destruct Hl as [v Hv|error Hf He|error v Hf Hne Hv|error error' Hf Hne Hf2];
    simpl; [|done| |done].
  - right. exists lang. split; [done|by eexists].
  - right. exists CONFIG.defaultLanguage. split; [apply default_supported|by eexists].
Qed.

(** The state a bind ends in is related to the state its first part
    ends in by whatever the second part keeps. *)
Lemma bind_final {A B} (R : relation State) `{!Reflexive R}
    (m : M A) (f : A → M B) st :
  (∀ a, keeps R (f a)) → R (m st).2 ((m ≫= f) st).2.
Proof.
  intros Hf. unfold mbind, M_bind.
  destruct (m st) as [[a|e] st1]; simpl; [apply Hf|done].
Qed.

Lemma persist_normal lang st :
  (tryCatch (setItem CONFIG.localStorageKey lang) (λ _, mret ()) st).1 = Normal ().
Proof. unfold tryCatch, setItem. by destruct (storage st) as [|[] items]. Qed.

(** A switch, as far as the variables of the module go: the code is set,
    the dataset is loaded for it, and the rest leaves both alone. *)
Lemma setLanguage_switch_loaded lang st :
  isSupported lang = true → lang ≠ currentLanguage st →
  ∃ st2 st3,
    sameModule (setCurrentLanguage lang st) st2 ∧
    loaded W lang st2 st3 ∧
    sameModule st3 (setLanguage W lang st).2.
Proof.
  intros Hs Hne. rewrite (setLanguage_switch W lang st Hs Hne).
  set (st1 := setCurrentLanguage lang st).
  pose proof (persist_keeps lang st1) as Hk.
  pose proof (persist_normal lang st1) as Hn.
  destruct (tryCatch _ _ st1) as [r st2] eqn:E. simpl in Hk, Hn. subst r.
  rewrite (bind_normal _ _ _ _ _ E).
  destruct (loadTranslations_loaded lang st2) as (st3 & El & Hl).
  exists st2, st3. split; [done|]. split; [done|].
  rewrite (bind_normal _ _ _ _ _ El). apply afterLoad_keeps.
Qed.

End load_outcome.

(** ** Reachable states *)

Section reachable_facts.
Context (W : World).

Lemma afterLoadInit_keeps : keeps sameModule (afterLoadInit W).
Proof.
  unfold afterLoadInit.
  apply keeps_bind; [apply _|apply applyTranslations_keeps|intros _].
  apply keeps_bind; [apply _|apply updateDocumentAttributes_keeps|intros _].
  apply keeps_bind; [apply _|apply updateLanguageSelectorUI_keeps|intros _].
  apply keeps_bind; [apply _|by intros st|intros _].
  apply keeps_bind; [apply _|apply bodyClassListAdd_keeps|intros _].
  apply keeps_bind; [apply _|by intros st|intros current'].
  apply addEvent_keeps.
Qed.

(** [init] when it has not run to its end before. *)
Lemma init_first st :
  isInitialized st = false →
  init W st =
  (loadTranslations W (resolved W st);; afterLoadInit W)
    (setCurrentLanguage (resolved W st) st).
Proof.
  intros Hi. unfold init.
  unfold mbind at 1, M_bind at 1. simpl. rewrite Hi.
  unfold mbind at 1, M_bind at 1. by rewrite resolveLanguage_eq.
Qed.

Lemma init_again st : isInitialized st = true → init W st = (Normal (), st).
Proof.
  intros Hi. unfold init. unfold mbind at 1, M_bind at 1. simpl. by rewrite Hi.
Qed.

Lemma init_loaded st :
  isInitialized st = false →
  ∃ st3,
    loaded W (resolved W st) (setCurrentLanguage (resolved W st) st) st3 ∧
    sameModule st3 (init W st).2.
Proof.
  intros Hi. rewrite (init_first st Hi).
  destruct (loadTranslations_loaded W (resolved W st)
              (setCurrentLanguage (resolved W st) st)) as (st3 & El & Hl).
  exists st3. split; [done|].
  rewrite (bind_normal _ _ _ _ _ El). apply afterLoadInit_keeps.
Qed.

Lemma init_invariant st : moduleInvariant W st → moduleInvariant W (init W st).2.
Proof.
  intros [Hc Hk]. destruct (isInitialized st) eqn:Hi.
  { by rewrite init_again. }
  destruct (init_loaded st Hi) as (st3 & Hl & (Ec & Et & _)).
  unfold moduleInvariant. rewrite Ec, Et. split.
  - rewrite (loaded_currentLanguage W _ _ _ Hl). apply resolved_supported.
  - eapply loaded_knownDataset; [|exact Hl|done]. apply resolved_supported.
Qed.

Lemma setLanguage_invariant lang st :
  moduleInvariant W st → moduleInvariant W (setLanguage W lang st).2.
Proof.
  intros [Hc Hk]. destruct (isSupported lang) eqn:Hs.
  2:{ by rewrite setLanguage_reject. }
  destruct (decide (lang = currentLanguage st)) as [->|Hne].
  { by rewrite setLanguage_same. }
  destruct (setLanguage_switch_loaded W lang st Hs Hne)
    as (st2 & st3 & (Ec2 & Et2 & _) & Hl & (Ec & Et & _)).
  unfold moduleInvariant. rewrite Ec, Et. apply isSupported_true in Hs. split.
  - by rewrite (loaded_currentLanguage W _ _ _ Hl), Ec2.
  - eapply loaded_knownDataset; [done|exact Hl|]. by rewrite Et2.
Qed.

Lemma reachable_invariant st : reachable W st → moduleInvariant W st.
Proof.
  induction 1 as [d s|st _ IH|lang st _ IH|d s st _ IH].
  - split; [apply default_supported|by left].
  - by apply init_invariant.
  - by apply setLanguage_invariant.
  - done.
Qed.

Lemma loaded_datasetAfterLoad lang st st' :
  loaded W lang st st' →
  datasetAfterLoad W lang (length (requests st)) (translations st) (translations st').
Proof. apply loaded_translations. Qed.

End reachable_facts.

(** ** Calls that overlap *)

Section overlap_facts.
Context (W : World).

Lemma undisturbed_settled fuel st r :
  undisturbed W fuel st (Settled r) = (st, Settled r).
Proof. by destruct fuel. Qed.

Lemma undisturbed_step fuel st p :
  undisturbed W (S fuel) st (Suspended p)
  = undisturbed W fuel (resume W p st).1 (resume W p st).2.
Proof. simpl. by destruct (resume W p st). Qed.

(** The load of the default language, resumed until it returns. *)
Lemma undisturbed_load_default caller st :
  ∃ j, (j ≤ 2)%nat ∧
       ∀ k, undisturbed W (j + k) (issueFetch caller CONFIG.defaultLanguage st).1
              (issueFetch caller CONFIG.defaultLanguage st).2
            = undisturbed W k (loadTranslations W CONFIG.defaultLanguage st).2
                (Suspended (AwaitLoad caller)).
Proof.
  rewrite loadTranslations_body.
  unfold fetchTranslations, mbind, M_bind, fetch, issueFetch. cbn [fst snd].
  destruct (network W (length (requests st)) (localePath CONFIG.defaultLanguage))
    as [|ok json] eqn:En.
  - exists 1%nat. split; [lia|]. intros k.
    change (1 + k)%nat with (S k). rewrite undisturbed_step.
    cbn [resume]. rewrite En. unfold catchLoad. by destruct (decide _).
  - destruct ok; cbn [negb fst snd].
    + destruct json as [v|]; cbn [responseJson snd].
      * exists 2%nat. split; [lia|]. intros k.
        change (2 + k)%nat with (S (S k)). rewrite undisturbed_step.
        cbn [resume]. rewrite En. cbn [negb fst snd]. by rewrite undisturbed_step.
      * exists 2%nat. split; [lia|]. intros k.
        change (2 + k)%nat with (S (S k)). rewrite undisturbed_step.
        cbn [resume]. rewrite En. cbn [negb fst snd]. rewrite undisturbed_step.
        cbn [resume]. unfold catchLoad. by destruct (decide _).
    + exists 1%nat. split; [lia|]. intros k.
      change (1 + k)%nat with (S k). rewrite undisturbed_step.
      cbn [resume]. rewrite En. unfold catchLoad. by destruct (decide _).
Qed.

(** The load of a language, resumed until it returns. *)
Lemma undisturbed_load caller lang st :
  ∃ j, (j ≤ 4)%nat ∧
       ∀ k, undisturbed W (j + k) (issueFetch caller lang st).1
              (issueFetch caller lang st).2
            = undisturbed W k (loadTranslations W lang st).2
                (Suspended (AwaitLoad caller)).
Proof.
  destruct (decide (lang = CONFIG.defaultLanguage)) as [->|Hne].
  { destruct (undisturbed_load_default caller st) as (j & Hj & E).
    exists j. split; [lia|done]. }
  rewrite loadTranslations_body.
  unfold fetchTranslations, mbind, M_bind, fetch, issueFetch. cbn [fst snd].
  destruct (network W (length (requests st)) (localePath lang)) as [|ok json] eqn:En.
  - destruct (undisturbed_load_default caller
                (reportLoadFailure NetworkError (addRequest (localePath lang) st)))
      as (j & Hj & E).
    exists (S j). split; [lia|]. intros k.
    change (S j + k)%nat with (S (j + k)). rewrite undisturbed_step.
    cbn [resume]. rewrite En. unfold catchLoad.
    destruct (decide _); [done|]. apply E.
  - destruct ok; cbn [negb fst snd].
    + destruct json as [v|]; cbn [responseJson snd].
      * exists 2%nat. split; [lia|]. intros k.
        change (2 + k)%nat with (S (S k)). rewrite undisturbed_step.
        cbn [resume]. rewrite En. cbn [negb fst snd]. by rewrite undisturbed_step.
      * destruct (undisturbed_load_default caller
                    (reportLoadFailure SyntaxError (addRequest (localePath lang) st)))
          as (j & Hj & E).
        exists (S (S j)). split; [lia|]. intros k.
        change (S (S j) + k)%nat with (S (S (j + k))). rewrite undisturbed_step.
        cbn [resume]. rewrite En. cbn [negb fst snd]. rewrite undisturbed_step.
        cbn [resume]. unfold catchLoad. destruct (decide _); [done|]. apply E.
    + destruct (undisturbed_load_default caller
                  (reportLoadFailure (LoadError (lang +:+ ".json"))
                     (addRequest (localePath lang) st)))
        as (j & Hj & E).
      exists (S j). split; [lia|]. intros k.
      change (S j + k)%nat with (S (j + k)). rewrite undisturbed_step.
      cbn [resume]. rewrite En. unfold catchLoad. cbn [negb].
      destruct (decide _); [done|]. apply E.
Qed.

Lemma undisturbed_awaited caller fuel lang st :
  (5 ≤ fuel)%nat →
  undisturbed W fuel (issueFetch caller lang st).1 (issueFetch caller lang st).2
  = (resume W (AwaitLoad caller) (loadTranslations W lang st).2).
Proof.
  intros Hf. destruct (undisturbed_load caller lang st) as (j & Hj & E).
  replace fuel with (j + S (fuel - j - 1))%nat by lia.
  rewrite E, undisturbed_step.
  destruct caller as [|lang']; cbn [resume].
  - destruct (afterLoadInit W _) as [r st']. apply undisturbed_settled.
  - destruct (afterLoad W lang' _) as [r st']. apply undisturbed_settled.
Qed.

(** [setLanguage] as a whole call is the call cut at its [await]s, when
    nothing else runs in between. *)
Lemma setLanguage_undisturbed lang st :
  undisturbed W 5 (callSetLanguage lang st).1 (callSetLanguage lang st).2
  = ((setLanguage W lang st).2, Settled (setLanguage W lang st).1).
Proof.
  unfold callSetLanguage. destruct (isSupported lang) eqn:Hs; cbn [negb].
  2:{ by rewrite setLanguage_reject. }
  destruct (decide (lang = currentLanguage st)) as [->|Hne].
  { rewrite bool_decide_eq_true_2 by done. by rewrite setLanguage_same. }
  rewrite bool_decide_eq_false_2 by done.
  rewrite (setLanguage_switch W lang st Hs Hne).
  pose proof (persist_normal lang (setCurrentLanguage lang st)) as Hn.
  destruct (tryCatch _ _ (setCurrentLanguage lang st)) as [r st2] eqn:E.
  simpl in Hn. subst r. rewrite (bind_normal _ _ _ _ _ E).
  rewrite undisturbed_awaited by lia. cbn [resume].
  pose proof (loadTranslations_normal W lang st2) as Hl.
  destruct (loadTranslations W lang st2) as [r st3] eqn:El. simpl in Hl. subst r.
  rewrite (bind_normal _ _ _ _ _ El). cbn [snd].
  by destruct (afterLoad W lang st3).
Qed.

(** And so is [init]. *)
Lemma init_undisturbed st :
  undisturbed W 5 (callInit W st).1 (callInit W st).2
  = ((init W st).2, Settled (init W st).1).
Proof.
  unfold callInit. destruct (isInitialized st) eqn:Hi.
  { by rewrite init_again. }
  rewrite (init_first W st Hi), resolveLanguage_eq.
  cbn [currentLanguage setCurrentLanguage].
  rewrite undisturbed_awaited by lia. cbn [resume].
  pose proof (loadTranslations_normal W (resolved W st)
                (setCurrentLanguage (resolved W st) st)) as Hl.
  destruct (loadTranslations W _ _) as [r st3] eqn:El. simpl in Hl. subst r.
  rewrite (bind_normal _ _ _ _ _ El). cbn [snd].
  by destruct (afterLoadInit W st3).
Qed.

(** *** What holds whatever runs in between *)

Lemma run_snoc d s turns t :
  run W d s (turns ++ [t]) = turn W (run W d s turns) t.
Proof. unfold run. by rewrite foldl_app. Qed.

Lemma catchLoad_invariant caller lang error st :
  moduleInvariant W st →
  moduleInvariant W (catchLoad caller lang error st).1 ∧
  ∀ q, (catchLoad caller lang error st).2 = Suspended q → pendingSupported W q.
Proof.
  intros Hi. unfold catchLoad. destruct (decide _).
  - split; [done|]. by intros q [= <-].
  - split; [done|]. intros q [= <-]. apply default_supported.
Qed.

Lemma resume_invariant p st :
  pendingSupported W p → moduleInvariant W st →
  moduleInvariant W (resume W p st).1 ∧
  ∀ q, (resume W p st).2 = Suspended q → pendingSupported W q.
Proof.
  intros Hp Hi. destruct p as [caller lang n|caller lang json|caller]; cbn [resume].
  - destruct (network W n (localePath lang)) as [|ok json] eqn:En.
    { by apply catchLoad_invariant. }
    destruct ok; cbn [negb]; [|by apply catchLoad_invariant].
    split; [done|]. intros q [= <-]. split; [done|]. by exists n.
  - destruct Hp as [Hl [n Hn]]. destruct json as [v|]; [|by apply catchLoad_invariant].
    split; [|by intros q [= <-]].
    destruct Hi as [Hc _]. split; [done|]. right. exists lang. split; [done|].
    by exists n.
  - destruct caller as [|lang].
    + pose proof (afterLoadInit_keeps W st) as (Hc & Ht & _).
      destruct (afterLoadInit W st) as [r st']. simpl in *. split; [|done].
      destruct Hi as [? ?]. unfold moduleInvariant. by rewrite Hc, Ht.
    + pose proof (afterLoad_keeps W lang st) as (Hc & Ht & _).
      destruct (afterLoad W lang st) as [r st']. simpl in *. split; [|done].
      destruct Hi as [? ?]. unfold moduleInvariant. by rewrite Hc, Ht.
Qed.

Lemma callInit_invariant st :
  moduleInvariant W st →
  moduleInvariant W (callInit W st).1 ∧
  ∀ q, (callInit W st).2 = Suspended q → pendingSupported W q.
Proof.
  intros Hi. unfold callInit. destruct (isInitialized st); [done|].
  rewrite resolveLanguage_eq. cbn [issueFetch fst snd].
  destruct Hi as [_ Hk]. split.
  - split; [apply resolved_supported|done].
  - intros q [= <-]. apply resolved_supported.
Qed.

Lemma callSetLanguage_invariant lang st :
  moduleInvariant W st →
  moduleInvariant W (callSetLanguage lang st).1 ∧
  ∀ q, (callSetLanguage lang st).2 = Suspended q → pendingSupported W q.
Proof.
  intros Hi. unfold callSetLanguage. destruct (isSupported lang) eqn:Hs; [|done].
  cbn [negb]. destruct (bool_decide _); [done|].
  pose proof (persist_keeps lang (setCurrentLanguage lang st)) as (Hc & Ht & _).
  pose proof (persist_normal lang (setCurrentLanguage lang st)) as Hn.
  destruct (tryCatch _ _ _) as [r st2]. simpl in *. subst r.
  apply isSupported_true in Hs. cbn [issueFetch fst snd]. split.
  - destruct Hi as [_ Hk]. unfold moduleInvariant. simpl. by rewrite Hc, Ht.
  - by intros q [= <-].
Qed.

(** On every schedule the active code is a supported one, the dataset
    is the empty one or one served for a supported language, and the
    suspended loads are for supported languages. *)
Lemma run_invariant d s turns :
  moduleInvariant W (now (run W d s turns)) ∧
  Forall (pendingSupported W) (suspended (run W d s turns)).
Proof.
  induction turns as [|t turns [IH1 IH2]] using rev_ind.
  { split; [|done]. split; [apply default_supported|by left]. }
  rewrite run_snoc. set (c := run W d s turns) in *.
  destruct t as [|lang|i|d' s']; cbn [turn].
  - destruct (callInit_invariant (now c) IH1) as [H1 H2].
    unfold called. destruct (callInit W (now c)) as [st' [q|r]]; simpl in *.
    + split; [done|]. apply Forall_app. split; [done|]. by apply Forall_singleton, H2.
    + done.
  - destruct (callSetLanguage_invariant lang (now c) IH1) as [H1 H2].
    unfold called. destruct (callSetLanguage lang (now c)) as [st' [q|r]]; simpl in *.
    + split; [done|]. apply Forall_app. split; [done|]. by apply Forall_singleton, H2.
    + done.
  - destruct (suspended c !! i) as [p|] eqn:Ep; [|done].
    assert (pendingSupported W p) as Hp.
    { rewrite Forall_forall in IH2. eapply IH2, list_elem_of_lookup_2, Ep. }
    destruct (resume_invariant p (now c) Hp IH1) as [H1 H2].
    unfold resumed. destruct (resume W p (now c)) as [st' [q|r]]; simpl in *.
    + split; [done|]. apply Forall_insert; [done|]. by apply H2.
    + split; [done|]. by apply Forall_delete.
  - done.
Qed.

(** *** Whole calls are schedules *)

Lemma run_app d s turns turns' :
  run W d s (turns ++ turns') = foldl (turn W) (run W d s turns) turns'.
Proof. unfold run. by rewrite foldl_app. Qed.

Lemma turns_undisturbed fuel st r :
  foldl (turn W) (called (st, r) []) (replicate fuel (TurnResume 0))
  = called (undisturbed W fuel st r) [].
Proof.
  revert st r. induction fuel as [|fuel IH]; intros st r; [by destruct r|].
  destruct r as [p|r].
  - cbn [replicate foldl]. rewrite undisturbed_step.
    unfold called at 1. cbn [fst snd app turn now suspended lookup list_lookup].
    destruct (resume W p st) as [st' r'] eqn:E. cbn [fst snd].
    rewrite <- IH. f_equal; try (unfold resumed, called; cbn [fst snd]; by destruct r').
  - rewrite undisturbed_settled. unfold called. cbn [fst snd].
    clear IH. induction fuel as [|fuel IH]; [done|]. exact IH.
Qed.

(** Every state that whole calls reach is the state of a schedule, one
    in which every call is resumed until it has come to its end before
    the next turn. *)
Lemma reachable_run st :
  reachable W st →
  ∃ d s turns, run W d s turns = {| now := st; suspended := [] |}.
Proof.
  induction 1 as [d s|st _ (d & s & turns & IH)|lang st _ (d & s & turns & IH)
                 |d' s' st _ (d & s & turns & IH)].
  - by exists d, s, [].
  - exists d, s, (turns ++ TurnInit :: replicate 5 (TurnResume 0)).
    rewrite run_app, IH. cbn [foldl turn now suspended].
    destruct (callInit W st) as [st1 r1] eqn:E.
    rewrite turns_undisturbed.
    pose proof (init_undisturbed st) as Hu. rewrite E in Hu. cbn [fst snd] in Hu.
    by rewrite Hu.
  - exists d, s, (turns ++ TurnSetLanguage lang :: replicate 5 (TurnResume 0)).
    rewrite run_app, IH. cbn [foldl turn now suspended].
    destruct (callSetLanguage lang st) as [st1 r1] eqn:E.
    rewrite turns_undisturbed.
    pose proof (setLanguage_undisturbed lang st) as Hu.
    rewrite E in Hu. cbn [fst snd] in Hu. by rewrite Hu.
  - exists d, s, (turns ++ [TurnPage d' s']). by rewrite run_snoc, IH.
Qed.

Lemma reachable_scheduled st : reachable W st → scheduled W st.
Proof.
  intros (d & s & turns & E)%reachable_run. exists d, s, turns. by rewrite E.
Qed.

End overlap_facts.

(** C5.  [setLanguage] with an unsupported code is a no-op that is
    reported as an error: one line goes to the error console and the
    rest of the state is what it was.  The active code, the dataset and
    the initialisation flag are unchanged, no request is issued, the
    storage and the document are untouched and no event is dispatched. *)
Theorem setLanguage_unsupported (W : World) (lang : string) (st : State) :
  isSupported lang = false →
  setLanguage W lang st
  = (Normal (), addConsoleError ("Unsupported language: " +:+ lang) None st) ∧
  currentLanguage (setLanguage W lang st).2 = currentLanguage st ∧
  translations (setLanguage W lang st).2 = translations st ∧
  isInitialized (setLanguage W lang st).2 = isInitialized st ∧
  requests (setLanguage W lang st).2 = requests st ∧
  storage (setLanguage W lang st).2 = storage st ∧
  document (setLanguage W lang st).2 = document st ∧
  dispatched (setLanguage W lang st).2 = dispatched st ∧
  consoleErrors (setLanguage W lang st).2
  = consoleErrors st ++ [("Unsupported language: " +:+ lang, None)].
Proof. intros Hs. by rewrite (setLanguage_reject W lang st Hs). Qed.

(** C6.  In every reachable state, [setLanguage] with the code that is
    already active is a silent no-op: the call completes and the state is
    the one it started from, so no request is issued, nothing is stored,
    no event is dispatched and nothing is reported. *)
Theorem setLanguage_active (W : World) (st : State) :
  reachable W st →
  setLanguage W (currentLanguage st) st = (Normal (), st).
Proof.
  intros Hr. apply setLanguage_same, isSupported_true.
  by destruct (reachable_invariant W st Hr).
Qed.

(** C9, as amended.  In every state of every schedule (initialisation
    and switches in any order, overlapping or not) the active language
    code is a member of the supported set, and the dataset in memory is
    the empty one the module starts with or one served for a supported
    language.  Initialisation, and a switch to a supported code other
    than the active one, when nothing runs between the call and its
    end, make the resolved (requested) code the active one and leave in
    memory the dataset of that code when its fetch succeeded, the
    dataset of the default code when only the fallback fetch succeeded
    (the active code is still the requested one), and the dataset that
    was in memory before when no fetch succeeded. *)
Theorem reachable_languages (W : World) (st : State) :
  scheduled W st →
  currentLanguage st ∈ CONFIG.supportedLanguages ∧
  knownDataset W (translations st) ∧
  (∀ lang,
     lang ∈ CONFIG.supportedLanguages → lang ≠ currentLanguage st →
     currentLanguage (setLanguage W lang st).2 = lang ∧
     datasetAfterLoad W lang (length (requests st)) (translations st)
       (translations (setLanguage W lang st).2)) ∧
  (isInitialized st = false →
   ∃ code,
     resolveLanguage W st = (Normal code, st) ∧
     currentLanguage (init W st).2 = code ∧
     datasetAfterLoad W code (length (requests st)) (translations st)
       (translations (init W st).2)).
Proof.
  intros (d & s & turns & ->).
  destruct (run_invariant W d s turns) as [[Hc Hk] _].
  set (st := now (run W d s turns)) in *.
  split; [done|]. split; [done|]. split.
  - intros lang Hs Hne. apply isSupported_true in Hs.
    destruct (setLanguage_switch_loaded W lang st Hs Hne)
      as (st2 & st3 & (Ec2 & Et2 & Er2) & Hl & (Ec & Et & _)).
    rewrite Ec, Et, (loaded_currentLanguage W _ _ _ Hl), Ec2.
    split; [done|].
    pose proof (loaded_datasetAfterLoad W _ _ _ Hl) as Hd.
    by rewrite Er2, Et2 in Hd.
  - intros Hi. exists (resolved W st). split; [apply resolveLanguage_eq|].
    destruct (init_loaded W st Hi) as (st3 & Hl & (Ec & Et & _)).
    rewrite Ec, Et, (loaded_currentLanguage W _ _ _ Hl). split; [done|].
    apply (loaded_datasetAfterLoad W _ _ _ Hl).
Qed.

(** ** Class tokens *)

Section token_facts.

Lemma pieces_noSpace s : Forall (λ w, noSpace w = true) (Dom.pieces s).
Proof.
  induction s as [|c rest IH]; simpl.
  - by repeat constructor.
  - destruct (Dom.isAsciiSpace c) eqn:Hc; [by constructor|].
    destruct (Dom.pieces rest) as [|w ws]; [by repeat constructor; simpl; rewrite Hc|].
    inversion IH; subst. constructor; [|done]. simpl. by rewrite Hc.
Qed.

Lemma pieces_single x : noSpace x = true → Dom.pieces x = [x].
Proof.
  induction x as [|c rest IH]; simpl; [done|].
  intros [Hc Hr]%andb_true_iff. apply negb_true_iff in Hc.
  by rewrite Hc, (IH Hr).
Qed.

Lemma pieces_app x s :
  noSpace x = true → Dom.pieces (x +:+ String " " s) = x :: Dom.pieces s.
Proof.
  induction x as [|c rest IH]; simpl; [done|].
  intros [Hc Hr]%andb_true_iff. apply negb_true_iff in Hc.
  by rewrite Hc, (IH Hr).
Qed.

Lemma validToken_noSpace x : validToken x = true → noSpace x = true.
Proof. unfold validToken. by intros [_ ?]%andb_true_iff. Qed.

Lemma validToken_nonempty x : validToken x = true → x ≠ EmptyString.
Proof. unfold validToken. by destruct x. Qed.

Lemma pieces_serialize l :
  Forall (λ w, validToken w = true) l → l ≠ [] →
  Dom.pieces (Dom.serializeTokens l) = l.
Proof.
  induction 1 as [|x l Hx Hl IH]; [done|]. intros _.
  destruct l as [|y r].
  - simpl. by apply pieces_single, validToken_noSpace.
  - change (Dom.serializeTokens (x :: y :: r))
      with (x +:+ String " " (Dom.serializeTokens (y :: r))).
    rewrite pieces_app by by apply validToken_noSpace.
    by rewrite IH.
Qed.

Lemma elem_of_orderedSet x l : x ∈ Dom.orderedSet l ↔ x ∈ l.
Proof.
  induction l as [|y r IH]; simpl; [done|].
  rewrite !elem_of_cons, list_elem_of_filter, IH.
  destruct (decide (x = y)); naive_solver.
Qed.

Lemma elem_of_parseTokens x s :
  x ∈ Dom.parseTokens s ↔ x ≠ EmptyString ∧ x ∈ Dom.pieces s.
Proof.
  unfold Dom.parseTokens. by rewrite elem_of_orderedSet, list_elem_of_filter.
Qed.

Lemma parseTokens_valid s : Forall (λ w, validToken w = true) (Dom.parseTokens s).
Proof.
  apply Forall_forall. intros x [Hne Hx]%elem_of_parseTokens.
  pose proof (pieces_noSpace s) as Hp.
  rewrite Forall_forall in Hp. unfold validToken.
  rewrite (Hp x Hx). by destruct x.
Qed.

(** Parsing what was serialised gives the tokens back. *)
Lemma elem_of_parse_serialize x l :
  Forall (λ w, validToken w = true) l →
  x ∈ Dom.parseTokens (Dom.serializeTokens l) ↔ x ∈ l.
Proof.
  intros Hl. rewrite elem_of_parseTokens.
  destruct l as [|y r].
  - simpl. rewrite list_elem_of_singleton, elem_of_nil. naive_solver.
  - rewrite pieces_serialize by done. split; [naive_solver|].
    intros Hx. split; [|done]. rewrite Forall_forall in Hl.
    by apply validToken_nonempty, Hl.
Qed.

Lemma classList_valid attrs : Forall (λ w, validToken w = true) (Dom.classList attrs).
Proof. apply parseTokens_valid. Qed.

Lemma classList_insert_class attrs l x :
  Forall (λ w, validToken w = true) l →
  x ∈ Dom.classList (<["class" := Dom.serializeTokens l]> attrs) ↔ x ∈ l.
Proof.
  intros Hl. unfold Dom.classList. rewrite lookup_insert_eq. simpl.
  by apply elem_of_parse_serialize.
Qed.

(** [toggle] with a [force] argument sets the presence of its token and
    of no other. *)
Lemma hasClass_toggleClass token force attrs x :
  validToken token = true →
  Dom.hasClass x (Dom.toggleClass token force attrs)
  = if decide (x = token) then force else Dom.hasClass x attrs.
Proof.
  intros Hv. unfold Dom.hasClass, Dom.toggleClass.
  pose proof (classList_valid attrs) as Hc.
  assert (Forall (λ w, validToken w = true)
            (filter (λ y, y ≠ token) (Dom.classList attrs))) as Hc1.
  { apply Forall_forall. intros y [_ Hy]%list_elem_of_filter.
    rewrite Forall_forall in Hc. by apply Hc. }
  assert (Forall (λ w, validToken w = true) (Dom.classList attrs ++ [token])) as Hc2.
  { apply Forall_app. split; [done|]. by repeat constructor. }
  destruct (decide (token ∈ Dom.classList attrs)) as [Hin|Hnin].
  - rewrite (bool_decide_eq_true_2 _ Hin).
    destruct force, (decide (x = token)) as [->|Hne]; try done.
    + by apply bool_decide_eq_true_2.
    + apply bool_decide_eq_false_2.
      rewrite (classList_insert_class _ _ _ Hc1), list_elem_of_filter. naive_solver.
    + apply bool_decide_ext.
      rewrite (classList_insert_class _ _ _ Hc1), list_elem_of_filter. naive_solver.
  - rewrite (bool_decide_eq_false_2 _ Hnin).
    destruct force, (decide (x = token)) as [->|Hne]; try done.
    + apply bool_decide_eq_true_2.
      rewrite (classList_insert_class _ _ _ Hc2), elem_of_app, list_elem_of_singleton.
      by right.
    + apply bool_decide_ext.
      rewrite (classList_insert_class _ _ _ Hc2), elem_of_app, list_elem_of_singleton.
      naive_solver.
    + by apply bool_decide_eq_false_2.
Qed.

Lemma hasClass_insert_other name value attrs x :
  name ≠ "class" →
  Dom.hasClass x (<[name := value]> attrs) = Dom.hasClass x attrs.
Proof.
  intros Hn. unfold Dom.hasClass, Dom.classList. by rewrite lookup_insert_ne.
Qed.

End token_facts.

(** ** Direction and locale attributes *)

Section direction_facts.

Lemma updateBody_Some f r r' :
  Dom.updateBody f r = Some r' →
  ∃ a, Dom.bodyAttributes r = Some a ∧
       Dom.bodyAttributes r' = Some (f a) ∧
       Dom.rootAttributes r' = Dom.rootAttributes r.
Proof.
  destruct r as [|tag attrs children]; [done|]. simpl.
  destruct (bool_decide (tag = "html")) eqn:Ht; [|done].
  destruct (Dom.updateFirstOf _ children) as [children'|] eqn:E; [|done].
  intros [= <-]. simpl. rewrite Ht.
  revert children' E. induction children as [|n rest IH]; intros children' E; [done|].
  simpl in E. destruct n as [s|tag' attrs' ch'].
  - simpl in E. destruct (Dom.updateFirstOf _ rest) as [rest'|] eqn:E'; [|done].
    injection E as <-. simpl. by apply IH.
  - destruct (Dom.isBody (Elem tag' attrs' ch')) eqn:Hb.
    + injection E as <-. exists attrs'. simpl in *. by rewrite Hb.
    + destruct (Dom.updateFirstOf _ rest) as [rest'|] eqn:E'; [|done].
      injection E as <-. simpl in *. rewrite Hb. by apply IH.
Qed.

Lemma sameElement_isBody current n n' :
  sameElement current n n' → Dom.isBody n' = Dom.isBody n.
Proof. destruct n, n'; simpl; try done. by intros [-> _]. Qed.

Lemma markButtons_sameElement current n : sameElement current n (markButtons current n).
Proof. destruct n; simpl; [done|]. by split; [|right]. Qed.

Lemma updateSelector_sameElement current n n' :
  updateSelector current n = Some n' → sameElement current n n'.
Proof.
  destruct n as [|tag attrs children]; [done|]. simpl.
  destruct (bool_decide _).
  - intros [= <-]. by split; [|left].
  - destruct (Dom.updateFirstOf _ children); [|done].
    intros [= <-]. by split; [|left].
Qed.

Lemma sameElement_refl current n : sameElement current n n.
Proof. destruct n; simpl; [done|]. by split; [|left]. Qed.

Lemma updateFirstOf_sameElement current children children' :
  Dom.updateFirstOf (updateSelector current) children = Some children' →
  Forall2 (sameElement current) children children'.
Proof.
  revert children'. induction children as [|n rest IH]; intros children'; [done|].
  simpl. destruct (updateSelector current n) as [n'|] eqn:E.
  - intros [= <-]. constructor; [by apply updateSelector_sameElement|].
    apply Forall2_same_length_lookup. split; [done|].
    intros i x y Hx Hy. rewrite Hx in Hy. injection Hy as <-. apply sameElement_refl.
  - destruct (Dom.updateFirstOf _ rest) as [rest'|]; [|done].
    intros [= <-]. constructor; [apply sameElement_refl|by apply IH].
Qed.

Lemma find_isBody_sameElement current l l' :
  Forall2 (sameElement current) l l' →
  match find Dom.isBody l, find Dom.isBody l' with
  | Some n, Some n' => sameElement current n n'
  | None, None => True
  | _, _ => False
  end.
Proof.
  induction 1 as [|n n' l l' Hn _ IH]; simpl; [done|].
  rewrite (sameElement_isBody _ _ _ Hn). by destruct (Dom.isBody n).
Qed.

Lemma updateSelector_root current r r' :
  updateSelector current r = Some r' →
  Dom.rootAttributes r' = Dom.rootAttributes r ∧
  ∀ a, Dom.bodyAttributes r = Some a →
       ∃ a', Dom.bodyAttributes r' = Some a' ∧
             (a' = a ∨ a' = markButton current a).
Proof.
  destruct r as [|tag attrs children]; [done|]. simpl.
  assert (∀ children',
            Forall2 (sameElement current) children children' →
            ∀ a, Dom.bodyAttributes (Elem tag attrs children) = Some a →
                 ∃ a', Dom.bodyAttributes (Elem tag attrs children') = Some a' ∧
                       (a' = a ∨ a' = markButton current a)) as Hbody.
  { intros children' HF a. simpl. destruct (bool_decide (tag = "html")); [|done].
    pose proof (find_isBody_sameElement _ _ _ HF) as Hf.
    destruct (find Dom.isBody children) as [n|], (find Dom.isBody children') as [n'|];
      try done.
    destruct n as [|tg at' ch], n' as [|tg' at'' ch']; try done. simpl.
    intros [= <-]. destruct Hf as [_ Hf]. by exists at''. }
  destruct (bool_decide _).
  - intros [= <-]. split; [done|]. apply Hbody.
    apply Forall2_fmap_r, Forall_Forall2_diag, Forall_forall.
    intros n _. apply markButtons_sameElement.
  - destruct (Dom.updateFirstOf _ children) as [children'|] eqn:E; [|done].
    intros [= <-]. split; [done|]. apply Hbody.
    by apply updateFirstOf_sameElement.
Qed.

Lemma hasClass_markButton current attrs x :
  x ≠ "active" →
  Dom.hasClass x (markButton current attrs) = Dom.hasClass x attrs.
Proof.
  intros Hx. unfold markButton. destruct (attrs !! "data-lang"); [|done].
  rewrite hasClass_insert_other by done.
  rewrite hasClass_toggleClass by done. by destruct (decide _).
Qed.

(** What [updateDocumentAttributes] leaves when it completes. *)
Lemma updateDocumentAttributes_normal st st' :
  updateDocumentAttributes st = (Normal (), st') →
  sameModule st st' ∧
  ∃ attrs body,
    Dom.rootAttributes (docRoot (document st')) = Some attrs ∧
    attrs !! "lang" = Some (currentLanguage st) ∧
    attrs !! "dir"
    = Some (if isRtlLanguage (currentLanguage st) then "rtl" else "ltr") ∧
    Dom.bodyAttributes (docRoot (document st')) = Some body ∧
    Dom.hasClass "rtl" body = isRtlLanguage (currentLanguage st) ∧
    Dom.hasClass "ltr" body = negb (isRtlLanguage (currentLanguage st)).
Proof.
  unfold updateDocumentAttributes.
  destruct (docRoot (document st)) as [|tag attrs children]; [done|].
  destruct (Dom.updateBody _ _) as [root2|] eqn:E; [|done].
  intros [= <-]. split; [done|].
  apply updateBody_Some in E as (a & _ & Hb & Hr). simpl in Hr.
  eexists _, _. split; [exact Hr|]. split; [|split; [|split; [exact Hb|]]].
  - by rewrite lookup_insert_ne, lookup_insert_eq.
  - by rewrite lookup_insert_eq.
  - rewrite !hasClass_toggleClass by done. simpl. split; [done|].
    by destruct (isRtlLanguage _).
Qed.

(** [updateLanguageSelectorUI] leaves the root's attributes and the
    direction classes of the body as they are. *)
Lemma updateLanguageSelectorUI_normal st st' :
  updateLanguageSelectorUI st = (Normal (), st') →
  Dom.rootAttributes (docRoot (document st'))
  = Dom.rootAttributes (docRoot (document st)) ∧
  ∀ a, Dom.bodyAttributes (docRoot (document st)) = Some a →
       ∃ a', Dom.bodyAttributes (docRoot (document st')) = Some a' ∧
             Dom.hasClass "rtl" a' = Dom.hasClass "rtl" a ∧
             Dom.hasClass "ltr" a' = Dom.hasClass "ltr" a.
Proof.
  unfold updateLanguageSelectorUI.
  destruct (updateSelector _ _) as [root'|] eqn:E; intros [= <-].
  - apply updateSelector_root in E as [Hr Hb]. split; [done|].
    intros a Ha. destruct (Hb a Ha) as (a' & Ha' & [->| ->]).
    + by exists a.
    + eexists. split; [exact Ha'|]. by rewrite !hasClass_markButton.
  - split; [done|]. intros a Ha. by exists a.
Qed.

Lemma hasClass_addClass token attrs x :
  validToken token = true → x ≠ token →
  Dom.hasClass x (Dom.addClass token attrs) = Dom.hasClass x attrs.
Proof.
  intros Hv Hx. unfold Dom.hasClass, Dom.addClass. apply bool_decide_ext.
  pose proof (classList_valid attrs) as Hc.
  rewrite classList_insert_class.
  - destruct (bool_decide _); [done|].
    rewrite elem_of_app, list_elem_of_singleton. naive_solver.
  - destruct (bool_decide _); [done|].
    apply Forall_app. split; [done|]. by repeat constructor.
Qed.

(** [document.body.classList.add] leaves the root's attributes and the
    direction classes of the body as they are. *)
Lemma bodyClassListAdd_normal token st st' :
  validToken token = true → token ≠ "rtl" → token ≠ "ltr" →
  bodyClassListAdd token st = (Normal (), st') →
  Dom.rootAttributes (docRoot (document st'))
  = Dom.rootAttributes (docRoot (document st)) ∧
  ∀ a, Dom.bodyAttributes (docRoot (document st)) = Some a →
       ∃ a', Dom.bodyAttributes (docRoot (document st')) = Some a' ∧
             Dom.hasClass "rtl" a' = Dom.hasClass "rtl" a ∧
             Dom.hasClass "ltr" a' = Dom.hasClass "ltr" a.
Proof.
  intros Hv Hr Hl. unfold bodyClassListAdd.
  destruct (Dom.updateBody _ _) as [root'|] eqn:E; [|done]. intros [= <-].
  apply updateBody_Some in E as (a0 & Ha0 & Ha' & Hroot). split; [done|].
  intros a Ha. rewrite Ha in Ha0. injection Ha0 as <-.
  eexists. split; [exact Ha'|]. by rewrite !hasClass_addClass.
Qed.

End direction_facts.

Section switch_facts.
Context (W : World).

(** What follows the [await] of a switch, when it completes. *)
Lemma afterLoad_direction lang st st' :
  afterLoad W lang st = (Normal (), st') →
  currentLanguage st' = currentLanguage st ∧ directionSet (currentLanguage st) st'.
Proof.
  intros E. pose proof (afterLoad_keeps W lang st) as (Hc & _). rewrite E in Hc.
  split; [done|]. unfold afterLoad in E.
  apply bind_inv_normal in E as ([] & st4 & E4 & E).
  apply bind_inv_normal in E as ([] & st5 & E5 & E).
  apply bind_inv_normal in E as ([] & st6 & E6 & E).
  injection E as <-.
  pose proof (applyTranslations_keeps W st) as (H4 & _). rewrite E4 in H4.
  simpl in H4.
  apply updateDocumentAttributes_normal in E5
    as (_ & attrs & body & Hr & Hlang & Hdir & Hb & Hrtl & Hltr).
  apply updateLanguageSelectorUI_normal in E6 as [Hr6 Hb6].
  destruct (Hb6 body Hb) as (body' & Hb' & Hrtl' & Hltr').
  rewrite H4 in *. exists attrs, body'. simpl.
  rewrite Hr6, Hr, Hb', Hrtl', Hltr', Hrtl, Hltr, Hlang, Hdir.
  unfold isRtlLanguage. split; [done|]. split; [done|]. split; [done|].
  destruct (decide (currentLanguage st ∈ CONFIG.rtlLanguages)) as [Hin|Hnin].
  - rewrite (bool_decide_eq_true_2 _ Hin). simpl. naive_solver.
  - rewrite (bool_decide_eq_false_2 _ Hnin). simpl. naive_solver.
Qed.

End switch_facts.

(** C7, as amended.  When a switch to [lang] completes, whatever ran
    between the call and what follows its [await], the root element's
    [lang] attribute is the code that is active at that moment, its
    [dir] attribute is ["rtl"] when that code is in the right-to-left
    set and ["ltr"] when it is not, and of the two direction classes of
    the body exactly one is set, [rtl] when the code is in the
    right-to-left set and [ltr] otherwise.  When nothing runs in
    between, the active code is [lang]. *)
Theorem setLanguage_direction (W : World) (lang : string) :
  (∀ st st',
     resume W (AwaitLoad (CallerSetLanguage lang)) st = (st', Settled (Normal ())) →
     currentLanguage st' = currentLanguage st ∧
     directionSet (currentLanguage st') st') ∧
  (∀ st st',
     isSupported lang = true → lang ≠ currentLanguage st →
     setLanguage W lang st = (Normal (), st') →
     currentLanguage st' = lang ∧ directionSet lang st').
Proof.
  split.
  - intros st st'. cbn [resume].
    destruct (afterLoad W lang st) as [r st1] eqn:E. intros [= <- ->].
    destruct (afterLoad_direction W lang st st1 E) as [Hc Hd]. by rewrite Hc.
  - intros st st' Hs Hne. rewrite (setLanguage_switch W lang st Hs Hne).
    set (st1 := setCurrentLanguage lang st). intros E.
    apply bind_inv_normal in E as ([] & st2 & E2 & E).
    apply bind_inv_normal in E as ([] & st3 & E3 & E).
    assert (currentLanguage st3 = lang) as Hcur.
    { pose proof (persist_keeps lang st1) as (H2 & _). rewrite E2 in H2.
      destruct (loadTranslations_loaded W lang st2) as (st3' & El & Hl).
      rewrite E3 in El. injection El as <-. simpl in H2.
      by rewrite (loaded_currentLanguage W _ _ _ Hl), H2. }
    destruct (afterLoad_direction W lang st3 st' E) as [Hc Hd].
    by rewrite Hc, <- Hcur.
Qed.

(** C7 fails when two switches overlap, and before the first call.  On
    the page of the examples a click on the Arabic button is followed
    by a click on the English button before the Arabic dataset has
    arrived.  The call for Arabic comes to its end (the Arabic dataset
    is in memory and [i18n:languageChanged] is dispatched for ["ar"])
    with ["en"] as the root's [lang] and ["ltr"] as its [dir], since
    [updateDocumentAttributes] reads the active code, which the second
    click has set.  And the body of the page as it is served has neither
    direction class. *)
Lemma setLanguage_direction_overlap :
  last (dispatched (now afterTwoClicks)) = Some (I18nLanguageChanged "ar") ∧
  translations (now afterTwoClicks) = Example.arabic ∧
  currentLanguage (now afterTwoClicks) = "en" ∧
  Dom.rootAttributes (docRoot (document (now afterTwoClicks))) ≫= (λ a, a !! "lang")
  = Some "en" ∧
  Dom.rootAttributes (docRoot (document (now afterTwoClicks))) ≫= (λ a, a !! "dir")
  = Some "ltr" ∧
  Dom.hasClass "rtl" <$> Dom.bodyAttributes (docRoot Example.page) = Some false ∧
  Dom.hasClass "ltr" <$> Dom.bodyAttributes (docRoot Example.page) = Some false.
Proof. vm_compute. repeat split. Qed.

(** The same after an initialisation that completes, for the code that
    language resolution yields. *)
Lemma init_direction (W : World) (st st' : State) :
  isInitialized st = false →
  init W st = (Normal (), st') →
  ∃ attrs body,
    Dom.rootAttributes (docRoot (document st')) = Some attrs ∧
    Dom.bodyAttributes (docRoot (document st')) = Some body ∧
    attrs !! "lang" = Some (resolved W st) ∧
    attrs !! "dir"
    = Some (if isRtlLanguage (resolved W st) then "rtl" else "ltr") ∧
    Dom.hasClass "rtl" body = isRtlLanguage (resolved W st) ∧
    Dom.hasClass "ltr" body = negb (isRtlLanguage (resolved W st)).
Proof.
  intros Hi. rewrite (init_first W st Hi).
  set (st1 := setCurrentLanguage (resolved W st) st). intros E.
  apply bind_inv_normal in E as ([] & st3 & E3 & E).
  unfold afterLoadInit in E.
  apply bind_inv_normal in E as ([] & st4 & E4 & E).
  apply bind_inv_normal in E as ([] & st5 & E5 & E).
  apply bind_inv_normal in E as ([] & st6 & E6 & E).
  apply bind_inv_normal in E as ([] & st7 & E7 & E).
  apply bind_inv_normal in E as ([] & st8 & E8 & E).
  apply bind_inv_normal in E as (current' & st9 & E9 & E).
  injection E7 as <-. injection E9 as <- <-. injection E as <-.
  assert (currentLanguage st4 = resolved W st) as Hcur.
  { destruct (loadTranslations_loaded W (resolved W st) st1) as (st3' & El & Hl).
    rewrite E3 in El. injection El as <-.
    pose proof (applyTranslations_keeps W st3) as (H4 & _). rewrite E4 in H4.
    simpl in H4. by rewrite H4, (loaded_currentLanguage W _ _ _ Hl). }
  apply updateDocumentAttributes_normal in E5
    as (_ & attrs & body & Hr & Hlang & Hdir & Hb & Hrtl & Hltr).
  apply updateLanguageSelectorUI_normal in E6 as [Hr6 Hb6].
  destruct (Hb6 body Hb) as (body' & Hb' & Hrtl' & Hltr').
  apply bodyClassListAdd_normal in E8 as [Hr8 Hb8]; [|done..].
  destruct (Hb8 body' Hb') as (body'' & Hb'' & Hrtl'' & Hltr'').
  rewrite Hcur in *. exists attrs, body''. simpl in *.
  by rewrite Hr8, Hr6, Hr, Hb'', Hrtl'', Hltr'', Hrtl', Hltr', Hrtl, Hltr, Hlang, Hdir.
Qed.

(** ** Rendering twice *)

(** Induction on a tree, with the hypothesis for every child. *)
Lemma node_children_ind (P : node → Prop) :
  (∀ s, P (Text s)) →
  (∀ tag attrs children, Forall P children → P (Elem tag attrs children)) →
  ∀ n, P n.
Proof.
  intros HText HElem. fix IH 1. intros [s|tag attrs children]; [apply HText|].
  apply HElem. induction children as [|c rest IHrest]; constructor.
  - apply IH.
  - apply IHrest.
Qed.

Section attribute_facts.
Context (H : Host) (translations : value).

Lemma translateAttribute_effect entry attrs :
  translateAttribute H translations entry attrs =
  match entryEffect H translations entry with
  | Normal None => Normal attrs
  | Normal (Some w) => Normal (<[w.1 := w.2]> attrs)
  | Throw e => Throw e
  end.
Proof.
  unfold translateAttribute, entryEffect, Dom.setAttribute, entryTarget.
  destruct ((JsString.trim <$> JsString.split ":" entry) !! 1%nat) as [key|]; [|done].
  destruct (translation H translations key); try done.
  by destruct (validAttributeName H _).
Qed.

Lemma translatePairs_writes pairs attrs :
  translatePairs H translations pairs attrs
  = (applyWrites (writesOf H translations pairs).1 attrs, (writesOf H translations pairs).2).
Proof.
  revert attrs. induction pairs as [|entry rest IH]; intros attrs; [done|].
  simpl. rewrite translateAttribute_effect.
  destruct (entryEffect H translations entry) as [[w|]|e]; [|by rewrite IH|done].
  rewrite IH. by destruct (writesOf H translations rest).
Qed.

Lemma lookup_applyWrites ws attrs k :
  applyWrites ws attrs !! k
  = match lastWrite k ws with Some x => Some x | None => attrs !! k end.
Proof.
  revert attrs. induction ws as [|w rest IH]; intros attrs; [done|].
  unfold applyWrites in *. simpl. rewrite IH.
  destruct (lastWrite k rest); [done|].
  rewrite lookup_insert. by destruct (decide (w.1 = k)).
Qed.

(** Writing the same attributes again changes nothing. *)
Lemma applyWrites_twice ws attrs :
  applyWrites ws (applyWrites ws attrs) = applyWrites ws attrs.
Proof.
  apply map_eq. intros k. rewrite !lookup_applyWrites.
  by destruct (lastWrite k ws).
Qed.

(** Nor does it after another attribute has been overwritten, once that
    attribute is written over again. *)
Lemma applyWrites_insert ws attrs k v :
  <[k := v]> (applyWrites ws (<[k := v]> (applyWrites ws attrs)))
  = <[k := v]> (applyWrites ws attrs).
Proof.
  apply map_eq. intros k'. rewrite !lookup_insert.
  destruct (decide (k = k')); [done|].
  rewrite !lookup_applyWrites, lookup_insert_ne by done.
  rewrite lookup_applyWrites. by destruct (lastWrite k' ws).
Qed.

Lemma lookup_applyWrites_insert ws attrs k v k' :
  k ≠ k' →
  applyWrites ws (<[k := v]> (applyWrites ws attrs)) !! k'
  = applyWrites ws attrs !! k'.
Proof.
  intros Hne. rewrite !lookup_applyWrites, lookup_insert_ne by done.
  rewrite lookup_applyWrites. by destruct (lastWrite k' ws).
Qed.

Lemma lastWrite_None k ws :
  Forall (λ w, w.1 ≠ k) ws → lastWrite k ws = None.
Proof.
  induction 1 as [|w rest Hw _ IH]; simpl; [done|].
  rewrite IH. by destruct (decide (w.1 = k)).
Qed.

Lemma writesOf_targets pairs w :
  w ∈ (writesOf H translations pairs).1 → ∃ entry, entry ∈ pairs ∧ w.1 = entryTarget entry.
Proof.
  induction pairs as [|entry rest IH]; simpl; [by intros ?%elem_of_nil|].
  unfold entryEffect at 1.
  destruct ((JsString.trim <$> JsString.split ":" entry) !! 1%nat) as [key|];
    [|by intros ?%elem_of_nil].
  assert (w ∈ (writesOf H translations rest).1 →
          ∃ entry0, entry0 ∈ entry :: rest ∧ w.1 = entryTarget entry0) as Hrest.
  { intros (e0 & He0 & Hw)%IH. exists e0. split; [by right|done]. }
  destruct (translation H translations key); try done.
  destruct (validAttributeName H _); [|by intros ?%elem_of_nil].
  destruct (writesOf H translations rest) as [ws r]. simpl in *.
  intros [->|Hw]%elem_of_cons; [|by apply Hrest].
  exists entry. split; [by left|done].
Qed.

(** The pairs of an element with a plain map leave the marker attributes
    as they are. *)
Lemma plainMap_writes attrs attrData :
  plainMap attrs = true → attrs !! "data-i18n-attr" = Some attrData →
  ∀ k, k ∈ markerAttributes →
       lastWrite k (writesOf H translations (JsString.split "," attrData)).1 = None.
Proof.
  unfold plainMap. intros Hp Ha k Hk. rewrite Ha in Hp.
  apply lastWrite_None, Forall_forall. intros w (entry & He & Hw)%writesOf_targets.
  rewrite forallb_forall in Hp. apply list_elem_of_In, Hp in He.
  apply bool_decide_eq_true in He. congruence.
Qed.

End attribute_facts.

Section render_facts.
Context (H : Host) (translations : value).

#[local] Abbreviation TE := (translateElement H translations).
#[local] Abbreviation TA := (translateAttributes H translations).

Lemma translateElement_Elem tag attrs children :
  TE (Elem tag attrs children)
  = Elem tag attrs (default (map TE children) (replacement H translations tag attrs)).
Proof.
  unfold replacement. simpl. destruct (attrs !! "data-i18n") as [key|]; [|done].
  simpl. by destruct (translatedContent _ _ _).
Qed.

Lemma translateAttributes_Elem tag attrs children :
  TA (Elem tag attrs children) =
  let '(attrs', r) := attributeStep H translations attrs in
  match r with
  | Throw e => (Elem tag attrs' children, Throw e)
  | Normal _ =>
      let '(children', r') := Dom.forEachNode TA children in
      (Elem tag attrs' children', r')
  end.
Proof. reflexivity. Qed.

Lemma replacement_ext tag attrs attrs' :
  attrs' !! "data-i18n" = attrs !! "data-i18n" →
  replacement H translations tag attrs' = replacement H translations tag attrs.
Proof. unfold replacement. by intros ->. Qed.

Lemma map_ext_Forall {A B} (f g : A → B) l :
  Forall (λ x, f x = g x) l → map f l = map g l.
Proof. induction 1 as [|x l Hx _ IH]; simpl; [done|]. by rewrite Hx, IH. Qed.

(** The first loop, run again, writes what it wrote. *)
Lemma translateElement_twice n : TE (TE n) = TE n.
Proof.
  induction n as [s|tag attrs children IH] using node_children_ind; [done|].
  rewrite !translateElement_Elem.
  destruct (replacement H translations tag attrs) as [content|] eqn:E; simpl; [done|].
  f_equal. rewrite map_map. by apply map_ext_Forall.
Qed.

(** The pairs of an element with a plain map are a list of writes that
    depends on the map only, and that leaves the markers alone. *)
Lemma attributeStep_writes attrs :
  plainMap attrs = true →
  ∃ ws r,
    (∀ k, k ∈ markerAttributes → lastWrite k ws = None) ∧
    ∀ a, a !! "data-i18n-attr" = attrs !! "data-i18n-attr" →
         attributeStep H translations a = (applyWrites ws a, r).
Proof.
  intros Hp. destruct (attrs !! "data-i18n-attr") as [attrData|] eqn:E.
  - exists (writesOf H translations (JsString.split "," attrData)).1,
      (writesOf H translations (JsString.split "," attrData)).2.
    split; [by apply (plainMap_writes H translations attrs)|].
    intros a Ha. unfold attributeStep. rewrite Ha.
    apply translatePairs_writes.
  - exists [], (Normal ()). split; [done|].
    intros a Ha. unfold attributeStep. by rewrite Ha.
Qed.

Lemma lookup_marker ws attrs k :
  (∀ k, k ∈ markerAttributes → lastWrite k ws = None) →
  k ∈ markerAttributes → applyWrites ws attrs !! k = attrs !! k.
Proof. intros Hw Hk. by rewrite lookup_applyWrites, (Hw k Hk). Qed.

Lemma marker_i18n : "data-i18n" ∈ markerAttributes.
Proof. unfold markerAttributes. set_solver. Qed.

Lemma marker_i18n_attr : "data-i18n-attr" ∈ markerAttributes.
Proof. unfold markerAttributes. set_solver. Qed.

Lemma plainMaps_Elem tag attrs children :
  plainMaps (Elem tag attrs children) = true →
  plainMap attrs = true ∧ Forall (λ c, plainMaps c = true) children.
Proof.
  simpl. intros [Hp Hc]%andb_true_iff. split; [done|].
  apply Forall_forall. intros c Hc'. rewrite forallb_forall in Hc.
  by apply Hc, list_elem_of_In.
Qed.

(** Both loops, run again on what they left, on a list of nodes. *)
Lemma forEachNode_twice children :
  Forall (λ c, plainMaps c = true → TA (TE (TA (TE c)).1) = TA (TE c)) children →
  Forall (λ c, plainMaps c = true) children →
  Dom.forEachNode TA (map TE (Dom.forEachNode TA (map TE children)).1)
  = Dom.forEachNode TA (map TE children).
Proof.
  induction 1 as [|c rest Hc _ IH]; intros Hp; [done|].
  inversion Hp as [|? ? Hpc Hprest]; subst. specialize (Hc Hpc). specialize (IH Hprest).
  cbn [map Dom.forEachNode].
  destruct (TA (TE c)) as [c2 [[]|e]] eqn:Ec; simpl in Hc.
  - fold (Dom.forEachNode TA).
    destruct (Dom.forEachNode TA (map TE rest)) as [rest2 r] eqn:Er. simpl in IH.
    cbn [fst map Dom.forEachNode]. rewrite Hc.
    fold (Dom.forEachNode TA). by rewrite IH.
  - cbn [fst map Dom.forEachNode]. rewrite Hc.
    rewrite map_map. f_equal. f_equal.
    apply map_ext_Forall, Forall_forall. intros x _. apply translateElement_twice.
Qed.

(** Both loops, run again on what they left: the same tree, and the same
    completion. *)
Lemma loops_twice n :
  plainMaps n = true → TA (TE (TA (TE n)).1) = TA (TE n).
Proof.
  induction n as [s|tag attrs children IH] using node_children_ind; [done|].
  intros [Hp Hc]%plainMaps_Elem.
  destruct (attributeStep_writes attrs Hp) as (ws & r & Hw & Hstep).
  rewrite translateElement_Elem, translateAttributes_Elem.
  rewrite (Hstep attrs eq_refl).
  assert (attributeStep H translations (applyWrites ws attrs) = (applyWrites ws attrs, r)) as Hstep2.
  { rewrite Hstep, applyWrites_twice; [done|]. apply lookup_marker; [done|].
    apply marker_i18n_attr. }
  assert (replacement H translations tag (applyWrites ws attrs) = replacement H translations tag attrs) as Hrep.
  { apply replacement_ext, lookup_marker; [done|]. apply marker_i18n. }
  destruct r as [[]|e].
  - destruct (Dom.forEachNode TA (default (map TE children) (replacement H translations tag attrs)))
      as [children2 r'] eqn:Ef.
    cbn [fst]. rewrite translateElement_Elem, translateAttributes_Elem, Hstep2, Hrep.
    destruct (replacement H translations tag attrs) as [content|] eqn:Er; simpl in *.
    + by rewrite Ef.
    + pose proof (forEachNode_twice children IH Hc) as Ht.
      rewrite Ef in Ht. simpl in Ht. by rewrite Ht.
  - cbn [fst]. rewrite translateElement_Elem, translateAttributes_Elem, Hstep2, Hrep.
    destruct (replacement H translations tag attrs) as [content|] eqn:Er; simpl; [done|].
    rewrite map_map. do 2 f_equal.
    apply map_ext_Forall, Forall_forall. intros x _. apply translateElement_twice.
Qed.

Lemma loops_twice_list children :
  Forall (λ c, plainMaps c = true) children →
  Dom.forEachNode TA (map TE (Dom.forEachNode TA (map TE children)).1)
  = Dom.forEachNode TA (map TE children).
Proof.
  intros Hc. apply forEachNode_twice; [|done].
  apply Forall_forall. intros c _. apply loops_twice.
Qed.

End render_facts.

Lemma updateFirstOf_cons f n rest :
  Dom.updateFirstOf f (n :: rest)
  = match f n with
    | Some n' => Some (n' :: rest)
    | None => cons n <$> Dom.updateFirstOf f rest
    end.
Proof. reflexivity. Qed.

Lemma updateFirstOf_None f l :
  Dom.updateFirstOf f l = None ↔ Forall (λ z, f z = None) l.
Proof.
  induction l as [|n rest IH]; [done|]. rewrite updateFirstOf_cons, Forall_cons.
  destruct (f n); [naive_solver|].
  rewrite fmap_None. naive_solver.
Qed.

Section late_facts.
Context (H : Host) (translations : value) (s content : string).

#[local] Abbreviation L := (loops H translations).
#[local] Abbreviation LL := (loopsList H translations).
#[local] Abbreviation ok := (settled H translations).
#[local] Abbreviation updT :=
  (Dom.updateFirstContent Dom.isTitle (λ _, Dom.textContent s)).
#[local] Abbreviation updM :=
  (Dom.updateFirstElement isMetaDescription (insert "content" content)).
#[local] Abbreviation againTitle := (titleAgain H translations s).
#[local] Abbreviation againDescription := (descriptionAgain H translations s content).
#[local] Abbreviation againBoth := (bothAgain H translations s content).

Lemma loops_Elem tag attrs children :
  L (Elem tag attrs children) =
  let '(attrs', r) := attributeStep H translations attrs in
  match r with
  | Throw e => (Elem tag attrs' (contentAfter H translations tag attrs children), Throw e)
  | Normal _ =>
      let '(children', r') :=
        Dom.forEachNode (translateAttributes H translations)
          (contentAfter H translations tag attrs children) in
      (Elem tag attrs' children', r')
  end.
Proof.
  unfold loops, contentAfter. by rewrite translateElement_Elem, translateAttributes_Elem.
Qed.

Lemma loopsList_cons c rest :
  LL (c :: rest) =
  match L c with
  | (c', Normal _) => let '(rest', r) := LL rest in (c' :: rest', r)
  | (c', Throw e) => (c' :: map (translateElement H translations) rest, Throw e)
  end.
Proof. reflexivity. Qed.

Lemma loopsList_cons_normal c c5 rest rest5 :
  L c = (c5, Normal ()) → LL rest = (rest5, Normal ()) →
  LL (c :: rest) = (c5 :: rest5, Normal ()).
Proof. intros Hc Hr. by rewrite loopsList_cons, Hc, Hr. Qed.

Lemma loopsList_inv c rest l5 :
  LL (c :: rest) = (l5, Normal ()) →
  ∃ c5 rest5, l5 = c5 :: rest5 ∧ L c = (c5, Normal ()) ∧ LL rest = (rest5, Normal ()).
Proof.
  rewrite loopsList_cons. destruct (L c) as [c5 [[]|e]]; [|done].
  destruct (LL rest) as [rest5 r]. intros [= <- ->]. by eexists _, _.
Qed.

Lemma loopsList_settled l : LL l = (l, Normal ()) ↔ Forall ok l.
Proof.
  induction l as [|c rest IH]; [done|]. rewrite Forall_cons. split.
  - intros (c5 & rest5 & [= <- <-] & Hc & Hr)%loopsList_inv. split; [done|by apply IH].
  - intros [Hc Hr]. apply loopsList_cons_normal; [done|by apply IH].
Qed.

Lemma loopsList_text : LL (Dom.textContent s) = (Dom.textContent s, Normal ()).
Proof. unfold Dom.textContent. by destruct (JsString.isEmpty s). Qed.

(** An element that both loops leave as it is: its attribute map writes
    what is there, and so do the loops below it. *)
Lemma settled_Elem tag attrs children :
  ok (Elem tag attrs children) →
  attributeStep H translations attrs = (attrs, Normal ()) ∧
  Dom.forEachNode (translateAttributes H translations)
    (contentAfter H translations tag attrs children) = (children, Normal ()).
Proof.
  unfold settled. rewrite loops_Elem.
  destruct (attributeStep H translations attrs) as [attrs' [[]|e]]; [|done].
  destruct (Dom.forEachNode _ _) as [children' r']. by intros [= -> -> ->].
Qed.

(** The element with other children: the content that the first loop
    puts there comes back, and children that it leaves are run through
    both loops. *)
Lemma loops_children tag attrs children other :
  ok (Elem tag attrs children) →
  L (Elem tag attrs other) =
  match replacement H translations tag attrs with
  | Some _ => (Elem tag attrs children, Normal ())
  | None => let '(other', r) := LL other in (Elem tag attrs other', r)
  end.
Proof.
  intros [Ha Hc]%settled_Elem. rewrite loops_Elem, Ha.
  unfold contentAfter in *.
  destruct (replacement H translations tag attrs) as [c|]; simpl in *; [by rewrite Hc|].
  done.
Qed.

Lemma settled_children tag attrs children :
  ok (Elem tag attrs children) →
  replacement H translations tag attrs = None → Forall ok children.
Proof.
  intros [_ Hc]%settled_Elem Hr. unfold contentAfter in Hc. rewrite Hr in Hc.
  by apply loopsList_settled.
Qed.

(** The attribute map run on attributes one of which, not a marker, has
    been overwritten: writing that attribute again gives what was
    there. *)
Lemma attributeStep_insert attrs k v :
  attributeStep H translations attrs = (attrs, Normal ()) →
  k ≠ "data-i18n-attr" →
  ∃ attrs5,
    attributeStep H translations (<[k := v]> attrs) = (attrs5, Normal ()) ∧
    <[k := v]> attrs5 = <[k := v]> attrs ∧
    ∀ k', k' ≠ k → attrs5 !! k' = attrs !! k'.
Proof.
  intros Ha Hk. unfold attributeStep in *.
  rewrite lookup_insert_ne by done.
  destruct (attrs !! "data-i18n-attr") as [attrData|].
  2:{ exists (<[k := v]> attrs). split; [done|]. split; [by rewrite insert_insert_eq|].
      intros k' Hk'. by rewrite lookup_insert_ne. }
  rewrite translatePairs_writes in Ha |- *.
  set (ws := (writesOf H translations (JsString.split "," attrData)).1) in *.
  injection Ha as Ha ->.
  assert (∀ k', k' ≠ k → applyWrites ws (<[k := v]> attrs) !! k' = attrs !! k') as Hl.
  { intros k' Hk'. rewrite <- Ha at 2. rewrite !lookup_applyWrites.
    by rewrite lookup_insert_ne. }
  eexists. split; [done|]. split; [|done].
  apply map_eq. intros k'. rewrite !lookup_insert.
  destruct (decide (k = k')); [done|]. by apply Hl.
Qed.

Lemma isMetaDescription_ext tag attrs attrs' :
  attrs !! "name" = attrs' !! "name" →
  isMetaDescription tag attrs = isMetaDescription tag attrs'.
Proof. unfold isMetaDescription. by intros ->. Qed.

Lemma isTitle_not_meta tag attrs :
  Dom.isTitle tag attrs = true → isMetaDescription tag attrs = false.
Proof.
  unfold Dom.isTitle, isMetaDescription. intros ->%bool_decide_eq_true. done.
Qed.

Lemma updM_text : Dom.updateFirstOf updM (Dom.textContent s) = None.
Proof. unfold Dom.textContent. by destruct (JsString.isEmpty s). Qed.


Lemma titleAgain_list l :
  Forall (λ c, ok c ∧ againTitle c) l →
  ∀ l3, Dom.updateFirstOf updT l = Some l3 →
        ∃ l5, LL l3 = (l5, Normal ()) ∧ Dom.updateFirstOf updT l5 = Some l3.
Proof.
  induction 1 as [|c rest [Hc H1] Hrest IH]; intros l3; [done|].
  rewrite updateFirstOf_cons.
  assert (LL rest = (rest, Normal ())) as Hr.
  { apply loopsList_settled. eapply Forall_impl; [exact Hrest|]. by intros ? [? _]. }
  destruct (updT c) as [c3|] eqn:E3.
  - intros [= <-]. destruct (H1 c3 E3) as (c5 & E5 & E5').
    exists (c5 :: rest). split; [by apply loopsList_cons_normal|].
    by rewrite updateFirstOf_cons, E5'.
  - destruct (Dom.updateFirstOf updT rest) as [rest3|] eqn:Er; [|done].
    intros [= <-]. destruct (IH rest3 eq_refl) as (rest5 & E5 & E5').
    exists (c :: rest5). split; [by apply loopsList_cons_normal|].
    by rewrite updateFirstOf_cons, E3, E5'.
Qed.

Lemma descriptionAgain_list l :
  Forall (λ c, ok c ∧ againDescription c) l →
  ∀ l4, Dom.updateFirstOf updM l = Some l4 →
        ∃ l5, LL l4 = (l5, Normal ()) ∧ Dom.updateFirstOf updM l5 = Some l4 ∧
              (Dom.updateFirstOf updT l = None → Dom.updateFirstOf updT l5 = None).
Proof.
  induction 1 as [|c rest [Hc H2] Hrest IH]; intros l4; [done|].
  rewrite updateFirstOf_cons.
  assert (LL rest = (rest, Normal ())) as Hr.
  { apply loopsList_settled. eapply Forall_impl; [exact Hrest|]. by intros ? [? _]. }
  destruct (updM c) as [c4|] eqn:E4.
  - intros [= <-]. destruct (H2 c4 E4) as (c5 & E5 & E5' & HT).
    exists (c5 :: rest). split; [by apply loopsList_cons_normal|].
    split; [by rewrite updateFirstOf_cons, E5'|].
    rewrite !updateFirstOf_None, !Forall_cons. intros [? ?]. split; [by apply HT|done].
  - destruct (Dom.updateFirstOf updM rest) as [rest4|] eqn:Er; [|done].
    intros [= <-]. destruct (IH rest4 eq_refl) as (rest5 & E5 & E5' & HT).
    exists (c :: rest5). split; [by apply loopsList_cons_normal|].
    split; [by rewrite updateFirstOf_cons, E4, E5'|].
    rewrite !updateFirstOf_None, !Forall_cons. intros [? ?]. split; [done|].
    by apply updateFirstOf_None, HT, updateFirstOf_None.
Qed.

Lemma bothAgain_list l :
  Forall (λ c, ok c ∧ againTitle c ∧ againDescription c ∧ againBoth c) l →
  ∀ l3 l4, Dom.updateFirstOf updT l = Some l3 → Dom.updateFirstOf updM l3 = Some l4 →
           ∃ l5 l6, LL l4 = (l5, Normal ()) ∧
                    Dom.updateFirstOf updT l5 = Some l6 ∧
                    Dom.updateFirstOf updM l6 = Some l4.
Proof.
  induction 1 as [|c rest (Hc & H1 & H2 & H3) Hrest IH]; intros l3 l4; [done|].
  rewrite updateFirstOf_cons.
  assert (Forall (λ c, ok c ∧ againTitle c) rest) as Hrest1.
  { eapply Forall_impl; [exact Hrest|]. naive_solver. }
  assert (Forall (λ c, ok c ∧ againDescription c) rest) as Hrest2.
  { eapply Forall_impl; [exact Hrest|]. naive_solver. }
  assert (LL rest = (rest, Normal ())) as Hr.
  { apply loopsList_settled. eapply Forall_impl; [exact Hrest|]. naive_solver. }
  destruct (updT c) as [c3|] eqn:E3.
  - intros [= <-]. rewrite updateFirstOf_cons.
    destruct (updM c3) as [c4|] eqn:E4.
    + intros [= <-]. destruct (H3 c3 c4 E3 E4) as (c5 & c6 & E5 & E6 & E6').
      exists (c5 :: rest), (c6 :: rest). split; [by apply loopsList_cons_normal|].
      by rewrite !updateFirstOf_cons, E6, E6'.
    + destruct (Dom.updateFirstOf updM rest) as [rest4|] eqn:Er; [|done].
      intros [= <-]. destruct (H1 c3 E3) as (c5 & E5 & E5').
      destruct (descriptionAgain_list rest Hrest2 rest4 Er) as (rest5 & Er5 & Er5' & _).
      exists (c5 :: rest5), (c3 :: rest5). split; [by apply loopsList_cons_normal|].
      by rewrite !updateFirstOf_cons, E5', E4, Er5'.
  - destruct (Dom.updateFirstOf updT rest) as [rest3|] eqn:Er3; [|done].
    intros [= <-]. rewrite updateFirstOf_cons.
    destruct (updM c) as [c4|] eqn:E4.
    + intros [= <-]. destruct (H2 c4 E4) as (c5 & E5 & E5' & HT).
      destruct (titleAgain_list rest Hrest1 rest3 Er3) as (rest5 & Er5 & Er5').
      exists (c5 :: rest5), (c5 :: rest3). split; [by apply loopsList_cons_normal|].
      by rewrite !updateFirstOf_cons, (HT E3), Er5', E5'.
    + destruct (Dom.updateFirstOf updM rest3) as [rest4|] eqn:Er4; [|done].
      intros [= <-]. destruct (IH rest3 rest4 eq_refl Er4) as (rest5 & rest6 & E5 & E6 & E6').
      exists (c :: rest5), (c :: rest6). split; [by apply loopsList_cons_normal|].
      by rewrite !updateFirstOf_cons, E3, E6, E4, E6'.
Qed.

Lemma late_again y : ok y → againTitle y ∧ againDescription y ∧ againBoth y.
Proof.
  induction y as [t|tag attrs children IH] using node_children_ind; [done|].
  intros Hok.
  pose proof (settled_Elem _ _ _ Hok) as [Ha _].
  pose proof (loops_children tag attrs children) as HL.
  assert (replacement H translations tag attrs = None →
          Forall (λ c, ok c ∧ againTitle c ∧ againDescription c ∧ againBoth c) children)
    as Hch.
  { intros Hr. pose proof (settled_children _ _ _ Hok Hr) as Hs.
    rewrite Forall_forall in IH, Hs. apply Forall_forall. intros c Hc.
    split; [by apply Hs|]. by apply IH, Hs. }
  split; [|split].
  - (* the title *)
    intros y3. cbn [Dom.updateFirstContent].
    destruct (Dom.isTitle tag attrs) eqn:Ht.
    + intros [= <-]. rewrite (HL _ Hok).
      destruct (replacement H translations tag attrs).
      * eexists. split; [done|]. cbn [Dom.updateFirstContent]. by rewrite Ht.
      * rewrite loopsList_text. eexists. split; [done|].
        cbn [Dom.updateFirstContent]. by rewrite Ht.
    + fold (Dom.updateFirstOf updT).
      destruct (Dom.updateFirstOf updT children) as [children3|] eqn:E3; [|done].
      intros [= <-]. rewrite (HL _ Hok).
      destruct (replacement H translations tag attrs) eqn:Hr.
      * eexists. split; [done|]. cbn [Dom.updateFirstContent]. rewrite Ht.
        fold (Dom.updateFirstOf updT). by rewrite E3.
      * destruct (titleAgain_list children) with (l3 := children3)
          as (children5 & E5 & E5'); [|done|].
        { eapply Forall_impl; [exact (Hch eq_refl)|]. naive_solver. }
        rewrite E5. eexists. split; [done|]. cbn [Dom.updateFirstContent]. rewrite Ht.
        fold (Dom.updateFirstOf updT). by rewrite E5'.
  - (* the description *)
    intros y4. cbn [Dom.updateFirstElement].
    destruct (isMetaDescription tag attrs) eqn:Hm.
    + intros [= <-].
      destruct (attributeStep_insert attrs "content" content Ha)
        as (attrs5 & Hs5 & Hi5 & Hl5); [done|].
      assert (L (Elem tag (<["content" := content]> attrs) children)
              = (Elem tag attrs5 children, Normal ())) as E5.
      { apply settled_Elem in Hok as [_ Hc].
        rewrite loops_Elem, Hs5. unfold contentAfter in *.
        rewrite (replacement_ext H translations tag attrs) by by rewrite lookup_insert_ne.
        by rewrite Hc. }
      eexists. split; [exact E5|]. split.
      * cbn [Dom.updateFirstElement].
        rewrite (isMetaDescription_ext tag attrs5 attrs), Hm by by apply Hl5.
        by rewrite Hi5.
      * cbn [Dom.updateFirstContent]. unfold Dom.isTitle.
        destruct (bool_decide (tag = "title")); [done|]. by rewrite !fmap_None.
    + fold (Dom.updateFirstOf updM).
      destruct (Dom.updateFirstOf updM children) as [children4|] eqn:E4; [|done].
      intros [= <-]. rewrite (HL _ Hok).
      destruct (replacement H translations tag attrs) eqn:Hr.
      * eexists. split; [done|]. split; [|done]. cbn [Dom.updateFirstElement]. rewrite Hm.
        fold (Dom.updateFirstOf updM). by rewrite E4.
      * destruct (descriptionAgain_list children) with (l4 := children4)
          as (children5 & E5 & E5' & HT); [|done|].
        { eapply Forall_impl; [exact (Hch eq_refl)|]. naive_solver. }
        rewrite E5. eexists. split; [done|]. split.
        { cbn [Dom.updateFirstElement]. rewrite Hm.
          fold (Dom.updateFirstOf updM). by rewrite E5'. }
        cbn [Dom.updateFirstContent]. destruct (Dom.isTitle tag attrs); [done|].
        fold (Dom.updateFirstOf updT).
        destruct (Dom.updateFirstOf updT children) eqn:ET; [done|].
        intros _. by rewrite (HT eq_refl).
  - (* both *)
    intros y3 y4. cbn [Dom.updateFirstContent].
    destruct (Dom.isTitle tag attrs) eqn:Ht.
    { intros [= <-]. cbn [Dom.updateFirstElement].
      rewrite (isTitle_not_meta _ _ Ht). fold (Dom.updateFirstOf updM).
      by rewrite updM_text. }
    fold (Dom.updateFirstOf updT).
    destruct (Dom.updateFirstOf updT children) as [children3|] eqn:E3; [|done].
    intros [= <-]. cbn [Dom.updateFirstElement].
    destruct (isMetaDescription tag attrs) eqn:Hm.
    + intros [= <-].
      destruct (attributeStep_insert attrs "content" content Ha)
        as (attrs5 & Hs5 & Hi5 & Hl5); [done|].
      assert (isMetaDescription tag attrs5 = true) as Hm5.
      { by rewrite (isMetaDescription_ext tag attrs5 attrs) by by apply Hl5. }
      assert (∃ children5,
                L (Elem tag (<["content" := content]> attrs) children3)
                = (Elem tag attrs5 children5, Normal ()) ∧
                Dom.updateFirstOf updT children5 = Some children3)
        as (children5 & E5 & E5').
      { pose proof Hok as [_ Hc]%settled_Elem.
        rewrite loops_Elem, Hs5. unfold contentAfter in *.
        rewrite (replacement_ext H translations tag attrs) by by rewrite lookup_insert_ne.
        destruct (replacement H translations tag attrs) eqn:Hr; simpl in Hc; simpl.
        - rewrite Hc. by eexists.
        - destruct (titleAgain_list children) with (l3 := children3)
            as (children5 & E5 & E5'); [|done|].
          { eapply Forall_impl; [exact (Hch eq_refl)|]. naive_solver. }
          unfold loopsList in E5. rewrite E5. by eexists. }
      eexists _, _. split; [exact E5|]. split.
      * cbn [Dom.updateFirstContent].
        change (Dom.isTitle tag attrs5) with (Dom.isTitle tag attrs). rewrite Ht.
        fold (Dom.updateFirstOf updT). by rewrite E5'.
      * cbn [Dom.updateFirstElement]. by rewrite Hm5, Hi5.
    + fold (Dom.updateFirstOf updM).
      destruct (Dom.updateFirstOf updM children3) as [children4|] eqn:E4; [|done].
      intros [= <-]. rewrite (HL _ Hok).
      destruct (replacement H translations tag attrs) eqn:Hr.
      * eexists _, _. split; [done|]. split.
        { cbn [Dom.updateFirstContent]. rewrite Ht.
          fold (Dom.updateFirstOf updT). by rewrite E3. }
        cbn [Dom.updateFirstElement]. rewrite Hm.
        fold (Dom.updateFirstOf updM). by rewrite E4.
      * destruct (bothAgain_list children (Hch eq_refl) children3 children4 E3 E4)
          as (children5 & children6 & E5 & E6 & E6').
        rewrite E5. eexists _, _. split; [done|]. split.
        { cbn [Dom.updateFirstContent]. rewrite Ht.
          fold (Dom.updateFirstOf updT). by rewrite E6. }
        cbn [Dom.updateFirstElement]. rewrite Hm.
        fold (Dom.updateFirstOf updM). by rewrite E6'.
Qed.

(** *** The title appended to the head element *)


Lemma sameTag_isHead n n' : sameTag n n' → Dom.isHead n' = Dom.isHead n.
Proof. destruct n, n'; simpl; try done. by intros ->. Qed.

Lemma loops_sameTag n : sameTag n (L n).1.
Proof.
  destruct n as [t|tag attrs children]; [done|]. rewrite loops_Elem.
  destruct (attributeStep H translations attrs) as [attrs' [[]|e]]; [|done].
  by destruct (Dom.forEachNode _ _).
Qed.

Lemma updM_sameTag n n' : updM n = Some n' → sameTag n n'.
Proof.
  destruct n as [t|tag attrs children]; [done|]. cbn [Dom.updateFirstElement].
  destruct (isMetaDescription tag attrs); [by intros [= <-]|].
  destruct (Dom.updateFirstOf _ children); [|done]. by intros [= <-].
Qed.


Lemma setTitle_html attrs children :
  Dom.setTitle s (Elem "html" attrs children) = Elem "html" attrs (titleAmong s children).
Proof.
  unfold Dom.setTitle, titleAmong. cbn [Dom.updateFirstContent].
  change (Dom.isTitle "html" attrs) with false. cbv iota.
  fold (Dom.updateFirstOf updT).
  destruct (Dom.updateFirstOf updT children); [done|]. simpl.
  by destruct (Dom.updateFirstOf (Dom.appendToHead s) children).
Qed.

Lemma titleAmong_skip c l :
  updT c = None → Dom.isHead c = false → titleAmong s (c :: l) = c :: titleAmong s l.
Proof.
  intros Hc Hh. unfold titleAmong. rewrite !updateFirstOf_cons, Hc.
  destruct (Dom.updateFirstOf updT l); [done|].
  assert (Dom.appendToHead s c = None) as ->.
  { destruct c; [done|]. unfold Dom.appendToHead. by rewrite Hh. }
  by destruct (Dom.updateFirstOf (Dom.appendToHead s) l).
Qed.

Lemma titleAmong_title c c' l : updT c = Some c' → titleAmong s (c :: l) = c' :: l.
Proof. intros Hc. unfold titleAmong. by rewrite updateFirstOf_cons, Hc. Qed.

Lemma titleAmong_head c c' l :
  updT c = None → Dom.updateFirstOf updT l = None → Dom.appendToHead s c = Some c' →
  titleAmong s (c :: l) = c' :: l.
Proof.
  intros Hc Hl Hh. unfold titleAmong. by rewrite !updateFirstOf_cons, Hc, Hl, Hh.
Qed.

Lemma titleAmong_none l :
  Dom.updateFirstOf updT l = None →
  titleAmong s l = default l (Dom.updateFirstOf (Dom.appendToHead s) l).
Proof. intros Hl. unfold titleAmong. by rewrite Hl. Qed.

Lemma settled_titleElement : ok (Dom.titleElement s).
Proof.
  unfold settled, Dom.titleElement. rewrite loops_Elem.
  unfold attributeStep, contentAfter, replacement. rewrite !lookup_empty. simpl.
  fold (LL (Dom.textContent s)). by rewrite loopsList_text.
Qed.

Lemma updT_titleElement : updT (Dom.titleElement s) = Some (Dom.titleElement s).
Proof. done. Qed.

(** What the loops make of a settled head element that got the title
    appended: the head element as it was, when its content is written by
    the first loop, and else the head element with the title, which
    then is where the title is found. *)
Lemma appended_loops c c' :
  ok c → updT c = None → Dom.appendToHead s c = Some c' →
  (L c' = (c, Normal ()) ∧
   ∀ c4, updM c' = Some c4 → L c4 = (c, Normal ())) ∨
  (ok c' ∧ updT c' = Some c').
Proof.
  destruct c as [t|tag attrs children]; [done|]. intros Hok HT.
  unfold Dom.appendToHead. destruct (Dom.isHead _) eqn:Hh; [|done]. intros [= <-].
  pose proof (loops_children tag attrs children) as HL.
  destruct (replacement H translations tag attrs) eqn:Hr.
  - left. split; [by rewrite (HL _ Hok)|].
    intros c4. cbn [Dom.updateFirstElement].
    destruct (isMetaDescription tag attrs) eqn:Hm.
    { unfold isMetaDescription in Hm. simpl in Hh.
      apply bool_decide_eq_true in Hh as ->. done. }
    destruct (Dom.updateFirstOf _ _); [|done]. intros [= <-].
    by rewrite (HL _ Hok).
  - right.
    assert (Dom.isTitle tag attrs = false) as Ht.
    { simpl in Hh. apply bool_decide_eq_true in Hh as ->. done. }
    cbn [Dom.updateFirstContent] in HT. rewrite Ht in HT.
    fold (Dom.updateFirstOf updT) in HT. apply fmap_None in HT.
    split.
    + unfold settled. rewrite (HL _ Hok).
      assert (LL (children ++ [Dom.titleElement s])
              = (children ++ [Dom.titleElement s], Normal ())) as ->; [|done].
      apply loopsList_settled, Forall_app. split.
      * by eapply settled_children.
      * apply Forall_singleton, settled_titleElement.
    + cbn [Dom.updateFirstContent]. rewrite Ht. fold (Dom.updateFirstOf updT).
      clear -HT. induction children as [|x rest IH]; [done|].
      rewrite updateFirstOf_cons in HT.
      destruct (updT x) eqn:Ex; [done|]. apply fmap_None in HT.
      change ((x :: rest) ++ [Dom.titleElement s])
        with (x :: (rest ++ [Dom.titleElement s])).
      rewrite updateFirstOf_cons, Ex.
      specialize (IH HT). simpl in IH |- *.
      destruct (Dom.updateFirstOf updT (rest ++ [Dom.titleElement s])); [|done].
      by injection IH as ->.
Qed.

Lemma appendToHead_isHead c : Dom.isHead c = false → Dom.appendToHead s c = None.
Proof. destruct c; [done|]. unfold Dom.appendToHead. by intros ->. Qed.

Lemma appendToHead_is_Some c : Dom.isHead c = true → is_Some (Dom.appendToHead s c).
Proof. destruct c; [done|]. unfold Dom.appendToHead. by intros ->. Qed.

Lemma titleAmong_again l :
  Forall ok l → Dom.updateFirstOf updT l = None →
  (∃ l5, LL (titleAmong s l) = (l5, Normal ()) ∧ titleAmong s l5 = titleAmong s l) ∧
  (∀ l4, Dom.updateFirstOf updM (titleAmong s l) = Some l4 →
         ∃ l5, LL l4 = (l5, Normal ()) ∧
               Dom.updateFirstOf updM (titleAmong s l5) = Some l4).
Proof.
  induction 1 as [|c rest Hc Hrest IH].
  { intros _. split; [by exists []|]. done. }
  rewrite updateFirstOf_cons. destruct (updT c) eqn:ET; [done|].
  intros HTrest%fmap_None.
  pose proof (proj2 (loopsList_settled rest) Hrest) as Hr.
  destruct (Dom.isHead c) eqn:Hh.
  - (* the head element *)
    destruct (appendToHead_is_Some c Hh) as [c' Hc'].
    rewrite (titleAmong_head c c' rest) by done.
    assert (∃ c5, L c' = (c5, Normal ()) ∧
                  ∀ rest5, Dom.updateFirstOf updT rest5 = None →
                           titleAmong s (c5 :: rest5) = c' :: rest5) as (c5 & E5 & Hfix).
    { destruct (appended_loops c c' Hc ET Hc') as [[E5 _]|[Hok' HT']].
      - exists c. split; [done|]. intros rest5 H5. by apply titleAmong_head.
      - exists c'. split; [done|]. intros rest5 _. by apply titleAmong_title. }
    split.
    { exists (c5 :: rest). split; [by apply loopsList_cons_normal|]. by apply Hfix. }
    intros l4. rewrite updateFirstOf_cons.
    destruct (updM c') as [c4|] eqn:E4.
    + intros [= <-].
      destruct (appended_loops c c' Hc ET Hc') as [[_ E4']|[Hok' HT']].
      * exists (c :: rest). split; [apply loopsList_cons_normal; [by apply E4'|done]|].
        rewrite (titleAmong_head c c' rest) by done.
        by rewrite updateFirstOf_cons, E4.
      * destruct (late_again c' Hok') as (_ & _ & H3).
        destruct (H3 c' c4 HT' E4) as (c6 & c7 & E6 & E7 & E7').
        exists (c6 :: rest). split; [by apply loopsList_cons_normal|].
        rewrite (titleAmong_title c6 c7 rest) by done.
        by rewrite updateFirstOf_cons, E7'.
    + destruct (Dom.updateFirstOf updM rest) as [rest4|] eqn:Er4; [|done].
      intros [= <-].
      destruct (descriptionAgain_list rest) with (l4 := rest4)
        as (rest5 & Er5 & Er5' & HT5); [|done|].
      { eapply Forall_impl; [exact Hrest|]. intros x Hx. split; [done|].
        by apply late_again. }
      exists (c5 :: rest5). split; [by apply loopsList_cons_normal|].
      rewrite Hfix by by apply HT5.
      by rewrite updateFirstOf_cons, E4, Er5'.
  - (* another child *)
    rewrite (titleAmong_skip c rest) by done.
    destruct (IH HTrest) as [(rest5 & Er5 & Er5') IH2].
    split.
    { exists (c :: rest5). split; [by apply loopsList_cons_normal|].
      by rewrite titleAmong_skip, Er5'. }
    intros l4. rewrite updateFirstOf_cons.
    destruct (updM c) as [c4|] eqn:E4.
    + intros [= <-]. destruct (late_again c Hc) as (_ & H2 & _).
      destruct (H2 c4 E4) as (c5 & E5 & E5' & HT5).
      exists (c5 :: rest5). split; [by apply loopsList_cons_normal|].
      rewrite titleAmong_skip, Er5'; [|by apply HT5|].
      * by rewrite updateFirstOf_cons, E5'.
      * rewrite <- Hh. apply sameTag_isHead.
        pose proof (updM_sameTag _ _ E4) as S1.
        pose proof (loops_sameTag c4) as S2. rewrite E5 in S2. simpl in S2.
        destruct c, c4, c5; simpl in *; try done. congruence.
    + destruct (Dom.updateFirstOf updM (titleAmong s rest)) as [rest4|] eqn:Er4; [|done].
      intros [= <-]. destruct (IH2 rest4 eq_refl) as (rest6 & Er6 & Er6').
      exists (c :: rest6). split; [by apply loopsList_cons_normal|].
      rewrite titleAmong_skip by done.
      by rewrite updateFirstOf_cons, E4, Er6'.
Qed.

(** The title written into a settled tree: both loops run on the result,
    and the title written again, give the result; and so when the
    description is written as well. *)
Lemma setTitle_again y :
  ok y →
  (∃ y5, L (Dom.setTitle s y) = (y5, Normal ()) ∧ Dom.setTitle s y5 = Dom.setTitle s y) ∧
  (∀ y4, updM (Dom.setTitle s y) = Some y4 →
         ∃ y5, L y4 = (y5, Normal ()) ∧ updM (Dom.setTitle s y5) = Some y4).
Proof.
  intros Hok. destruct (late_again y Hok) as (H1 & H2 & H3).
  destruct (updT y) as [y3|] eqn:ET.
  { assert (Dom.setTitle s y = y3) as -> by (unfold Dom.setTitle; by rewrite ET).
    split.
    - destruct (H1 y3 ET) as (y5 & E5 & E5'). exists y5. split; [done|].
      unfold Dom.setTitle. by rewrite E5'.
    - intros y4 E4. destruct (H3 y3 y4 ET E4) as (y5 & y6 & E5 & E6 & E6').
      exists y5. split; [done|]. unfold Dom.setTitle. by rewrite E6. }
  destruct y as [t|tag attrs children].
  { split; [by exists (Text t)|done]. }
  destruct (decide (tag = "html")) as [->|Htag].
  - rewrite setTitle_html.
    pose proof (loops_children "html" attrs children) as HL.
    cbn [Dom.updateFirstContent] in ET. change (Dom.isTitle "html" attrs) with false in ET.
    cbv iota in ET. fold (Dom.updateFirstOf updT) in ET. apply fmap_None in ET.
    destruct (replacement H translations "html" attrs) eqn:Hr.
    + split.
      * exists (Elem "html" attrs children). split; [by rewrite (HL _ Hok)|].
        by rewrite setTitle_html.
      * intros y4. cbn [Dom.updateFirstElement].
        change (isMetaDescription "html" attrs) with false. cbv iota.
        fold (Dom.updateFirstOf updM).
        destruct (Dom.updateFirstOf updM (titleAmong s children)) as [children4|] eqn:E4;
          [|done].
        intros [= <-]. exists (Elem "html" attrs children).
        split; [by rewrite (HL _ Hok)|].
        rewrite setTitle_html. cbn [Dom.updateFirstElement].
        change (isMetaDescription "html" attrs) with false. cbv iota.
        fold (Dom.updateFirstOf updM). by rewrite E4.
    + destruct (titleAmong_again children) as [(l5 & E5 & E5') Hboth]; [|done|].
      { by eapply settled_children. }
      split.
      * exists (Elem "html" attrs l5). split; [by rewrite (HL _ Hok), E5|].
        by rewrite setTitle_html, E5'.
      * intros y4. cbn [Dom.updateFirstElement].
        change (isMetaDescription "html" attrs) with false. cbv iota.
        fold (Dom.updateFirstOf updM).
        destruct (Dom.updateFirstOf updM (titleAmong s children)) as [children4|] eqn:E4;
          [|done].
        intros [= <-]. destruct (Hboth children4 eq_refl) as (l6 & E6 & E6').
        exists (Elem "html" attrs l6). split; [by rewrite (HL _ Hok), E6|].
        rewrite setTitle_html. cbn [Dom.updateFirstElement].
        change (isMetaDescription "html" attrs) with false. cbv iota.
        fold (Dom.updateFirstOf updM). by rewrite E6'.
  - assert (∀ n, sameTag (Elem tag attrs children) n → updT n = None →
                 Dom.setTitle s n = n) as Hsame.
    { intros [t|tag' attrs' children'] Hs Hn; [done|]. simpl in Hs. subst tag'.
      unfold Dom.setTitle. rewrite Hn. simpl. by rewrite bool_decide_eq_false_2. }
    rewrite (Hsame (Elem tag attrs children) eq_refl ET). split.
    { exists (Elem tag attrs children). split; [exact Hok|]. by apply Hsame. }
    intros y4 E4. destruct (H2 y4 E4) as (y5 & E5 & E5' & HT5).
    exists y5. split; [done|]. rewrite Hsame; [done| |by apply HT5].
    pose proof (updM_sameTag _ _ E4) as S1.
    pose proof (loops_sameTag y4) as S2. rewrite E5 in S2. simpl in S2.
    destruct y4, y5; simpl in *; try done. congruence.
Qed.

End late_facts.

(** Whether an element is found does not depend on what is written. *)
Lemma updateFirstElement_is_Some p f g n :
  is_Some (Dom.updateFirstElement p f n) ↔ is_Some (Dom.updateFirstElement p g n).
Proof.
  induction n as [s|tag attrs children IH] using node_children_ind; [done|].
  simpl. destruct (p tag attrs); [by split; eauto|].
  rewrite !fmap_is_Some.
  induction IH as [|c rest Hc _ IHrest]; [done|]. simpl.
  destruct (Dom.updateFirstElement p f c), (Dom.updateFirstElement p g c).
  - by split; eauto.
  - destruct Hc as [Hc _]. by destruct Hc; eauto.
  - destruct Hc as [_ Hc]. by destruct Hc; eauto.
  - by rewrite !fmap_is_Some.
Qed.

Lemma hasMetaDescription_is_Some content n :
  hasMetaDescription n = true
  ↔ is_Some (Dom.updateFirstElement isMetaDescription (insert "content" content) n).
Proof.
  unfold hasMetaDescription. rewrite bool_decide_eq_true.
  apply updateFirstElement_is_Some.
Qed.


Lemma render_lateWrites H translations d :
  render H translations d =
  let '(root2, r) := loops H translations (docRoot d) in
  match r with
  | Throw e => ({| docRoot := root2 |}, Throw e)
  | Normal _ => lateWrites H translations root2
  end.
Proof.
  unfold render, loops, lateWrites.
  destruct (translateAttributes _ _) as [root2 [[]|e]]; [|done]. done.
Qed.

(** The late writes on a settled tree, then both loops on the result. *)
Lemma lateWrites_again H translations root2 :
  settled H translations root2 →
  ∃ root5, loops H translations (docRoot (lateWrites H translations root2).1)
           = (root5, Normal ()) ∧
           lateWrites H translations root5 = lateWrites H translations root2.
Proof.
  intros Hok. unfold lateWrites.
  destruct (titleToWrite H translations) as [title|e] eqn:Et; [|by exists root2].
  set (root3 := match title with Some s => Dom.setTitle s root2 | None => root2 end).
  assert ((∃ y5, loops H translations root3 = (y5, Normal ()) ∧
                 match title with Some s => Dom.setTitle s y5 | None => y5 end = root3) ∧
          ∀ content y4,
            Dom.updateFirstElement isMetaDescription (insert "content" content) root3
            = Some y4 →
            ∃ y5, loops H translations y4 = (y5, Normal ()) ∧
                  Dom.updateFirstElement isMetaDescription (insert "content" content)
                    match title with Some s => Dom.setTitle s y5 | None => y5 end
                  = Some y4) as [(y5 & E5 & E5') Hboth].
  { destruct title as [s|]; subst root3.
    - split; [by apply setTitle_again|].
      intros content. by apply setTitle_again.
    - split; [by exists root2|]. intros content y4 E4.
      destruct (late_again H translations "" content root2 Hok) as (_ & H2 & _).
      destruct (H2 y4 E4) as (y5 & ? & ? & _). by exists y5. }
  destruct (hasMetaDescription root3) eqn:Hm.
  2:{ exists y5. cbn [fst docRoot]. split; [done|]. by rewrite E5', Hm. }
  destruct (descriptionToWrite H translations) as [[content|]|e] eqn:Ed.
  2,3: exists y5; cbn [fst docRoot]; split; [done|]; by rewrite E5', Hm.
  destruct (proj1 (hasMetaDescription_is_Some content root3) Hm) as [root4 E4].
  rewrite E4. cbn [default from_option id fst docRoot].
  destruct (Hboth content root4 E4) as (y6 & E6 & E6').
  exists y6. split; [done|].
  assert (hasMetaDescription
            match title with Some s => Dom.setTitle s y6 | None => y6 end = true) as ->.
  { apply (hasMetaDescription_is_Some content). by rewrite E6'. }
  by rewrite E6'.
Qed.

(** Rendering again what rendering has left, in a document where no
    attribute map writes to a marker attribute. *)
Lemma render_twice (H : Host) (translations : value) (d : Document) :
  plainMaps (docRoot d) = true →
  render H translations (render H translations d).1 = render H translations d.
Proof.
  intros Hp. rewrite (render_lateWrites H translations d).
  pose proof (loops_twice H translations (docRoot d) Hp) as Hl.
  fold (loops H translations (docRoot d)) in Hl.
  fold (loops H translations (loops H translations (docRoot d)).1) in Hl.
  destruct (loops H translations (docRoot d)) as [root2 [[]|e]] eqn:Er.
  2:{ rewrite render_lateWrites. cbn [fst docRoot]. simpl in Hl. by rewrite Hl. }
  simpl in Hl.
  destruct (lateWrites_again H translations root2 Hl) as (root5 & E5 & E5').
  rewrite render_lateWrites, E5. done.
Qed.

(** C8, as amended.  Rendering is idempotent on every document in which
    no attribute map names a marker attribute ([data-i18n],
    [data-i18n-attr]) as the attribute to write: for every dataset,
    running [applyTranslations] again on the state it has left completes
    in the same way and leaves the same state, so the same element
    content, element attributes, document title (the content of the
    [title] element) and meta description. *)
Theorem applyTranslations_twice (W : World) (st : State) :
  plainMaps (docRoot (document st)) = true →
  applyTranslations W (applyTranslations W st).2 = applyTranslations W st.
Proof.
  intros Hp. unfold applyTranslations.
  pose proof (render_twice (host W) (translations st) (document st) Hp) as Hr.
  destruct (render (host W) (translations st) (document st)) as [d r] eqn:E.
  simpl in *. rewrite Hr. by destruct st.
Qed.

(** C8 as stated fails.  On a page whose attribute map writes the key
    marker ([data-i18n-attr="data-i18n:nav.home"]), the first rendering
    gives the paragraph the key ["Home"] and leaves its text, and the
    second one replaces the text by the translation of that key (both
    set the title). *)
Lemma applyTranslations_twice_differs :
  docRoot (document (applyTranslations Example.online Example.rewritingState).2)
  = Elem "html" ∅
      [Elem "head" ∅ [Elem "title" ∅ [Text "Zodya"]];
       Elem "body" ∅
         [Elem "p" {[ "data-i18n-attr" := "data-i18n:nav.home";
                      "data-i18n" := "Home" ]}
            [Text "Welcome"]]] ∧
  docRoot
    (document
       (applyTranslations Example.online
          (applyTranslations Example.online Example.rewritingState).2).2)
  = Elem "html" ∅
      [Elem "head" ∅ [Elem "title" ∅ [Text "Zodya"]];
       Elem "body" ∅
         [Elem "p" {[ "data-i18n-attr" := "data-i18n:nav.home";
                      "data-i18n" := "Home" ]}
            [Text "Home"]]] ∧
  document
    (applyTranslations Example.online
       (applyTranslations Example.online Example.rewritingState).2).2
  ≠ document (applyTranslations Example.online Example.rewritingState).2.
Proof.
  split; [by vm_compute|]. split; [by vm_compute|].
  intros E. apply (f_equal docRoot) in E. vm_compute in E. discriminate E.
Qed.

(** C9 as stated fails.  With Arabic loaded at start-up and a fetch of
    the English dataset that fails, a switch to English leaves English
    (the default) as the active code and the Arabic dataset in memory:
    a dataset that the network serves for Arabic and for neither the
    active nor the default language. *)
Lemma dataset_of_another_language :
  reachable Example.arabicOnly Example.afterFailedSwitch ∧
  currentLanguage Example.afterFailedSwitch = "en" ∧
  translations Example.afterFailedSwitch = Example.arabic ∧
  servedFor Example.arabicOnly "ar" (translations Example.afterFailedSwitch) ∧
  ¬ datasetOfActiveOrDefault Example.arabicOnly Example.afterFailedSwitch.
Proof.
  split; [apply reachable_setLanguage, reachable_init, reachable_start|].
  split; [by vm_compute|]. split; [by vm_compute|].
  split; [exists 0%nat; by vm_compute|].
  intros [E|[[n E]|[n E]]]; vm_compute in E; discriminate E.
Qed.

(** ** How a call ends *)

Lemma bind_inv_throw {A B} (m : M A) (f : A → M B) st e st' :
  (m ≫= f) st = (Throw e, st') →
  m st = (Throw e, st') ∨ ∃ a st1, m st = (Normal a, st1) ∧ f a st1 = (Throw e, st').
Proof.
  unfold mbind, M_bind. destruct (m st) as [[a|e'] st1]; [by eauto|].
  intros [= -> ->]. by left.
Qed.

Lemma setDocument_same st : setDocument (document st) st = st.
Proof. by destruct st. Qed.

Lemma updateBody_is_Some f r :
  is_Some (Dom.updateBody f r) ↔ is_Some (Dom.bodyAttributes r).
Proof.
  destruct r as [|tag attrs children]; simpl; [naive_solver|].
  destruct (bool_decide (tag = "html")); [|naive_solver].
  rewrite fmap_is_Some.
  induction children as [|n rest IH]; [naive_solver|]. simpl.
  destruct n as [s|tag' attrs' ch']; simpl.
  - by rewrite fmap_is_Some.
  - destruct (bool_decide (tag' = "body") || bool_decide (tag' = "frameset")).
    + split; intros _; by eexists.
    + by rewrite fmap_is_Some.
Qed.

Lemma hasClass_addClass_same token attrs :
  validToken token = true → Dom.hasClass token (Dom.addClass token attrs) = true.
Proof.
  intros Hv. unfold Dom.hasClass, Dom.addClass. apply bool_decide_eq_true_2.
  pose proof (classList_valid attrs) as Hc.
  destruct (decide (token ∈ Dom.classList attrs)) as [Hin|Hnin].
  - rewrite (bool_decide_eq_true_2 _ Hin). by rewrite classList_insert_class.
  - rewrite (bool_decide_eq_false_2 _ Hnin). rewrite classList_insert_class.
    + rewrite elem_of_app, list_elem_of_singleton. by right.
    + apply Forall_app. split; [done|]. by repeat constructor.
Qed.

Section outcome_facts.
Context (W : World).

Lemma applyTranslations_documentOnly : documentOnly (applyTranslations W).
Proof.
  intros st. unfold applyTranslations.
  destruct (render _ _ _) as [d r]. by exists d.
Qed.

Lemma updateDocumentAttributes_documentOnly : documentOnly updateDocumentAttributes.
Proof.
  intros st. unfold updateDocumentAttributes.
  destruct (docRoot (document st)) as [|tag attrs children].
  { exists (document st). by rewrite setDocument_same. }
  destruct (Dom.updateBody _ _); by eexists.
Qed.

Lemma updateLanguageSelectorUI_documentOnly : documentOnly updateLanguageSelectorUI.
Proof.
  intros st. unfold updateLanguageSelectorUI.
  destruct (updateSelector _ _); [by eexists|].
  exists (document st). by rewrite setDocument_same.
Qed.

Lemma documentOnly_seq (m1 m2 : M ()) :
  documentOnly m1 → documentOnly m2 → documentOnly (m1;; m2).
Proof.
  intros H1 H2 st. unfold mbind, M_bind.
  destruct (H1 st) as [d1 E1]. destruct (m1 st) as [[[]|e] st1]; simpl in E1; subst st1.
  - destruct (H2 (setDocument d1 st)) as [d2 E2]. exists d2. by rewrite E2.
  - by exists d1.
Qed.

Lemma redraw_documentOnly : documentOnly (redraw W).
Proof.
  unfold redraw.
  apply documentOnly_seq; [apply applyTranslations_documentOnly|].
  apply documentOnly_seq;
    [apply updateDocumentAttributes_documentOnly
    |apply updateLanguageSelectorUI_documentOnly].
Qed.

(** When the three steps complete the document has a body. *)
Lemma redraw_body st st' :
  redraw W st = (Normal (), st') →
  is_Some (Dom.bodyAttributes (docRoot (document st'))).
Proof.
  unfold redraw. intros E.
  apply bind_inv_normal in E as ([] & st1 & _ & E).
  apply bind_inv_normal in E as ([] & st2 & E2 & E).
  apply updateDocumentAttributes_normal in E2
    as (_ & attrs & body & _ & _ & _ & Hb & _).
  apply updateLanguageSelectorUI_normal in E as [_ Hb'].
  destruct (Hb' body Hb) as (body' & -> & _). by eexists.
Qed.

Lemma afterLoad_redraw lang st :
  afterLoad W lang st = (redraw W;; modify (addEvent (I18nLanguageChanged lang))) st.
Proof.
  unfold afterLoad, redraw, mbind, M_bind.
  destruct (applyTranslations W st) as [[[]|e] st1]; [|done].
  destruct (updateDocumentAttributes st1) as [[[]|e] st2]; [|done].
  by destruct (updateLanguageSelectorUI st2) as [[[]|e] st3].
Qed.

Lemma afterLoadInit_redraw st :
  afterLoadInit W st
  = (redraw W;; modify (setIsInitialized true);;
     bodyClassListAdd "i18n-ready";;
     current' ← get currentLanguage;
     modify (addEvent (I18nReady current'))) st.
Proof.
  unfold afterLoadInit, redraw, setupLanguageSelector, mbind, M_bind.
  destruct (applyTranslations W st) as [[[]|e] st1]; [|done].
  destruct (updateDocumentAttributes st1) as [[[]|e] st2]; [|done].
  by destruct (updateLanguageSelectorUI st2) as [[[]|e] st3].
Qed.

(** How the part of a switch after the load ends: with the event
    dispatched, or with an exception and no event; either way nothing
    but the document has changed beside. *)
Lemma afterLoad_outcome lang st :
  ∃ d,
    afterLoad W lang st
    = (Normal (), addEvent (I18nLanguageChanged lang) (setDocument d st)) ∨
    ∃ e, afterLoad W lang st = (Throw e, setDocument d st).
Proof.
  rewrite afterLoad_redraw. unfold mbind, M_bind.
  destruct (redraw_documentOnly st) as [d E]. exists d.
  destruct (redraw W st) as [[[]|e] st1]; simpl in E; subst st1; [by left|].
  right. by exists e.
Qed.

(** The same for [init].  The flag is set after the three steps on the
    document; the step that follows it cannot throw, since the document
    has a body by then. *)
Lemma afterLoadInit_outcome st :
  ∃ d,
    afterLoadInit W st
    = (Normal (),
       addEvent (I18nReady (currentLanguage st))
         (setDocument d (setIsInitialized true st))) ∨
    ∃ e, afterLoadInit W st = (Throw e, setDocument d st).
Proof.
  rewrite afterLoadInit_redraw. unfold mbind, M_bind.
  destruct (redraw_documentOnly st) as [d E].
  destruct (redraw W st) as [[[]|e] st1] eqn:Er; simpl in E; subst st1.
  2:{ exists d. right. by exists e. }
  apply redraw_body in Er as Hbody. simpl in *.
  unfold bodyClassListAdd. simpl.
  destruct (Dom.updateBody _ (docRoot d)) as [root'|] eqn:Eb.
  - eexists. by left.
  - apply (updateBody_is_Some (Dom.addClass "i18n-ready")) in Hbody.
    rewrite Eb in Hbody. by destruct Hbody.
Qed.

Lemma persist_eq lang st :
  tryCatch (setItem CONFIG.localStorageKey lang) (λ _, mret ()) st
  = (Normal (), persisted lang st).
Proof. unfold tryCatch, setItem, persisted. by destruct (storage st) as [|[] items]. Qed.

(** What the [try] block around [setItem] leaves alone. *)
Lemma persisted_frame lang st :
  currentLanguage (persisted lang st) = currentLanguage st ∧
  isInitialized (persisted lang st) = isInitialized st ∧
  dispatched (persisted lang st) = dispatched st ∧
  requests (persisted lang st) = requests st.
Proof. unfold persisted. by destruct (storage st) as [|[] items]. Qed.

(** What a load leaves alone. *)
Lemma loaded_frame lang st st' :
  loaded W lang st st' →
  currentLanguage st' = currentLanguage st ∧
  isInitialized st' = isInitialized st ∧
  storage st' = storage st ∧
  document st' = document st ∧
  dispatched st' = dispatched st.
Proof. by destruct 1. Qed.

(** A switch to a supported code other than the active one: the code is
    set and stored, the dataset is loaded, and the rest ends with the
    event or with an exception. *)
Lemma setLanguage_outcome lang st :
  isSupported lang = true → lang ≠ currentLanguage st →
  ∃ st3 d,
    loaded W lang (persisted lang (setCurrentLanguage lang st)) st3 ∧
    (setLanguage W lang st
     = (Normal (), addEvent (I18nLanguageChanged lang) (setDocument d st3)) ∨
     ∃ e, setLanguage W lang st = (Throw e, setDocument d st3)).
Proof.
  intros Hs Hne. rewrite (setLanguage_switch W lang st Hs Hne).
  rewrite (bind_normal _ _ _ _ _ (persist_eq lang _)).
  destruct (loadTranslations_loaded W lang (persisted lang (setCurrentLanguage lang st)))
    as (st3 & El & Hl).
  rewrite (bind_normal _ _ _ _ _ El).
  destruct (afterLoad_outcome lang st3) as [d Hd].
  by exists st3, d.
Qed.

(** A first initialisation: the code is resolved and set, the dataset is
    loaded, and the rest ends with the flag set and the event dispatched,
    or with an exception and neither. *)
Lemma init_outcome st :
  isInitialized st = false →
  ∃ st3 d,
    loaded W (resolved W st) (setCurrentLanguage (resolved W st) st) st3 ∧
    (init W st
     = (Normal (),
        addEvent (I18nReady (resolved W st))
          (setDocument d (setIsInitialized true st3))) ∨
     ∃ e, init W st = (Throw e, setDocument d st3)).
Proof.
  intros Hi. rewrite (init_first W st Hi).
  destruct (loadTranslations_loaded W (resolved W st)
              (setCurrentLanguage (resolved W st) st)) as (st3 & El & Hl).
  rewrite (bind_normal _ _ _ _ _ El).
  destruct (afterLoadInit_outcome st3) as [d Hd].
  exists st3, d. split; [done|].
  by rewrite (loaded_currentLanguage W _ _ _ Hl) in Hd.
Qed.

(** The events of a reachable state: each carries a supported code, and
    there is one [i18n:ready] among them when the flag is set and none
    when it is not. *)
Lemma reachable_events st :
  reachable W st →
  Forall (λ e, eventLanguage e ∈ CONFIG.supportedLanguages) (dispatched st) ∧
  length (filter (λ e, isReady e = true) (dispatched st))
  = (if isInitialized st then 1 else 0)%nat.
Proof.
  induction 1 as [d s|st _ [IH1 IH2]|lang st _ [IH1 IH2]|d s st _ IH]; [done| | |done].
  - destruct (isInitialized st) eqn:Hi.
    { rewrite init_again by done. simpl. by rewrite Hi. }
    destruct (init_outcome st Hi) as (st3 & d & Hl & [E|(e & E)]);
      rewrite E; simpl; apply loaded_frame in Hl as (_ & Hf & _ & _ & Hd); simpl in *.
    + rewrite Hd. split.
      * apply Forall_app. split; [done|].
        apply Forall_singleton, resolved_supported.
      * by rewrite filter_app, length_app, IH2.
    + by rewrite Hd, Hf, Hi.
  - destruct (isSupported lang) eqn:Hs.
    2:{ by rewrite setLanguage_reject. }
    destruct (decide (lang = currentLanguage st)) as [->|Hne].
    { by rewrite setLanguage_same. }
    destruct (persisted_frame lang (setCurrentLanguage lang st)) as (_ & Hpf & Hpd & _).
    destruct (setLanguage_outcome lang st Hs Hne) as (st3 & d & Hl & [E|(e & E)]);
      rewrite E; simpl; apply loaded_frame in Hl as (_ & Hf & _ & _ & Hd);
      rewrite Hd, Hf, Hpd, Hpf; simpl; [|done].
    split.
    + apply Forall_app. split; [done|].
      by apply Forall_singleton, isSupported_true.
    + rewrite filter_app, length_app, IH2. simpl. lia.
Qed.

Lemma loaded_requests lang st st' :
  lang ∈ CONFIG.supportedLanguages →
  loaded W lang st st' →
  Forall localeRequest (requests st) → Forall localeRequest (requests st').
Proof.
  intros Hs Hl Hr.
  assert (localeRequest (localePath lang)) as H1 by by exists lang.
  assert (localeRequest (localePath CONFIG.defaultLanguage)) as H2.
  { exists CONFIG.defaultLanguage. split; [apply default_supported|done]. }
  destruct Hl; simpl; rewrite ?Forall_app, ?Forall_singleton; naive_solver.
Qed.

(** After a switch that completes the root element carries the code and
    its direction. *)
Lemma setLanguage_completed lang st st' :
  isSupported lang = true →
  lang ≠ currentLanguage st →
  setLanguage W lang st = (Normal (), st') →
  currentLanguage st' = lang ∧
  ∃ attrs,
    Dom.rootAttributes (docRoot (document st')) = Some attrs ∧
    attrs !! "lang" = Some lang ∧
    attrs !! "dir" = Some (if isRtlLanguage lang then "rtl" else "ltr").
Proof.
  intros Hs Hne. rewrite (setLanguage_switch W lang st Hs Hne).
  set (st1 := setCurrentLanguage lang st). intros E.
  apply bind_inv_normal in E as ([] & st2 & E2 & E).
  apply bind_inv_normal in E as ([] & st3 & E3 & E).
  unfold afterLoad in E.
  apply bind_inv_normal in E as ([] & st4 & E4 & E).
  apply bind_inv_normal in E as ([] & st5 & E5 & E).
  apply bind_inv_normal in E as ([] & st6 & E6 & E).
  injection E as <-.
  assert (currentLanguage st4 = lang) as Hcur.
  { pose proof (persist_keeps lang st1) as (H2 & _). rewrite E2 in H2.
    destruct (loadTranslations_loaded W lang st2) as (st3' & El & Hl).
    rewrite E3 in El. injection El as <-.
    pose proof (applyTranslations_keeps W st3) as (H4 & _). rewrite E4 in H4.
    simpl in H2, H4.
    by rewrite H4, (loaded_currentLanguage W _ _ _ Hl), H2. }
  pose proof (updateLanguageSelectorUI_keeps st5) as (H6 & _). rewrite E6 in H6.
  apply updateDocumentAttributes_normal in E5
    as ((H5 & _) & attrs & body & Hr & Hlang & Hdir & _).
  apply updateLanguageSelectorUI_normal in E6 as [Hr6 _].
  simpl in *. split; [by rewrite H6, H5|].
  exists attrs. by rewrite Hr6, Hr, Hlang, Hdir, Hcur.
Qed.

End outcome_facts.

(** X1.  [init] runs once.  A first call that completes sets the
    initialisation flag, and a call after it returns at once: it leaves
    the state as it is, so it resolves no language, issues no request,
    writes nothing to the document and dispatches no event. *)
Theorem init_once (W : World) (st st' : State) :
  isInitialized st = false →
  init W st = (Normal (), st') →
  isInitialized st' = true ∧ init W st' = (Normal (), st').
Proof.
  intros Hi E.
  destruct (init_outcome W st Hi) as (st3 & d & _ & [E'|(e & E')]);
    rewrite E' in E; [|done].
  injection E as <-.
  split; [done|]. by apply init_again.
Qed.

Section event_facts.
Context (W : World).

(** *** The readiness event *)

Lemma readyCount_addEvent e st :
  readyCount (addEvent e st) = (readyCount st + if isReady e then 1 else 0)%nat.
Proof.
  unfold readyCount. simpl. rewrite filter_app, length_app. f_equal.
  by destruct e.
Qed.

Lemma length_filter_insert {A} (P : A → Prop) `{!∀ x, Decision (P x)} l i p q :
  l !! i = Some p → (P q ↔ P p) →
  length (filter P (<[i := q]> l)) = length (filter P l).
Proof.
  intros Hl Hpq. rewrite <- (take_drop_middle l i p Hl) at 2.
  rewrite insert_take_drop by by eapply lookup_lt_Some.
  rewrite !filter_app, !length_app, !filter_cons.
  destruct (decide (P q)), (decide (P p)); naive_solver.
Qed.

Lemma length_filter_delete {A} (P : A → Prop) `{!∀ x, Decision (P x)} l i p :
  l !! i = Some p →
  (length (filter P (delete i l)) + if decide (P p) then 1 else 0)%nat
  = length (filter P l).
Proof.
  intros Hl. rewrite <- (take_drop_middle l i p Hl) at 2.
  rewrite delete_take_drop.
  rewrite !filter_app, !length_app, !filter_cons.
  destruct (decide (P p)); simpl; lia.
Qed.

(** What a turn of a suspended call does to the events and the flag. *)
Lemma catchLoad_events caller lang error st :
  ∃ q, (catchLoad caller lang error st).2 = Suspended q ∧
       isInitCall q = isInitCall (AwaitLoad caller) ∧
       dispatched (catchLoad caller lang error st).1 = dispatched st ∧
       isInitialized (catchLoad caller lang error st).1 = isInitialized st.
Proof.
  unfold catchLoad. destruct (decide _); eexists; (split; [done|]); by destruct caller.
Qed.

Lemma resume_events p st :
  match (resume W p st).2 with
  | Suspended q =>
      isInitCall q = isInitCall p ∧
      dispatched (resume W p st).1 = dispatched st ∧
      isInitialized (resume W p st).1 = isInitialized st
  | Settled r =>
      (isInitCall p = true ∧
       readyCount (resume W p st).1 = S (readyCount st) ∧
       isInitialized (resume W p st).1 = true) ∨
      (readyCount (resume W p st).1 = readyCount st ∧
       isInitialized (resume W p st).1 = isInitialized st)
  end.
Proof.
  destruct p as [caller lang n|caller lang json|caller]; cbn [resume].
  - destruct (network W n (localePath lang)) as [|ok json].
    + destruct (catchLoad_events caller lang NetworkError st) as (q & -> & ? & ? & ?).
      by destruct caller.
    + destruct ok; cbn [negb]; [by destruct caller|].
      destruct (catchLoad_events caller lang (LoadError (lang +:+ ".json")) st)
        as (q & -> & ? & ? & ?).
      by destruct caller.
  - destruct json as [v|]; [by destruct caller|].
    destruct (catchLoad_events caller lang SyntaxError st) as (q & -> & ? & ? & ?).
    by destruct caller.
  - destruct caller as [|lang].
    + destruct (afterLoadInit_outcome W st) as [d [E|[e E]]]; rewrite E; cbn [fst snd].
      * left. split; [done|]. rewrite readyCount_addEvent. simpl.
        split; [unfold readyCount; simpl; lia|done].
      * by right.
    + destruct (afterLoad_outcome W lang st) as [d [E|[e E]]]; rewrite E; cbn [fst snd].
      * right. rewrite readyCount_addEvent. simpl. split; [|done].
        unfold readyCount. simpl. lia.
      * by right.
Qed.

Lemma callInit_events st :
  dispatched (callInit W st).1 = dispatched st ∧
  isInitialized (callInit W st).1 = isInitialized st.
Proof.
  unfold callInit. destruct (isInitialized st) eqn:Hi; [done|].
  by rewrite resolveLanguage_eq.
Qed.

Lemma callSetLanguage_events lang st :
  dispatched (callSetLanguage lang st).1 = dispatched st ∧
  isInitialized (callSetLanguage lang st).1 = isInitialized st ∧
  ∀ q, (callSetLanguage lang st).2 = Suspended q → isInitCall q = false.
Proof.
  unfold callSetLanguage. destruct (isSupported lang); [|done]. cbn [negb].
  destruct (bool_decide _); [done|].
  destruct (persisted_frame lang (setCurrentLanguage lang st)) as (_ & Hf & Hd & _).
  rewrite persist_eq. cbn [issueFetch fst snd].
  split; [done|]. split; [done|]. by intros q [= <-].
Qed.

Lemma run_events d s turns :
  (0 < readyCount (now (run W d s turns))
   ↔ isInitialized (now (run W d s turns)) = true) ∧
  (readyCount (now (run W d s turns))
   + length (filter (λ p, isInitCall p = true) (suspended (run W d s turns)))
   ≤ length (filter (λ t, isTurnInit t = true) turns))%nat.
Proof.
  induction turns as [|t turns [IH1 IH2]] using rev_ind.
  { split; [|done]. unfold readyCount. simpl. split; [lia|done]. }
  rewrite run_snoc, filter_app, length_app. set (c := run W d s turns) in *.
  destruct t as [|lang|i|d' s']; cbn [turn].
  - destruct (callInit_events (now c)) as [Hd Hf].
    assert (readyCount (callInit W (now c)).1 = readyCount (now c)) as Hc
      by (unfold readyCount; by rewrite Hd).
    unfold called. destruct (callInit W (now c)) as [st' [q|r]]; simpl in *.
    + rewrite Hc, Hf. split; [done|]. rewrite filter_app, length_app.
      assert (length (filter (λ p, isInitCall p = true) [q]) ≤ 1)%nat; [|lia].
      rewrite filter_cons. destruct (decide _); simpl; lia.
    + rewrite Hc, Hf. split; [done|]. lia.
  - destruct (callSetLanguage_events lang (now c)) as (Hd & Hf & Hq).
    assert (readyCount (callSetLanguage lang (now c)).1 = readyCount (now c)) as Hc
      by (unfold readyCount; by rewrite Hd).
    unfold called. destruct (callSetLanguage lang (now c)) as [st' [q|r]]; simpl in *.
    + rewrite Hc, Hf. split; [done|]. rewrite filter_app, length_app.
      rewrite filter_cons, (Hq q eq_refl). simpl. lia.
    + rewrite Hc, Hf. split; [done|]. lia.
  - simpl. destruct (suspended c !! i) as [p|] eqn:Ep; [|split; [done|lia]].
    pose proof (resume_events p (now c)) as He.
    unfold resumed. destruct (resume W p (now c)) as [st' [q|r]]; simpl in *.
    + destruct He as (Hq & Hd & Hf).
      assert (readyCount st' = readyCount (now c)) as Hc
        by (unfold readyCount; by rewrite Hd).
      rewrite Hc, Hf. split; [done|].
      rewrite (length_filter_insert _ _ i p q Ep) by by rewrite Hq. lia.
    + pose proof (length_filter_delete (λ p, isInitCall p = true) _ i p Ep) as Hdel.
      destruct He as [(Hp & Hc & Hf)|(Hc & Hf)].
      * rewrite Hc, Hf. split; [split; [done|lia]|].
        rewrite decide_True in Hdel by done. lia.
      * rewrite Hc, Hf. split; [done|].
        destruct (decide _); lia.
  - unfold readyCount in *. simpl. split; [done|]. lia.
Qed.

End event_facts.

(** X2.  What follows the [await] of [init], when it completes,
    whatever ran since the call: the initialisation flag is set, one
    event is dispatched after those that were there, [i18n:ready] with
    the code that is active at that moment, and the body has the class
    [i18n-ready].  When nothing runs in between, in a first [init] that
    completes, that code is the resolved one. *)
Theorem init_completed (W : World) :
  (∀ st st',
     resume W (AwaitLoad CallerInit) st = (st', Settled (Normal ())) →
     currentLanguage st' = currentLanguage st ∧
     isInitialized st' = true ∧
     dispatched st' = dispatched st ++ [I18nReady (currentLanguage st)] ∧
     ∃ body, Dom.bodyAttributes (docRoot (document st')) = Some body ∧
             Dom.hasClass "i18n-ready" body = true) ∧
  (∀ st st',
     isInitialized st = false →
     init W st = (Normal (), st') →
     currentLanguage st' = resolved W st ∧
     dispatched st' = dispatched st ++ [I18nReady (resolved W st)] ∧
     ∃ body, Dom.bodyAttributes (docRoot (document st')) = Some body ∧
             Dom.hasClass "i18n-ready" body = true).
Proof.
  assert (∀ st st',
            afterLoadInit W st = (Normal (), st') →
            currentLanguage st' = currentLanguage st ∧
            isInitialized st' = true ∧
            dispatched st' = dispatched st ++ [I18nReady (currentLanguage st)] ∧
            ∃ body, Dom.bodyAttributes (docRoot (document st')) = Some body ∧
                    Dom.hasClass "i18n-ready" body = true) as Hafter.
  { intros st st' E. split; [|split; [|split]].
    - destruct (afterLoadInit_outcome W st) as [d [E'|[e E']]];
        rewrite E' in E; [|done]. by injection E as <-.
    - destruct (afterLoadInit_outcome W st) as [d [E'|[e E']]];
        rewrite E' in E; [|done]. by injection E as <-.
    - destruct (afterLoadInit_outcome W st) as [d [E'|[e E']]];
        rewrite E' in E; [|done]. by injection E as <-.
    - unfold afterLoadInit in E.
      apply bind_inv_normal in E as ([] & st4 & _ & E).
      apply bind_inv_normal in E as ([] & st5 & _ & E).
      apply bind_inv_normal in E as ([] & st6 & _ & E).
      apply bind_inv_normal in E as ([] & st7 & _ & E).
      apply bind_inv_normal in E as ([] & st8 & E8 & E).
      apply bind_inv_normal in E as (current' & st9 & E9 & E).
      injection E9 as <- <-. injection E as <-.
      unfold bodyClassListAdd in E8.
      destruct (Dom.updateBody _ _) as [root'|] eqn:Eb; [|done].
      injection E8 as <-. simpl.
      apply updateBody_Some in Eb as (a & _ & -> & _).
      eexists. split; [done|]. by apply hasClass_addClass_same. }
  split.
  - intros st st'. cbn [resume].
    destruct (afterLoadInit W st) as [r st1] eqn:E. intros [= <- ->].
    by apply Hafter.
  - intros st st' Hi E. rewrite (init_first W st Hi) in E.
    apply bind_inv_normal in E as ([] & st3 & E3 & E).
    destruct (loadTranslations_loaded W (resolved W st)
                (setCurrentLanguage (resolved W st) st)) as (st3' & El & Hl).
    rewrite E3 in El. injection El as <-.
    apply loaded_frame in Hl as (Hc & _ & _ & _ & Hd). simpl in Hc, Hd.
    destruct (Hafter st3 st' E) as (H1 & _ & H3 & H4).
    rewrite H1, H3, Hc, Hd. done.
Qed.

(** X3.  A first [init] that ends with an exception (one thrown while
    the document is updated: the load itself never throws) leaves the
    initialisation flag unset, so that a later call runs again, and
    dispatches no event; the active language is already the resolved
    code. *)
Theorem init_failed (W : World) (st st' : State) (e : Exn) :
  isInitialized st = false →
  init W st = (Throw e, st') →
  isInitialized st' = false ∧
  dispatched st' = dispatched st ∧
  currentLanguage st' = resolved W st.
Proof.
  intros Hi E.
  destruct (init_outcome W st Hi) as (st3 & d & Hl & [E'|(e' & E')]);
    rewrite E' in E; [done|].
  injection E as <- <-.
  apply loaded_frame in Hl as (Hc & Hf & _ & _ & Hd). simpl in *.
  split; [by rewrite <- Hi|]. by split.
Qed.

(** X4.  A switch to a supported code other than the active one makes
    that code the active language whether it completes or not, leaves
    the initialisation flag alone, and dispatches exactly one event,
    [i18n:languageChanged] with the code, when it completes and none
    when it ends with an exception. *)
Theorem setLanguage_event (W : World) (lang : string) (st : State) :
  isSupported lang = true → lang ≠ currentLanguage st →
  currentLanguage (setLanguage W lang st).2 = lang ∧
  isInitialized (setLanguage W lang st).2 = isInitialized st ∧
  dispatched (setLanguage W lang st).2
  = match (setLanguage W lang st).1 with
    | Normal _ => dispatched st ++ [I18nLanguageChanged lang]
    | Throw _ => dispatched st
    end.
Proof.
  intros Hs Hne.
  destruct (persisted_frame lang (setCurrentLanguage lang st)) as (Hpc & Hpf & Hpd & _).
  destruct (setLanguage_outcome W lang st Hs Hne) as (st3 & d & Hl & [E|(e & E)]);
    rewrite E; simpl; apply loaded_frame in Hl as (Hc & Hi & _ & _ & Hd);
    by rewrite Hc, Hd, Hi, Hpc, Hpd, Hpf.
Qed.

(** X5.  The choice is remembered.  On a storage that can be written, a
    switch to a supported code other than the active one stores the code
    under the module's key and leaves the other items alone, whether the
    rest of the switch completes or not; [getStoredLanguage] then returns
    the code, and on a later page load with this storage and no language
    in the query string the language resolved is the code. *)
Theorem setLanguage_remembered (W W' : World) (lang : string) (st : State)
    (items : gmap string string) :
  isSupported lang = true → lang ≠ currentLanguage st →
  storage st = StorageAvailable false items →
  queryLang W' = None →
  storage (setLanguage W lang st).2
  = StorageAvailable false (<[CONFIG.localStorageKey := lang]> items) ∧
  (getStoredLanguage (setLanguage W lang st).2).1 = Normal (Some lang) ∧
  ∀ d, (resolveLanguage W'
          (initialState d (storage (setLanguage W lang st).2))).1 = Normal lang.
Proof.
  intros Hs Hne Hst Hq.
  assert (storage (setLanguage W lang st).2
          = StorageAvailable false (<[CONFIG.localStorageKey := lang]> items)) as E.
  { destruct (setLanguage_outcome W lang st Hs Hne) as (st3 & d & Hl & [E|(e & E)]);
      rewrite E; simpl; apply loaded_frame in Hl as (_ & _ & -> & _);
      unfold persisted; simpl; by rewrite Hst. }
  assert (supportedOrNull (Some lang) = Some lang) as Hsup.
  { simpl. by rewrite Hs, (isSupported_nonempty _ Hs). }
  split; [done|]. split.
  - rewrite getStoredLanguage_eq. cbn [fst]. rewrite E. cbn [storedPreference].
    by rewrite lookup_insert_eq, Hsup.
  - intros d. rewrite resolveLanguage_eq. cbn [fst]. f_equal.
    unfold resolved. rewrite Hq. cbn [supportedOrNull initialState storage].
    rewrite E. cbn [storedPreference].
    by rewrite lookup_insert_eq, Hsup.
Qed.

(** X6.  A storage that cannot be written does not stop a switch.  When
    [localStorage] throws on access or has run out of quota, a switch to
    a supported code other than the active one leaves the storage as it
    is, makes the code the active language and requests its dataset. *)
Theorem setLanguage_without_storage (W : World) (lang : string) (st : State) :
  isSupported lang = true → lang ≠ currentLanguage st →
  (storage st = StorageUnavailable ∨ ∃ items, storage st = StorageAvailable true items) →
  storage (setLanguage W lang st).2 = storage st ∧
  currentLanguage (setLanguage W lang st).2 = lang ∧
  ∃ more, requests (setLanguage W lang st).2
          = requests st ++ localePath lang :: more.
Proof.
  intros Hs Hne Hst.
  assert (persisted lang (setCurrentLanguage lang st) = setCurrentLanguage lang st) as Hp.
  { unfold persisted. simpl. by destruct Hst as [->|[items ->]]. }
  destruct (setLanguage_outcome W lang st Hs Hne) as (st3 & d & Hl & HE).
  rewrite Hp in Hl.
  assert (storage st3 = storage st ∧ currentLanguage st3 = lang ∧
          ∃ more, requests st3 = requests st ++ localePath lang :: more) as (H1 & H2 & H3).
  { destruct Hl; simpl; (split; [done|]); (split; [done|]).
    - by exists [].
    - by exists [].
    - exists [localePath CONFIG.defaultLanguage]. by rewrite <- app_assoc.
    - exists [localePath CONFIG.defaultLanguage]. by rewrite <- app_assoc. }
  by destruct HE as [E|(e & E)]; rewrite E.
Qed.

Lemma render_null (H : Host) (d : Document) :
  ∃ e, (render H Null d).2 = Throw e.
Proof.
  unfold render.
  destruct (translateAttributes H Null _) as [root2 [[]|e]]; [|by exists e].
  by exists TypeError.
Qed.

(** X7.  A dataset file whose content is the JSON value [null] breaks a
    switch.  When the fetch for a supported code other than the active
    one succeeds with [null], [setLanguage] ends with an exception
    (rendering reads [translations.meta]); by then the code is the
    active language and [null] is the dataset in memory, and no event
    is dispatched. *)
Theorem setLanguage_null_dataset (W : World) (lang : string) (st : State) :
  isSupported lang = true → lang ≠ currentLanguage st →
  network W (length (requests st)) (localePath lang) = FetchResponse true (Some Null) →
  ∃ e, (setLanguage W lang st).1 = Throw e ∧
       currentLanguage (setLanguage W lang st).2 = lang ∧
       translations (setLanguage W lang st).2 = Null ∧
       dispatched (setLanguage W lang st).2 = dispatched st.
Proof.
  intros Hs Hne Hn.
  rewrite (setLanguage_switch W lang st Hs Hne).
  rewrite (bind_normal _ _ _ _ _ (persist_eq lang _)).
  destruct (persisted_frame lang (setCurrentLanguage lang st)) as (Hpc & _ & Hpd & Hr).
  simpl in Hr. rewrite <- Hr in Hn.
  rewrite (bind_normal _ _ _ _ _ (loadTranslations_success W _ _ _ Hn)).
  set (st3 := setTranslations Null _).
  unfold afterLoad.
  destruct (render_null (host W) (document st3)) as [e He].
  assert (applyTranslations W st3
          = (Throw e, setDocument (render (host W) Null (document st3)).1 st3)) as Ea.
  { unfold applyTranslations. change (translations st3) with Null.
    destruct (render _ _ _) as [d r]. simpl in He. by subst r. }
  rewrite (bind_throw _ _ _ _ _ Ea). exists e. simpl.
  by rewrite Hpc, Hpd.
Qed.

(** X8.  A load touches the dataset, the request log and the error
    console and nothing else: the active language, the initialisation
    flag, the storage, the document and the events are as before.  It
    issues the request for the code, and one more, for the default
    language, exactly when the first fetch failed and the code is not
    the default; every failed fetch leaves one line on the error console,
    so at most one line for the default code and at most two for
    another. *)
Theorem loadTranslations_frame (W : World) (lang : string) (st : State) :
  let st' := (loadTranslations W lang st).2 in
  currentLanguage st' = currentLanguage st ∧
  isInitialized st' = isInitialized st ∧
  storage st' = storage st ∧
  document st' = document st ∧
  dispatched st' = dispatched st ∧
  ∃ errors,
    consoleErrors st'
    = consoleErrors st ++ ((λ e, ("Failed to load translations:", Some e)) <$> errors) ∧
    requests st'
    = requests st ++ localePath lang ::
        match errors with
        | [] => []
        | _ :: _ =>
            if decide (lang = CONFIG.defaultLanguage) then []
            else [localePath CONFIG.defaultLanguage]
        end ∧
    length errors ≤ (if decide (lang = CONFIG.defaultLanguage) then 1 else 2).
Proof.
  destruct (loadTranslations_loaded W lang st) as (st' & -> & Hl). simpl.
  destruct Hl as [v Hv|error Hf He|error v Hf Hne Hv|error error' Hf Hne Hf2];
    simpl; repeat (split; [done|]).
  - exists []. simpl. rewrite app_nil_r. split; [done|]. split; [done|].
    destruct (decide _); lia.
  - exists [error]. simpl. destruct (decide _); [|done]. by repeat split.
  - exists [error]. simpl. destruct (decide _); [done|].
    rewrite <- app_assoc. repeat split; try done; lia.
  - exists [error; error']. simpl. destruct (decide _); [done|].
    rewrite <- !app_assoc. repeat split; try done; lia.
Qed.

(** X9.  Listeners only ever hear of supported languages: in every
    reachable state each event that the module has dispatched,
    [i18n:ready] or [i18n:languageChanged], carries a supported code. *)
Theorem dispatched_supported (W : World) (st : State) :
  reachable W st →
  Forall (λ e, eventLanguage e ∈ CONFIG.supportedLanguages) (dispatched st).
Proof. intros Hr. by apply reachable_events in Hr as [? _]. Qed.

(** X10.  [i18n:ready] and the initialisation flag, on every schedule:
    the flag is set exactly when an [i18n:ready] has been dispatched,
    and there are no more [i18n:ready] events than calls of [init].
    (There can be as many: the flag is set after the [await], so that a
    second call made before the first has come to its end goes on as
    the first one does.) *)
Theorem ready_dispatched_flag (W : World) (d : Document) (s : Storage)
    (turns : list Turn) :
  (0 < readyCount (now (run W d s turns))
   ↔ isInitialized (now (run W d s turns)) = true) ∧
  (readyCount (now (run W d s turns))
   ≤ length (filter (λ t, isTurnInit t = true) turns))%nat.
Proof.
  destruct (run_events W d s turns) as [H1 H2]. split; [done|]. lia.
Qed.

(** X11.  The module fetches the datasets of supported languages and
    nothing else: in every reachable state each request issued is for
    the locale file of a supported code. *)
Theorem requests_supported (W : World) (st : State) :
  reachable W st → Forall localeRequest (requests st).
Proof.
  induction 1 as [d s|st _ IH|lang st _ IH|d s st _ IH]; [done| | |done].
  - destruct (isInitialized st) eqn:Hi.
    { by rewrite init_again. }
    destruct (init_outcome W st Hi) as (st3 & d & Hl & [E|(e & E)]);
      rewrite E; simpl;
      apply (loaded_requests W _ _ _ (resolved_supported W st) Hl IH).
  - destruct (isSupported lang) eqn:Hs.
    2:{ by rewrite setLanguage_reject. }
    destruct (decide (lang = currentLanguage st)) as [->|Hne].
    { by rewrite setLanguage_same. }
    destruct (persisted_frame lang (setCurrentLanguage lang st)) as (_ & _ & _ & Hpr).
    apply isSupported_true in Hs as Hs'.
    destruct (setLanguage_outcome W lang st Hs Hne) as (st3 & d & Hl & [E|(e & E)]);
      rewrite E; simpl;
      apply (loaded_requests W _ _ _ Hs' Hl); by rewrite Hpr.
Qed.

(** X12.  [init] does not write to the storage, whichever source the
    language came from and however the call completes: a language taken
    from the query string or from the browser is not remembered for the
    next visit. *)
Theorem init_not_persisted (W : World) (st : State) :
  storage (init W st).2 = storage st.
Proof.
  destruct (isInitialized st) eqn:Hi.
  { by rewrite init_again. }
  destruct (init_outcome W st Hi) as (st3 & d & Hl & [E|(e & E)]);
    rewrite E; simpl; by apply loaded_frame in Hl as (_ & _ & -> & _).
Qed.

(** X13.  After a first [init] or a switch that completes, the getters
    of the module agree with the document: [getCurrentLanguage] returns
    the value of the root element's [lang] attribute, the root's [dir]
    is ["rtl"] or ["ltr"], and [isRTL] returns [true] exactly when it is
    ["rtl"]. *)
Theorem accessors_agree (W : World) (st st' : State) :
  (isInitialized st = false ∧ init W st = (Normal (), st')) ∨
  (∃ lang, isSupported lang = true ∧ lang ≠ currentLanguage st ∧
           setLanguage W lang st = (Normal (), st')) →
  ∃ attrs,
    Dom.rootAttributes (docRoot (document st')) = Some attrs ∧
    getCurrentLanguage st' = (Normal (currentLanguage st'), st') ∧
    attrs !! "lang" = Some (currentLanguage st') ∧
    (attrs !! "dir" = Some "rtl" ∨ attrs !! "dir" = Some "ltr") ∧
    isRTL st' = (Normal (bool_decide (attrs !! "dir" = Some "rtl")), st').
Proof.
  assert (∀ code attrs,
            currentLanguage st' = code →
            Dom.rootAttributes (docRoot (document st')) = Some attrs →
            attrs !! "lang" = Some code →
            attrs !! "dir" = Some (if isRtlLanguage code then "rtl" else "ltr") →
            ∃ attrs,
              Dom.rootAttributes (docRoot (document st')) = Some attrs ∧
              getCurrentLanguage st' = (Normal (currentLanguage st'), st') ∧
              attrs !! "lang" = Some (currentLanguage st') ∧
              (attrs !! "dir" = Some "rtl" ∨ attrs !! "dir" = Some "ltr") ∧
              isRTL st' = (Normal (bool_decide (attrs !! "dir" = Some "rtl")), st'))
    as Hgoal.
  { intros code attrs Hc Hr Hl Hd. exists attrs.
    split; [done|]. split; [done|]. split; [by rewrite Hc|].
    unfold isRTL, mbind, M_bind, get, mret, M_ret. rewrite Hc, Hd.
    by destruct (isRtlLanguage code); [split; [left|]|split; [right|]]. }
  intros [[Hi E]|(lang & Hs & Hne & E)].
  - destruct (init_direction W st st' Hi E)
      as (attrs & body & Hr & _ & Hl & Hd & _).
    apply (Hgoal (resolved W st) attrs); try done.
    destruct (init_loaded W st Hi) as (st3 & Hl3 & (Ec & _)).
    rewrite E in Ec. simpl in Ec.
    by rewrite Ec, (loaded_currentLanguage W _ _ _ Hl3).
  - destruct (setLanguage_completed W lang st st' Hs Hne E)
      as (Hc & attrs & Hr & Hl & Hd).
    by apply (Hgoal lang attrs).
Qed.

(** X14.  [updateDocumentAttributes] completes exactly when the document
    has a body; without one it throws a [TypeError].  In both cases the
    root element has been given the active code as [lang] and its
    direction as [dir] by then. *)
Theorem updateDocumentAttributes_completes (st : State)
    (tag : string) (attrs : gmap string string) (children : list node) :
  docRoot (document st) = Elem tag attrs children →
  (updateDocumentAttributes st).1
  = (if bool_decide (is_Some (Dom.bodyAttributes (docRoot (document st))))
     then Normal () else Throw TypeError) ∧
  Dom.rootAttributes (docRoot (document (updateDocumentAttributes st).2))
  = Some (<["dir" := if isRtlLanguage (currentLanguage st) then "rtl" else "ltr"]>
            (<["lang" := currentLanguage st]> attrs)).
Proof.
  intros Hr. unfold updateDocumentAttributes. rewrite Hr.
  match goal with |- context [Dom.updateBody ?f ?r] =>
    pose proof (updateBody_is_Some f r) as Hb;
    destruct (Dom.updateBody f r) as [root2|] eqn:E end.
  - apply updateBody_Some in E as (_ & _ & _ & Hroot). simpl in *.
    split; [|done]. rewrite bool_decide_eq_true_2; [done|]. by apply Hb.
  - simpl in *. split; [|done]. rewrite bool_decide_eq_false_2; [done|].
    intros Hs. apply Hb in Hs. by destruct Hs.
Qed.

(** ** The language selector *)

Section selector_facts.
Context (current : string).

Lemma toggleClass_lookup token force attrs k :
  k ≠ "class" → Dom.toggleClass token force attrs !! k = attrs !! k.
Proof.
  intros Hk. unfold Dom.toggleClass.
  destruct (bool_decide _), force; try done; by rewrite lookup_insert_ne.
Qed.

(** [toggle] with a [force] that the token set meets already writes
    nothing. *)
Lemma toggleClass_settled token force attrs :
  Dom.hasClass token attrs = force → Dom.toggleClass token force attrs = attrs.
Proof.
  unfold Dom.hasClass, Dom.toggleClass. intros <-. by destruct (bool_decide _).
Qed.

Lemma markButton_marked attrs : buttonMarked current (markButton current attrs) = true.
Proof.
  unfold buttonMarked, markButton.
  destruct (attrs !! "data-lang") as [lang|] eqn:E; [|by rewrite E].
  rewrite lookup_insert_ne, toggleClass_lookup, E by done.
  rewrite hasClass_insert_other, hasClass_toggleClass by done.
  rewrite lookup_insert_eq. simpl.
  by rewrite !bool_decide_eq_true_2.
Qed.

Lemma markButtons_marked n : buttonsMarked current (markButtons current n) = true.
Proof.
  induction n as [s|tag attrs children IH] using node_children_ind; [done|].
  simpl. rewrite markButton_marked. simpl.
  apply forallb_forall. intros x Hx. apply in_map_iff in Hx as (c & <- & Hc).
  rewrite Forall_forall in IH. apply IH. by apply list_elem_of_In.
Qed.

Lemma markButton_twice attrs :
  markButton current (markButton current attrs) = markButton current attrs.
Proof.
  unfold markButton at 2.
  destruct (attrs !! "data-lang") as [lang|] eqn:E.
  2:{ unfold markButton. by rewrite E. }
  unfold markButton.
  rewrite lookup_insert_ne, toggleClass_lookup, E by done.
  rewrite toggleClass_settled.
  - by rewrite insert_insert_eq.
  - by rewrite hasClass_insert_other, hasClass_toggleClass.
Qed.

Lemma markButtons_twice n :
  markButtons current (markButtons current n) = markButtons current n.
Proof.
  induction n as [s|tag attrs children IH] using node_children_ind; [done|].
  simpl. rewrite markButton_twice. f_equal.
  rewrite map_map. by apply map_ext_Forall.
Qed.

(** The selector that has been updated is found again, and nothing is
    left to write. *)
Lemma updateSelector_again n n' :
  updateSelector current n = Some n' → updateSelector current n' = Some n'.
Proof.
  revert n'.
  induction n as [s|tag attrs children IH] using node_children_ind; [done|].
  intros n'. simpl.
  destruct (bool_decide (attrs !! "id" = Some "language-selector")) eqn:Hid.
  - intros [= <-]. simpl. rewrite Hid. do 2 f_equal.
    rewrite map_map. apply map_ext_Forall, Forall_forall.
    intros c _. apply markButtons_twice.
  - destruct (Dom.updateFirstOf _ children) as [children'|] eqn:E; [|done].
    intros [= <-]. simpl. rewrite Hid.
    assert (Dom.updateFirstOf (updateSelector current) children' = Some children')
      as ->; [|done].
    revert children' E.
    induction IH as [|c rest Hc _ IHrest]; intros children'; [done|].
    simpl. destruct (updateSelector current c) as [c'|] eqn:Ec.
    + intros [= <-]. simpl. by rewrite (Hc c').
    + destruct (Dom.updateFirstOf _ rest) as [rest'|]; [|done].
      intros [= <-]. simpl. rewrite Ec. by rewrite (IHrest rest').
Qed.

(** [updateSelector] works on the element that [selectorContent] finds,
    and runs the callback on every child of it. *)
Lemma updateSelector_content n :
  match selectorContent n with
  | Some content =>
      ∃ n', updateSelector current n = Some n' ∧
            selectorContent n' = Some (map (markButtons current) content)
  | None => updateSelector current n = None
  end.
Proof.
  induction n as [s|tag attrs children IH] using node_children_ind; [done|].
  simpl.
  destruct (bool_decide (attrs !! "id" = Some "language-selector")) eqn:Hid.
  { eexists. split; [done|]. simpl. by rewrite Hid. }
  assert (match firstSome selectorContent children with
          | Some content =>
              ∃ children', Dom.updateFirstOf (updateSelector current) children
                           = Some children' ∧
                           firstSome selectorContent children'
                           = Some (map (markButtons current) content)
          | None => Dom.updateFirstOf (updateSelector current) children = None
          end) as Hch.
  { induction IH as [|c rest Hc _ IHrest]; [done|]. simpl.
    destruct (selectorContent c) as [content|] eqn:Ec.
    - destruct Hc as (c' & -> & Hc'). eexists. split; [done|]. simpl. by rewrite Hc'.
    - rewrite Hc.
      destruct (firstSome selectorContent rest) as [content|].
      + destruct IHrest as (rest' & -> & Hr). eexists. split; [done|].
        simpl. by rewrite Ec.
      + by rewrite IHrest. }
  destruct (firstSome selectorContent children) as [content|].
  - destruct Hch as (children' & -> & Hc'). eexists. split; [done|].
    simpl. by rewrite Hid.
  - by rewrite Hch.
Qed.

End selector_facts.

(** X15.  [updateLanguageSelectorUI] marks the active language.  When
    the document has a language selector, every element below it that
    has a [data-lang] attribute ends with the class [active] and
    [aria-current="true"] if its [data-lang] is the active code, and
    without the class and with [aria-current="false"] if it is not; the
    selector keeps the number of its children.  Without a selector the
    call changes nothing. *)
Theorem updateLanguageSelectorUI_marks (st : State) :
  match selectorContent (docRoot (document st)) with
  | Some content =>
      ∃ content',
        selectorContent (docRoot (document (updateLanguageSelectorUI st).2))
        = Some content' ∧
        length content' = length content ∧
        Forall (λ n, buttonsMarked (currentLanguage st) n = true) content'
  | None => (updateLanguageSelectorUI st).2 = st
  end.
Proof.
  unfold updateLanguageSelectorUI.
  pose proof (updateSelector_content (currentLanguage st) (docRoot (document st))) as Hu.
  destruct (selectorContent (docRoot (document st))) as [content|].
  - destruct Hu as (n' & -> & Hn'). simpl. eexists. split; [exact Hn'|].
    split; [apply length_map|].
    apply Forall_forall. intros n Hn.
    apply list_elem_of_fmap in Hn as (c & -> & _). apply markButtons_marked.
  - by rewrite Hu.
Qed.

(** X16.  [updateLanguageSelectorUI] is idempotent: a second call in a
    row completes as the first did and leaves the state the first
    left. *)
Theorem updateLanguageSelectorUI_twice (st : State) :
  updateLanguageSelectorUI (updateLanguageSelectorUI st).2
  = updateLanguageSelectorUI st.
Proof.
  unfold updateLanguageSelectorUI.
  destruct (updateSelector _ (docRoot (document st))) as [root'|] eqn:E; simpl.
  - by rewrite (updateSelector_again _ _ _ E).
  - by rewrite E.
Qed.

(** ** Rendering: what is left alone, and what stops it *)

Lemma split_without sep s :
  JsString.includes sep s = false → JsString.split sep s = [s].
Proof.
  induction s as [|c rest IH]; [done|]. simpl.
  destruct (Ascii.eqb c sep); [done|]. simpl. intros Hr. by rewrite (IH Hr).
Qed.

Lemma split_append sep s rest :
  JsString.includes sep s = false →
  JsString.split sep (s +:+ String sep rest) = s :: JsString.split sep rest.
Proof.
  induction s as [|c s' IH]; simpl.
  - by rewrite Ascii.eqb_refl.
  - destruct (Ascii.eqb c sep); [done|]. simpl. intros Hr. by rewrite (IH Hr).
Qed.

Lemma append_empty s : s +:+ EmptyString = s.
Proof.
  induction s as [|c s IH]; [done|].
  change (String c (s +:+ EmptyString) = String c s). by rewrite IH.
Qed.

Section unmarked_facts.
Context (H : Host) (translations : value).

Lemma unmarked_translateElement n :
  unmarked n = true → translateElement H translations n = n.
Proof.
  induction n as [s|tag attrs children IH] using node_children_ind; [done|].
  simpl. intros [[Hk _]%andb_prop Hc]%andb_prop.
  apply bool_decide_eq_true in Hk. rewrite Hk. f_equal.
  rewrite <- (map_id children) at 2. apply map_ext_Forall.
  rewrite Forall_forall in IH. apply Forall_forall. intros c Hin.
  apply IH; [done|]. rewrite forallb_forall in Hc. by apply Hc, list_elem_of_In.
Qed.

Lemma unmarked_translateAttributes n :
  unmarked n = true → translateAttributes H translations n = (n, Normal ()).
Proof.
  induction n as [s|tag attrs children IH] using node_children_ind; [done|].
  simpl. intros [[_ Hk]%andb_prop Hc]%andb_prop.
  apply bool_decide_eq_true in Hk. rewrite Hk.
  assert (Dom.forEachNode (translateAttributes H translations) children
          = (children, Normal ())) as ->; [|done].
  induction IH as [|c rest Hc' _ IHrest]; [done|].
  simpl in Hc. apply andb_prop in Hc as [Hc1 Hc2].
  simpl. rewrite (Hc' Hc1). by rewrite (IHrest Hc2).
Qed.

Lemma translatePairs_malformed pairs attrs entry :
  entry ∈ pairs → JsString.includes ":" entry = false →
  ∃ e, (translatePairs H translations pairs attrs).2 = Throw e.
Proof.
  intros Hin Hc. revert attrs.
  induction pairs as [|p rest IH]; intros attrs; [by apply elem_of_nil in Hin|].
  simpl. destruct (translateAttribute H translations p attrs) as [attrs'|e] eqn:E;
    [|by exists e].
  apply elem_of_cons in Hin as [<-|Hin]; [|by apply IH].
  unfold translateAttribute in E. by rewrite (split_without _ _ Hc) in E.
Qed.

End unmarked_facts.

Section title_facts.
Context (s : string) (f : gmap string string → gmap string string).

#[local] Abbreviation find := (Dom.updateFirstElement isMetaDescription f).

Lemma find_text : Dom.updateFirstOf find (Dom.textContent s) = None.
Proof. unfold Dom.textContent. by destruct (JsString.isEmpty s). Qed.

(** Writing the title gives the document no meta description. *)
Lemma updateFirstContent_description n n' :
  Dom.updateFirstContent Dom.isTitle (λ _, Dom.textContent s) n = Some n' →
  find n = None → find n' = None.
Proof.
  revert n'.
  induction n as [t|tag attrs children IH] using node_children_ind; [done|].
  intros n'. cbn [Dom.updateFirstContent Dom.updateFirstElement].
  destruct (Dom.isTitle tag attrs) eqn:Ht.
  { intros [= <-] _. cbn [Dom.updateFirstElement].
    rewrite (isTitle_not_meta _ _ Ht). fold (Dom.updateFirstOf find).
    by rewrite find_text. }
  destruct (isMetaDescription tag attrs) eqn:Hm; [done|].
  fold (Dom.updateFirstOf (Dom.updateFirstContent Dom.isTitle (λ _, Dom.textContent s))).
  fold (Dom.updateFirstOf find).
  destruct (Dom.updateFirstOf _ children) as [children'|] eqn:E; [|done].
  intros [= <-] Hn%fmap_None. cbn [Dom.updateFirstElement]. rewrite Hm.
  fold (Dom.updateFirstOf find). apply fmap_None.
  clear Ht Hm. revert children' E Hn.
  induction IH as [|c rest Hc _ IHrest]; intros children'; [done|].
  rewrite !updateFirstOf_cons.
  destruct (Dom.updateFirstContent _ _ c) as [c'|] eqn:Ec.
  - intros [= <-]. destruct (find c) eqn:Ef; [done|]. intros Hrest%fmap_None.
    by rewrite updateFirstOf_cons, (Hc c' eq_refl eq_refl), Hrest.
  - destruct (Dom.updateFirstOf _ rest) as [rest'|] eqn:Er; [|done].
    intros [= <-]. destruct (find c) eqn:Ef; [done|]. intros Hrest%fmap_None.
    by rewrite updateFirstOf_cons, Ef, (IHrest rest' eq_refl Hrest).
Qed.

Lemma appendToHead_description c c' :
  Dom.appendToHead s c = Some c' → find c = None → find c' = None.
Proof.
  destruct c as [t|tag attrs children]; [done|]. unfold Dom.appendToHead.
  destruct (Dom.isHead _); [|done]. intros [= <-].
  cbn [Dom.updateFirstElement]. destruct (isMetaDescription tag attrs); [done|].
  fold (Dom.updateFirstOf find). rewrite !fmap_None, !updateFirstOf_None.
  intros Hc. apply Forall_app. split; [done|]. apply Forall_singleton.
  unfold Dom.titleElement. cbn [Dom.updateFirstElement].
  change (isMetaDescription "title" ∅) with false. cbv iota.
  fold (Dom.updateFirstOf find). by rewrite find_text.
Qed.

Lemma setTitle_description n : find n = None → find (Dom.setTitle s n) = None.
Proof.
  intros Hn. unfold Dom.setTitle.
  destruct (Dom.updateFirstContent _ _ n) as [n'|] eqn:E.
  { by eapply updateFirstContent_description. }
  destruct n as [t|tag attrs children]; [done|]. unfold Dom.appendTitle.
  destruct (bool_decide (tag = "html")); [|done].
  destruct (Dom.updateFirstOf (Dom.appendToHead s) children) as [children'|] eqn:Ea;
    [|done].
  cbn [Dom.updateFirstElement] in Hn |- *.
  destruct (isMetaDescription tag attrs); [done|].
  fold (Dom.updateFirstOf find) in Hn |- *. apply fmap_None in Hn. apply fmap_None.
  clear E. revert children' Ea Hn.
  induction children as [|c rest IH]; intros children'; [done|].
  rewrite !updateFirstOf_cons.
  destruct (Dom.appendToHead s c) as [c'|] eqn:Ec.
  - intros [= <-]. destruct (find c) eqn:Ef; [done|]. intros Hrest%fmap_None.
    by rewrite updateFirstOf_cons, (appendToHead_description c c' Ec Ef), Hrest.
  - destruct (Dom.updateFirstOf _ rest) as [rest'|] eqn:Er; [|done].
    intros [= <-]. destruct (find c) eqn:Ef; [done|]. intros Hrest%fmap_None.
    by rewrite updateFirstOf_cons, Ef, (IH rest' eq_refl Hrest).
Qed.

End title_facts.

Lemma hasMetaDescription_setTitle s n :
  hasMetaDescription n = false → hasMetaDescription (Dom.setTitle s n) = false.
Proof.
  unfold hasMetaDescription. rewrite !bool_decide_eq_false, <- !eq_None_not_Some.
  apply setTitle_description.
Qed.

(** X17.  Rendering leaves an unmarked tree alone but for the title: on
    a document in which no element has a [data-i18n] or a
    [data-i18n-attr] attribute and which has no meta description,
    [applyTranslations] leaves the tree that [document.title =
    translations.meta.title] gives, and the tree as it is when the
    dataset has no such title or reading it throws. *)
Theorem applyTranslations_unmarked (W : World) (st : State) :
  unmarked (docRoot (document st)) = true →
  hasMetaDescription (docRoot (document st)) = false →
  docRoot (document (applyTranslations W st).2)
  = match titleToWrite (host W) (translations st) with
    | Normal (Some s) => Dom.setTitle s (docRoot (document st))
    | _ => docRoot (document st)
    end.
Proof.
  intros Hu Hm. unfold applyTranslations, render.
  rewrite (unmarked_translateElement _ _ _ Hu), (unmarked_translateAttributes _ _ _ Hu).
  destruct (titleToWrite _ _) as [[s|]|e]; [|by rewrite Hm|done].
  by rewrite (hasMetaDescription_setTitle s _ Hm).
Qed.

(** X18.  An attribute map with an entry that has no [":"] stops the
    second loop of rendering: on an element whose [data-i18n-attr]
    value has such an entry between its commas (an empty value and a
    trailing comma give one), the loop ends with an exception, at that
    entry or at one before it. *)
Theorem translateAttributes_malformed (H : Host) (translations : value)
    (tag attrData entry : string) (attrs : gmap string string)
    (children : list node) :
  attrs !! "data-i18n-attr" = Some attrData →
  entry ∈ JsString.split "," attrData →
  JsString.includes ":" entry = false →
  ∃ e, (translateAttributes H translations (Elem tag attrs children)).2 = Throw e.
Proof.
  intros Ha Hin Hc. simpl. rewrite Ha.
  destruct (translatePairs_malformed H translations _ attrs entry Hin Hc) as [e He].
  destruct (translatePairs _ _ _ _) as [attrs' r]. simpl in He. subst r.
  by exists e.
Qed.

(** X19.  A missing translation shows its key: when the key path of an
    element's [data-i18n] is blocked in the dataset, the first loop of
    rendering replaces the content of the element by the key path
    itself, as text, or as markup when the key path contains ["<"]. *)
Theorem translateElement_missing (H : Host) (translations : value)
    (tag key : string) (attrs : gmap string string) (children : list node) :
  attrs !! "data-i18n" = Some key →
  blocked H translations (JsString.split "." key) →
  translateElement H translations (Elem tag attrs children)
  = Elem tag attrs
      (if JsString.includes "<" key then parseFragment H tag key
       else Dom.textContent key).
Proof.
  intros Hk Hb. simpl. rewrite Hk. unfold translation, t.
  by rewrite (t_loop_blocked H key _ _ Hb).
Qed.

(** X20.  Browser detection looks at the language subtag only, whatever
    its case: when the primary locale of the browser is a code without
    ["-"], alone or followed by ["-"] and anything (a region, a script),
    and the lower-cased code is supported, [detectBrowserLanguage]
    returns the lower-cased code. *)
Theorem detectBrowserLanguage_region (W : World) (st : State)
    (code suffix : string) :
  JsString.includes "-" code = false →
  isSupported (JsString.toLowerCase code) = true →
  suffix = EmptyString ∨ (∃ region, suffix = String "-" region) →
  navigatorLanguage W = Some (code +:+ suffix) →
  detectBrowserLanguage W st = (Normal (Some (JsString.toLowerCase code)), st).
Proof.
  intros Hc Hs Hsuffix Hn.
  assert (JsString.isEmpty code = false) as Hne.
  { destruct code; [|done]. by vm_compute in Hs. }
  assert (languageSubtag (code +:+ suffix) = JsString.toLowerCase code) as Hsub.
  { unfold languageSubtag. destruct Hsuffix as [->|[region ->]].
    - by rewrite append_empty, (split_without _ _ Hc).
    - by rewrite (split_append _ _ _ Hc). }
  assert (JsString.isEmpty (code +:+ suffix) = false) as He.
  { by destruct code. }
  unfold detectBrowserLanguage. rewrite Hn. cbn [orString]. rewrite He. cbn zeta.
  by rewrite He, Hsub, Hs.
Qed.

(** ** The page script *)

Lemma toggle_toggleClass token attrs :
  Page.toggle token attrs
  = Dom.toggleClass token (negb (Dom.hasClass token attrs)) attrs.
Proof.
  unfold Page.toggle, Dom.toggleClass, Dom.hasClass.
  by destruct (bool_decide _).
Qed.

Lemma hasClass_toggle token attrs x :
  validToken token = true →
  Dom.hasClass x (Page.toggle token attrs)
  = if decide (x = token) then negb (Dom.hasClass token attrs)
    else Dom.hasClass x attrs.
Proof. intros Hv. rewrite toggle_toggleClass. by apply hasClass_toggleClass. Qed.

(** A write to the element that a selector finds, when the write leaves
    the element matching: the element is found again, with the write
    done. *)
Lemma firstElement_update p f n :
  (∀ tag a, p tag a = true → p tag (f a) = true) →
  match firstElement p n with
  | Some a =>
      ∃ n', Dom.updateFirstElement p f n = Some n' ∧ firstElement p n' = Some (f a)
  | None => Dom.updateFirstElement p f n = None
  end.
Proof.
  intros Hp.
  induction n as [s|tag attrs children IH] using node_children_ind; [done|].
  simpl. destruct (p tag attrs) eqn:E.
  { eexists. split; [done|]. simpl. by rewrite (Hp _ _ E). }
  assert (match firstSome (firstElement p) children with
          | Some a =>
              ∃ children', Dom.updateFirstOf (Dom.updateFirstElement p f) children
                           = Some children' ∧
                           firstSome (firstElement p) children' = Some (f a)
          | None => Dom.updateFirstOf (Dom.updateFirstElement p f) children = None
          end) as Hch.
  { induction IH as [|c rest Hc _ IHrest]; [done|]. simpl.
    destruct (firstElement p c) as [a|] eqn:Ec.
    - destruct Hc as (c' & -> & Hc'). eexists. split; [done|]. simpl. by rewrite Hc'.
    - rewrite Hc.
      destruct (firstSome (firstElement p) rest) as [a|].
      + destruct IHrest as (rest' & -> & Hr). eexists. split; [done|].
        simpl. by rewrite Ec.
      + by rewrite IHrest. }
  destruct (firstSome (firstElement p) children) as [a|].
  - destruct Hch as (children' & -> & Hc'). eexists. split; [done|].
    simpl. by rewrite E.
  - by rewrite Hch.
Qed.

(** X21.  [toggleMobileMenu] flips the class [active] of the first
    element with the class [nav-menu] and leaves its other classes as
    they are; the element is still the first with that class, so a
    second call brings its classes back to what they were.  A document
    without such an element is left alone. *)
Theorem toggleMobileMenu_flips (rootNode : node) :
  match firstElement Page.isNavMenu rootNode with
  | Some menu =>
      ∃ menu' menu'',
        firstElement Page.isNavMenu (Page.toggleMobileMenu rootNode) = Some menu' ∧
        Dom.hasClass "active" menu' = negb (Dom.hasClass "active" menu) ∧
        (∀ x, x ≠ "active" → Dom.hasClass x menu' = Dom.hasClass x menu) ∧
        firstElement Page.isNavMenu
          (Page.toggleMobileMenu (Page.toggleMobileMenu rootNode)) = Some menu'' ∧
        (∀ x, Dom.hasClass x menu'' = Dom.hasClass x menu)
  | None => Page.toggleMobileMenu rootNode = rootNode
  end.
Proof.
  assert (∀ tag a, Page.isNavMenu tag a = true →
                   Page.isNavMenu tag (Page.toggle "active" a) = true) as Hp.
  { intros tag a. unfold Page.isNavMenu. by rewrite hasClass_toggle. }
  unfold Page.toggleMobileMenu.
  pose proof (firstElement_update _ _ rootNode Hp) as H1.
  destruct (firstElement Page.isNavMenu rootNode) as [menu|]; [|by rewrite H1].
  destruct H1 as (root' & -> & Hm').
  pose proof (firstElement_update _ _ root' Hp) as H2. rewrite Hm' in H2.
  destruct H2 as (root'' & -> & Hm'').
  exists (Page.toggle "active" menu), (Page.toggle "active" (Page.toggle "active" menu)).
  split; [done|]. split; [by rewrite hasClass_toggle|].
  split. { intros x Hx. rewrite hasClass_toggle by done. by destruct (decide _). }
  split; [done|]. intros x.
  rewrite !hasClass_toggle by done.
  destruct (decide (x = "active")) as [->|Hx]; [|done].
  simpl. by rewrite negb_involutive.
Qed.

Lemma length_filter_snoc {A} (P : A → Prop) `{!∀ x, Decision (P x)} l a :
  length (filter P (l ++ [a]))
  = length (filter P l) + (if decide (P a) then 1 else 0).
Proof.
  rewrite filter_app, length_app. f_equal.
  rewrite filter_cons, filter_nil. by destruct (decide _).
Qed.

Section limiter_facts.
Context {Args : Type}.

Lemma lastCalled_app (history : list (Page.Activity Args)) a :
  lastCalled (history ++ [a])
  = match a with
    | Page.Called args _ => Some args
    | Page.Expired _ => lastCalled history
    end.
Proof.
  induction history as [|b rest IH]; simpl.
  - by destruct a.
  - rewrite IH. by destruct a.
Qed.

Lemma debounceRun_snoc (history : list (Page.Activity Args)) a :
  Page.debounceRun (history ++ [a]) = Page.debounceStep (Page.debounceRun history) a.
Proof. unfold Page.debounceRun. by rewrite foldl_app. Qed.

Lemma throttleRun_snoc (history : list (Page.Activity Args)) a :
  Page.throttleRun (history ++ [a]) = Page.throttleStep (Page.throttleRun history) a.
Proof. unfold Page.throttleRun. by rewrite foldl_app. Qed.

(** What holds of a debounced function after any history: no timer is
    pending, or one is, which is the one [timeout] names and holds the
    arguments of the last call; and the calls of [func] made and the one
    to come are not more than the calls received. *)
Lemma debounce_invariant (history : list (Page.Activity Args)) :
  let s := Page.debounceRun history in
  (Page.debounceTimers s = ∅ ∨
   ∃ id args, Page.timeout s = Some id ∧
              Page.debounceTimers s = {[id := args]} ∧
              lastCalled history = Some args) ∧
  length (Page.debounceCalls s) + size (Page.debounceTimers s)
  ≤ length (filter (λ a, isCalled a = true) history).
Proof.
  induction history as [|a history IH] using rev_ind.
  { simpl. split; [by left|]. rewrite map_size_empty. simpl. lia. }
  rewrite debounceRun_snoc, length_filter_snoc, lastCalled_app.
  set (s := Page.debounceRun history) in *. cbn zeta in IH.
  destruct IH as [Ht Hn].
  destruct a as [args outcome|id]; cbn [Page.debounceStep isCalled].
  - destruct (decide (true = true)); [|done].
    unfold Page.executedFunction. cbn [Page.debounceTimers Page.debounceCalls Page.timeout].
    assert (Page.clearTimeout (Page.timeout s) (Page.debounceTimers s) = ∅) as ->.
    { destruct Ht as [->|(id & a & -> & -> & _)].
      - unfold Page.clearTimeout. destruct (Page.timeout s); [|done].
        apply delete_empty.
      - simpl. apply delete_singleton_eq. }
    rewrite insert_empty, map_size_singleton. split.
    + right. by eexists _, _.
    + assert (size (Page.debounceTimers s) ≤ 1); [|lia].
      destruct Ht as [->|(id & a & _ & -> & _)].
      * rewrite map_size_empty. lia.
      * by rewrite map_size_singleton.
  - destruct (decide (false = true)); [done|].
    unfold Page.later.
    destruct (Page.debounceTimers s !! id) as [args|] eqn:E.
    2:{ split; [done|lia]. }
    cbn [Page.debounceTimers Page.debounceCalls Page.timeout].
    destruct Ht as [Ht|(id' & a & Hto & Ht & Hl)].
    { by rewrite Ht in E. }
    rewrite Ht in E. apply lookup_singleton_Some in E as [<- <-].
    rewrite Hto, Ht. simpl.
    rewrite delete_singleton_eq, delete_empty.
    split; [by left|].
    rewrite Ht, map_size_singleton in Hn. rewrite map_size_empty, length_app.
    simpl. lia.
Qed.

(** What holds of a throttled function after any history: a timer is
    pending exactly while [inThrottle] is set, and it is the only one;
    and the calls of [func] that returned, with the one the next call
    may make, are not more than the expiries plus one. *)
Lemma throttle_invariant (history : list (Page.Activity Args)) :
  let s := Page.throttleRun history in
  size (Page.throttleTimers s) = (if Page.inThrottle s then 1 else 0) ∧
  length (filter (λ c, returned c = true) (Page.throttleCalls s))
  + (if Page.inThrottle s then 0 else 1)
  ≤ S (length (filter (λ a, isExpired a = true) history)).
Proof.
  induction history as [|a history IH] using rev_ind.
  { split; [done|]. simpl. lia. }
  rewrite throttleRun_snoc, length_filter_snoc.
  set (s := Page.throttleRun history) in *. cbn zeta in IH.
  destruct IH as [Ht Hn].
  destruct a as [args outcome|id]; cbn [Page.throttleStep isExpired].
  - destruct (decide (false = true)); [done|].
    unfold Page.throttled. destruct (Page.inThrottle s) eqn:Hin; cbn [snd].
    { rewrite Hin. split; [done|lia]. }
    destruct outcome as [[]|e];
      cbn [snd Page.throttleTimers Page.throttleCalls Page.inThrottle].
    + apply size_empty_inv in Ht. apply leibniz_equiv in Ht. rewrite Ht.
      rewrite union_empty_r_L, size_singleton. split; [done|].
      rewrite length_filter_snoc. destruct (decide _) as [|Hr]; [lia|].
      by destruct Hr.
    + split; [done|].
      rewrite length_filter_snoc. destruct (decide _) as [Hr|]; [done|lia].
  - destruct (decide (true = true)); [|done].
    unfold Page.release.
    destruct (bool_decide (id ∈ Page.throttleTimers s)) eqn:Hid.
    2:{ split; [done|]. destruct (Page.inThrottle s); lia. }
    cbn [Page.throttleTimers Page.throttleCalls Page.inThrottle].
    apply bool_decide_eq_true in Hid.
    destruct (Page.inThrottle s) eqn:Hin.
    2:{ apply size_empty_inv in Ht. apply leibniz_equiv in Ht.
        rewrite Ht in Hid. by apply not_elem_of_empty in Hid. }
    apply size_1_elem_of in Ht as [x Hx]. apply leibniz_equiv in Hx.
    rewrite Hx in Hid |- *. apply elem_of_singleton in Hid as ->.
    rewrite difference_diag_L, size_empty. split; [done|lia].
Qed.

End limiter_facts.

(** X22.  A debounced function calls [func] only when a timer fires,
    and then with the arguments of the latest call.  After any history
    of calls and expiries, [func] has been called at most as many times
    as the debounced function; and when a timer fires next, either
    nothing happens (it was cleared, or has fired) or [func] is called
    once, with the arguments of the last call of the history, and no
    timer is left pending. *)
Theorem debounce_latest {Args : Type} (history : list (Page.Activity Args))
    (id : nat) :
  let s := Page.debounceRun history in
  let s' := Page.later id s in
  length (Page.debounceCalls s) ≤ length (filter (λ a, isCalled a = true) history) ∧
  (s' = s ∨
   ∃ args, lastCalled history = Some args ∧
           Page.debounceCalls s' = Page.debounceCalls s ++ [args] ∧
           Page.debounceTimers s' = ∅).
Proof.
  intros s s'.
  destruct (debounce_invariant history) as [Ht Hn]. fold s in Ht, Hn.
  split; [lia|].
  unfold s', Page.later.
  destruct (Page.debounceTimers s !! id) as [args|] eqn:E; [|by left].
  right. exists args. simpl.
  destruct Ht as [Ht|(id' & a & Hto & Ht & Hl)].
  { by rewrite Ht in E. }
  rewrite Ht in E. apply lookup_singleton_Some in E as [<- <-].
  split; [done|]. split; [done|].
  rewrite Hto, Ht. simpl. by rewrite delete_singleton_eq, delete_empty.
Qed.

(** X23.  A call of a debounced function always leaves exactly one timer
    pending, whatever came before (the timers of earlier calls are
    cleared); when that timer fires, [func] is called with the arguments
    of this call. *)
Theorem debounce_pending {Args : Type} (history : list (Page.Activity Args))
    (args : Args) (outcome : Completion ()) :
  let s := Page.debounceRun (history ++ [Page.Called args outcome]) in
  ∃ id, Page.debounceTimers s = {[id := args]} ∧
        Page.debounceCalls (Page.later id s)
        = Page.debounceCalls (Page.debounceRun history) ++ [args].
Proof.
  rewrite debounceRun_snoc. simpl.
  destruct (debounce_invariant history) as [Ht _].
  set (s := Page.debounceRun history) in *. simpl in Ht.
  assert (Page.clearTimeout (Page.timeout s) (Page.debounceTimers s) = ∅) as Hc.
  { destruct Ht as [->|(id & a & -> & -> & _)].
    - unfold Page.clearTimeout. destruct (Page.timeout s); [|done].
      apply delete_empty.
    - simpl. apply delete_singleton_eq. }
  exists (Page.debounceNext s). unfold Page.executedFunction, Page.later. simpl.
  rewrite Hc, insert_empty. split; [done|].
  by rewrite lookup_singleton_eq.
Qed.

(** X24.  A throttled function lets [func] return at most once between
    two expiries.  After any history of calls and expiries, the calls
    of [func] that returned are at most one more than the expiries; the
    function is throttled exactly while a timer of its own is pending,
    so it cannot stay throttled for ever; and a call made while it is
    throttled does not reach [func] and changes nothing. *)
Theorem throttle_rate {Args : Type} (history : list (Page.Activity Args)) :
  let s := Page.throttleRun history in
  length (filter (λ c, returned c = true) (Page.throttleCalls s))
  ≤ S (length (filter (λ a, isExpired a = true) history)) ∧
  (Page.inThrottle s = true ↔ Page.throttleTimers s ≠ ∅) ∧
  ∀ args outcome,
    Page.inThrottle s = true →
    Page.throttled args outcome s = (Normal (), s).
Proof.
  intros s. destruct (throttle_invariant history) as [Ht Hn]. fold s in Ht, Hn.
  split; [destruct (Page.inThrottle s); lia|]. split.
  - destruct (Page.inThrottle s).
    + split; [|done]. intros _ He. by rewrite He, size_empty in Ht.
    + apply size_empty_inv in Ht. apply leibniz_equiv in Ht. rewrite Ht.
      split; [done|]. by intros [].
  - intros args outcome Hin. unfold Page.throttled. by rewrite Hin.
Qed.

(** ** The theorems at work on the example page *)

Lemma resolveLanguage_priority_witness :
  resolveLanguage Example.arabicOnly Example.start = (Normal "ar", Example.start).
Proof.
  destruct (resolveLanguage_priority Example.arabicOnly Example.start)
    as (code & E & _ & _ & Hq & _).
  rewrite E, (Hq "ar" eq_refl); [reflexivity|].
  unfold CONFIG.supportedLanguages. apply list_elem_of_In. simpl. tauto.
Defined.

Lemma t_follows_key_path_witness :
  t Example.engine (Obj {[ "a" := Obj {[ "b" := Obj ∅ ]} ]}) "a.b.c"
  = Normal (Str "a.b.c").
Proof.
  destruct (t_follows_key_path Example.engine Null "") as (_ & _ & _ & _ & Hex).
  apply Hex. reflexivity.
Defined.

(** On the example host [toString] is inherited, and is a function. *)
Lemma t_inherited_key_witness :
  hostIsFunction Example.engine 0 = true ∧
  ownProperty (Obj ∅) "toString" = None ∧
  t_specified Example.engine (Obj ∅) "toString" = Str "toString" ∧
  t Example.engine (Obj ∅) "toString" = Normal (HostObject 0).
Proof.
  split; [reflexivity|].
  apply (t_inherited_key Example.engine (HostObject 0)). reflexivity.
Defined.

Lemma loadTranslations_fallback_witness :
  requests (loadTranslations Example.englishOnly "ar" Example.start).2
  = ["./locales/ar.json"; "./locales/en.json"] ∧
  translations (loadTranslations Example.englishOnly "ar" Example.start).2
  = Example.english.
Proof.
  destruct (loadTranslations_fallback Example.englishOnly "ar" Example.start)
    as (_ & Hfallback & _).
  destruct Hfallback as (Hrequests & _ & Hdataset).
  - discriminate.
  - right. reflexivity.
  - split; [exact Hrequests|]. apply Hdataset. reflexivity.
Defined.

Lemma resolveLanguage_never_fails_witness :
  resolveLanguage Example.silent
    (setStorage StorageUnavailable Example.start)
  = (Normal "en", setStorage StorageUnavailable Example.start).
Proof.
  destruct (resolveLanguage_never_fails Example.silent
              (setStorage StorageUnavailable Example.start))
    as (code & E & _ & _ & _ & Hdefault).
  rewrite E, Hdefault; reflexivity.
Defined.

Lemma setLanguage_unsupported_witness :
  setLanguage Example.online "fr" Example.start
  = (Normal (), addConsoleError "Unsupported language: fr" None Example.start).
Proof.
  apply (setLanguage_unsupported Example.online "fr" Example.start). reflexivity.
Defined.

Lemma setLanguage_active_witness :
  setLanguage Example.online "en" (init Example.online Example.start).2
  = (Normal (), (init Example.online Example.start).2).
Proof.
  apply (setLanguage_active Example.online (init Example.online Example.start).2).
  apply reachable_init, reachable_start.
Defined.

Lemma setLanguage_direction_witness :
  currentLanguage
    (setLanguage Example.online "ar" (init Example.online Example.start).2).2 = "ar" ∧
  directionSet "ar"
    (setLanguage Example.online "ar" (init Example.online Example.start).2).2.
Proof.
  apply (proj2 (setLanguage_direction Example.online "ar")
           (init Example.online Example.start).2).
  - reflexivity.
  - intros E. vm_compute in E. discriminate E.
  - vm_compute. reflexivity.
Defined.

Lemma reachable_languages_witness :
  suspended afterTwoClicksCrossed = [] ∧
  currentLanguage (now afterTwoClicksCrossed) = "en" ∧
  translations (now afterTwoClicksCrossed) = Example.arabic ∧
  currentLanguage (now afterTwoClicksCrossed) ∈ CONFIG.supportedLanguages ∧
  knownDataset Example.online (translations (now afterTwoClicksCrossed)).
Proof.
  split; [by vm_compute|]. split; [by vm_compute|]. split; [by vm_compute|].
  destruct (reachable_languages Example.online (now afterTwoClicksCrossed))
    as (Hcode & Hdataset & _).
  - exists Example.page, Example.emptyStorage, twoClicksCrossed. reflexivity.
  - split; [exact Hcode|exact Hdataset].
Defined.

(** *** Initialisation, switches and events *)

Lemma init_once_witness :
  isInitialized (init Example.online Example.start).2 = true ∧
  init Example.online (init Example.online Example.start).2
  = (Normal (), (init Example.online Example.start).2).
Proof.
  apply (init_once Example.online Example.start); [reflexivity|].
  vm_compute. reflexivity.
Defined.

Lemma init_completed_witness :
  currentLanguage (init Example.online Example.start).2
  = resolved Example.online Example.start ∧
  dispatched (init Example.online Example.start).2
  = dispatched Example.start ++ [I18nReady (resolved Example.online Example.start)] ∧
  ∃ body,
    Dom.bodyAttributes (docRoot (document (init Example.online Example.start).2))
    = Some body ∧
    Dom.hasClass "i18n-ready" body = true.
Proof.
  apply (proj2 (init_completed Example.online) Example.start); [reflexivity|].
  vm_compute. reflexivity.
Defined.

(** On a page without a body [init] ends with a [TypeError]. *)
Lemma init_failed_witness :
  isInitialized
    (init Example.online (initialState Example.bodyless Example.emptyStorage)).2
  = false ∧
  dispatched
    (init Example.online (initialState Example.bodyless Example.emptyStorage)).2
  = dispatched (initialState Example.bodyless Example.emptyStorage) ∧
  currentLanguage
    (init Example.online (initialState Example.bodyless Example.emptyStorage)).2
  = resolved Example.online (initialState Example.bodyless Example.emptyStorage).
Proof.
  apply (init_failed Example.online
           (initialState Example.bodyless Example.emptyStorage) _ TypeError);
    [reflexivity|].
  vm_compute. reflexivity.
Defined.

Lemma setLanguage_event_witness :
  currentLanguage (setLanguage Example.online "ar" Example.start).2 = "ar" ∧
  isInitialized (setLanguage Example.online "ar" Example.start).2
  = isInitialized Example.start ∧
  dispatched (setLanguage Example.online "ar" Example.start).2
  = match (setLanguage Example.online "ar" Example.start).1 with
    | Normal _ => dispatched Example.start ++ [I18nLanguageChanged "ar"]
    | Throw _ => dispatched Example.start
    end.
Proof.
  apply (setLanguage_event Example.online "ar" Example.start); [reflexivity|].
  intros E. vm_compute in E. discriminate E.
Defined.

Lemma setLanguage_remembered_witness :
  storage (setLanguage Example.online "ar" Example.start).2
  = StorageAvailable false (<[CONFIG.localStorageKey := "ar"]> ∅) ∧
  (getStoredLanguage (setLanguage Example.online "ar" Example.start).2).1
  = Normal (Some "ar") ∧
  ∀ d, (resolveLanguage Example.online
          (initialState d
             (storage (setLanguage Example.online "ar" Example.start).2))).1
       = Normal "ar".
Proof.
  apply (setLanguage_remembered Example.online Example.online "ar" Example.start ∅);
    [reflexivity| |reflexivity|reflexivity].
  intros E. vm_compute in E. discriminate E.
Defined.

Lemma setLanguage_without_storage_witness :
  storage (setLanguage Example.online "ar" Example.withoutStorage).2
  = storage Example.withoutStorage ∧
  currentLanguage (setLanguage Example.online "ar" Example.withoutStorage).2 = "ar" ∧
  ∃ more, requests (setLanguage Example.online "ar" Example.withoutStorage).2
          = requests Example.withoutStorage ++ localePath "ar" :: more.
Proof.
  apply (setLanguage_without_storage Example.online "ar" Example.withoutStorage);
    [reflexivity| |left; reflexivity].
  intros E. vm_compute in E. discriminate E.
Defined.

Lemma setLanguage_null_dataset_witness :
  ∃ e, (setLanguage Example.nullArabic "ar" Example.start).1 = Throw e ∧
       currentLanguage (setLanguage Example.nullArabic "ar" Example.start).2 = "ar" ∧
       translations (setLanguage Example.nullArabic "ar" Example.start).2 = Null ∧
       dispatched (setLanguage Example.nullArabic "ar" Example.start).2
       = dispatched Example.start.
Proof.
  apply (setLanguage_null_dataset Example.nullArabic "ar" Example.start);
    [reflexivity| |vm_compute; reflexivity].
  intros E. vm_compute in E. discriminate E.
Defined.

Lemma dispatched_supported_witness :
  Forall (λ e, eventLanguage e ∈ CONFIG.supportedLanguages)
    (dispatched (setLanguage Example.online "ar" (init Example.online Example.start).2).2).
Proof.
  apply (dispatched_supported Example.online).
  apply reachable_setLanguage, reachable_init, reachable_start.
Defined.

(** Two calls of [init] in a row: [i18n:ready] is dispatched twice. *)
Lemma ready_dispatched_flag_witness :
  readyCount (now (run Example.online Example.page Example.emptyStorage twoInits))
  = 2%nat ∧
  isInitialized (now (run Example.online Example.page Example.emptyStorage twoInits))
  = true ∧
  (readyCount (now (run Example.online Example.page Example.emptyStorage twoInits))
   ≤ length (filter (λ t, isTurnInit t = true) twoInits))%nat.
Proof.
  split; [by vm_compute|]. split; [by vm_compute|].
  exact (proj2 (ready_dispatched_flag Example.online Example.page
                  Example.emptyStorage twoInits)).
Defined.

Lemma requests_supported_witness :
  Forall localeRequest (requests Example.afterFailedSwitch).
Proof.
  apply (requests_supported Example.arabicOnly).
  apply reachable_setLanguage, reachable_init, reachable_start.
Defined.

Lemma accessors_agree_witness :
  ∃ attrs,
    Dom.rootAttributes (docRoot (document (init Example.arabicOnly Example.start).2))
    = Some attrs ∧
    getCurrentLanguage (init Example.arabicOnly Example.start).2
    = (Normal (currentLanguage (init Example.arabicOnly Example.start).2),
       (init Example.arabicOnly Example.start).2) ∧
    attrs !! "lang" = Some (currentLanguage (init Example.arabicOnly Example.start).2) ∧
    (attrs !! "dir" = Some "rtl" ∨ attrs !! "dir" = Some "ltr") ∧
    isRTL (init Example.arabicOnly Example.start).2
    = (Normal (bool_decide (attrs !! "dir" = Some "rtl")),
       (init Example.arabicOnly Example.start).2).
Proof.
  apply (accessors_agree Example.arabicOnly Example.start).
  left. split; [reflexivity|]. vm_compute. reflexivity.
Defined.

Lemma updateDocumentAttributes_completes_witness :
  (updateDocumentAttributes (initialState Example.bodyless Example.emptyStorage)).1
  = (if bool_decide (is_Some (Dom.bodyAttributes (docRoot Example.bodyless)))
     then Normal () else Throw TypeError) ∧
  Dom.rootAttributes
    (docRoot (document (updateDocumentAttributes
                          (initialState Example.bodyless Example.emptyStorage)).2))
  = Some (<["dir" := if isRtlLanguage "en" then "rtl" else "ltr"]>
            (<["lang" := "en"]> ∅)).
Proof.
  apply (updateDocumentAttributes_completes
           (initialState Example.bodyless Example.emptyStorage)
           "html" ∅ [Elem "head" ∅ []]).
  reflexivity.
Defined.

(** *** Rendering and detection *)

Lemma applyTranslations_twice_witness :
  applyTranslations Example.online
    (applyTranslations Example.online
       (setTranslations Example.english Example.start)).2
  = applyTranslations Example.online
      (setTranslations Example.english Example.start).
Proof.
  apply (applyTranslations_twice Example.online
           (setTranslations Example.english Example.start)).
  reflexivity.
Defined.

Lemma applyTranslations_unmarked_witness :
  docRoot
    (document
       (applyTranslations Example.online
          (setTranslations Example.english
             (initialState Example.plainPage Example.emptyStorage))).2)
  = Elem "html" ∅
      [Elem "head" ∅ [Elem "title" ∅ [Text "Zodya"]];
       Elem "body" ∅
         [Elem "nav" {[ "class" := "nav-menu" ]} [Text "Menu"];
          Elem "p" ∅ [Text "Welcome"]]].
Proof.
  exact (applyTranslations_unmarked Example.online
           (setTranslations Example.english
              (initialState Example.plainPage Example.emptyStorage))
           eq_refl eq_refl).
Defined.

(** A trailing comma leaves an empty entry. *)
Lemma translateAttributes_malformed_witness :
  ∃ e, (translateAttributes Example.engine Example.english
          (Elem "a" {[ "data-i18n-attr" := "title:nav.home," ]} [])).2 = Throw e.
Proof.
  apply (translateAttributes_malformed Example.engine Example.english
           "a" "title:nav.home," EmptyString).
  - reflexivity.
  - apply list_elem_of_In. simpl. tauto.
  - reflexivity.
Defined.

Lemma translateElement_missing_witness :
  translateElement Example.engine Example.english
    (Elem "h1" {[ "data-i18n" := "nav.about" ]} [Text "..."])
  = Elem "h1" {[ "data-i18n" := "nav.about" ]}
      (if JsString.includes "<" "nav.about"
       then parseFragment Example.engine "h1" "nav.about"
       else Dom.textContent "nav.about").
Proof.
  apply (translateElement_missing Example.engine Example.english "h1" "nav.about").
  - reflexivity.
  - exists ["nav"], "about", [], (Obj {[ "home" := Str "Home" ]}).
    split; [reflexivity|]. split.
    + eapply resolves_cons; [reflexivity|reflexivity|apply resolves_nil].
    + right. reflexivity.
Defined.

Lemma detectBrowserLanguage_region_witness :
  detectBrowserLanguage Example.online Example.start
  = (Normal (Some (JsString.toLowerCase "en")), Example.start).
Proof.
  apply (detectBrowserLanguage_region Example.online Example.start "en" "-US").
  - reflexivity.
  - reflexivity.
  - right. exists "US". reflexivity.
  - reflexivity.
Defined.

(** The inherited case of the key lookup: on the example host an empty
    dataset has a ["toString"], found on the prototype chain. *)
Example t_inherited :
  t Example.engine (Obj ∅) "toString" = Normal (HostObject 0).
Proof. reflexivity. Qed.
